(** * DeepH-dock, [deepx_dock.compute.eigen]: Bloch transforms and band
    diagonalisation

    A shallow embedding of [matrix.py] ([AOMatrixR], [AOMatrixK]) and
    [hamiltonian.py] ([HamiltonianObj]) together with the part of numpy,
    scipy, joblib and threadpoolctl that these two files call.

    The file has three parts: the embedding of the program and of the
    library calls it makes; the vocabulary of the statements and the inputs
    of the examples; the lemmas and the theorems, one theorem for each of the
    properties C1 to C10 of the specification.

    Modelling decisions.
    - Floating-point numbers are idealised: a Python [float] is a real number
      of the Standard Library, a Python [complex] is a pair of reals.  Rounding,
      NaN and infinities are outside the model.
    - A numpy array is its shape together with its elements in row-major
      (C) order, which is the order [reshape] preserves.
    - A Python exception is the [Raise] branch of [result].
    - The scipy solvers are parameters; what the theorems need of them is
      stated as a hypothesis where it is needed.
    - The order in which the workers of a joblib pool finish is a parameter
      of [diag]; the theorems hold for every order. *)

From Stdlib Require Import String Ascii.
From Stdlib Require Import List ZArith Reals Lia Lra Bool Arith Permutation Sorted.
Import ListNotations.

Set Implicit Arguments.

(* ------------------------------------------------------------------ *)
(** ** Complex numbers, as pairs of reals *)

Module Cx.

Local Open Scope R_scope.

Definition C : Type := (R * R)%type.

Definition RtoC (x : R) : C := (x, 0).
Definition C0 : C := RtoC 0.
Definition C1 : C := RtoC 1.
(** Python's [2j] and [-2j]. *)
Definition two_j : C := (0, 2).
Definition neg_two_j : C := (-0, -2).

Definition Cplus (a b : C) : C := (fst a + fst b, snd a + snd b).
Definition Cmult (a b : C) : C :=
  (fst a * fst b - snd a * snd b, fst a * snd b + snd a * fst b).
Definition Cconj (a : C) : C := (fst a, - snd a).

(** [np.exp] at a complex argument. *)
Definition Cexp (z : C) : C := (exp (fst z) * cos (snd z), exp (fst z) * sin (snd z)).

End Cx.

(* ------------------------------------------------------------------ *)
(** ** Python exceptions *)

Inductive exn : Type :=
| ValueError
| IndexError
| TypeError
| LinAlgError
| ArpackError
| AxisError
| Unmodelled.   (* an array rank this development does not model *)

Inductive result (A : Type) : Type :=
| Ok (a : A)
| Raise (e : exn).

Arguments Ok {A} a.
Arguments Raise {A} e.

Definition bind {A B : Type} (m : result A) (f : A -> result B) : result B :=
  match m with
  | Ok a => f a
  | Raise e => Raise e
  end.

Notation "x <- m ;; k" := (bind m (fun x => k))
  (at level 61, m at next level, right associativity).
Notation "' p <- m ;; k" := (bind m (fun x => match x with p => k end))
  (at level 61, p pattern, m at next level, right associativity).

(** A list comprehension whose body may raise: the first exception, in
    iteration order, ends it. *)
Fixpoint mapM {A B : Type} (f : A -> result B) (l : list A) : result (list B) :=
  match l with
  | [] => Ok []
  | x :: l' => y <- f x ;; ys <- mapM f l' ;; Ok (y :: ys)
  end.

(* ------------------------------------------------------------------ *)
(** ** The numpy subset *)

Module Np.

Import Cx.

(** What an element type must offer for [matmul] and for reading an element. *)
Class Scalar (A : Type) : Type :=
  { s0 : A; sadd : A -> A -> A; smul : A -> A -> A }.

#[export] Instance Scalar_Z : Scalar Z := {| s0 := 0%Z; sadd := Z.add; smul := Z.mul |}.
#[export] Instance Scalar_R : Scalar R := {| s0 := 0%R; sadd := Rplus; smul := Rmult |}.
#[export] Instance Scalar_C : Scalar C := {| s0 := C0; sadd := Cplus; smul := Cmult |}.

Definition ssum {A} `{Scalar A} (l : list A) : A := fold_right sadd s0 l.

Record ndarray (A : Type) : Type := mk_nd { shape : list nat; data : list A }.

Arguments mk_nd {A} shape data.

Definition prod (dims : list nat) : nat := fold_right Nat.mul 1 dims.

Definition size {A} (a : ndarray A) : nat := prod (shape a).
Definition ndim {A} (a : ndarray A) : nat := length (shape a).

(** The arrays numpy can build: as many elements as the shape says. *)
Definition wf {A} (a : ndarray A) : Prop := length (data a) = size a.

(** [len(a)]: the extent of the first axis; a 0-d array has no [len]. *)
Definition len {A} (a : ndarray A) : result nat :=
  match shape a with
  | [] => Raise TypeError
  | n :: _ => Ok n
  end.

(** [a.flat[i]]. *)
Definition flat {A} `{Scalar A} (a : ndarray A) (i : nat) : A := nth i (data a) s0.

(** Element [(i, j)] of a 2-d array and [(i, j, l)] of a 3-d array. *)
Definition at2 {A} `{Scalar A} (a : ndarray A) (i j : nat) : A :=
  flat a (i * nth 1 (shape a) 0 + j).
Definition at3 {A} `{Scalar A} (a : ndarray A) (i j l : nat) : A :=
  flat a ((i * nth 1 (shape a) 0 + j) * nth 2 (shape a) 0 + l).

(** The row-major elements of the [n] x [p] array whose [(i, j)] element is
    [f i j]. *)
Definition tab2 {A} (n p : nat) (f : nat -> nat -> A) : list A :=
  flat_map (fun i => map (f i) (seq 0 p)) (seq 0 n).

(** [a.T] of a 2-d array. *)
Definition T {A} `{Scalar A} (a : ndarray A) : result (ndarray A) :=
  match shape a with
  | [] | [_] => Ok a
  | [n; m] => Ok (mk_nd [m; n] (tab2 m n (fun j i => flat a (i * m + j))))
  | _ => Raise Unmodelled
  end.

(** [np.matmul(a, b)] of two 2-d arrays.  A 0-d operand is a [ValueError];
    1-d operands and stacks of matrices are not modelled. *)
Definition matmul {A} `{Scalar A} (a b : ndarray A) : result (ndarray A) :=
  match shape a, shape b with
  | [], _ | _, [] => Raise ValueError
  | [n; m], [m'; p] =>
      if m =? m'
      then Ok (mk_nd [n; p]
                 (tab2 n p (fun i j =>
                    ssum (map (fun l => smul (flat a (i * m + l)) (flat b (l * p + j)))
                              (seq 0 m)))))
      else Raise ValueError
  | _, _ => Raise Unmodelled
  end.

(** Applying a function to every element: [np.exp(a)], [c * a], the
    promotion of an integer array to floats. *)
Definition map_nd {A B} (f : A -> B) (a : ndarray A) : ndarray B :=
  mk_nd (shape a) (map f (data a)).

(** [a.reshape(n, -1)]: the missing extent is [size / n]; numpy refuses when
    [n] is 0 or does not divide the size. *)
Definition reshape_m1 {A} (a : ndarray A) (n : nat) : result (ndarray A) :=
  if (n =? 0) || negb (size a mod n =? 0)
  then Raise ValueError
  else Ok (mk_nd [n; size a / n] (data a)).

(** [a.reshape] with every extent given. *)
Definition reshape {A} (a : ndarray A) (dims : list nat) : result (ndarray A) :=
  if prod dims =? size a
  then Ok (mk_nd dims (data a))
  else Raise ValueError.

(** [a[i]] for a natural number [i]. *)
Definition item {A} (a : ndarray A) (i : nat) : result (ndarray A) :=
  match shape a with
  | [] => Raise IndexError
  | n :: rest =>
      if i <? n
      then Ok (mk_nd rest (firstn (prod rest) (skipn (i * prod rest) (data a))))
      else Raise IndexError
  end.

(** [a[None, :]]: a new leading axis of extent 1; the slice needs one axis. *)
Definition newaxis0 {A} (a : ndarray A) : result (ndarray A) :=
  match shape a with
  | [] => Raise IndexError
  | _ :: _ => Ok (mk_nd (1 :: shape a) (data a))
  end.

(** Iterating an array yields [a[0]], [a[1]], ...; a 0-d array cannot be
    iterated. *)
Definition iter {A} (a : ndarray A) : result (list (ndarray A)) :=
  n <- len a ;; mapM (item a) (seq 0 n).

(** A Python sequence of floats as a 1-d array: [np.array(l)]. *)
Definition of_list {A} (l : list A) : ndarray A := mk_nd [length l] l.

(** [w[:, None]] of a 1-d array: a column. *)
Definition column {A} (w : ndarray A) : result (ndarray A) :=
  match shape w with
  | [] => Raise IndexError
  | [n] => Ok (mk_nd [n; 1] (data w))
  | _ => Raise Unmodelled
  end.

(** The extent two broadcast axes agree on. *)
Definition bdim (x y : nat) : result nat :=
  if x =? y then Ok x
  else if x =? 1 then Ok y
  else if y =? 1 then Ok x
  else Raise ValueError.

(** [a * b] of two 2-d arrays, with numpy's broadcasting: an axis of extent 1
    is repeated along the other operand's axis. *)
Definition multiply {A} `{Scalar A} (a b : ndarray A) : result (ndarray A) :=
  match shape a, shape b with
  | [n; m], [n'; m'] =>
      r <- bdim n n' ;;
      c <- bdim m m' ;;
      Ok (mk_nd [r; c]
            (tab2 r c (fun i j =>
               smul (flat a ((if n =? 1 then 0 else i) * m + (if m =? 1 then 0 else j)))
                    (flat b ((if n' =? 1 then 0 else i) * m' + (if m' =? 1 then 0 else j))))))
  | _, _ => Raise Unmodelled
  end.

(** [np.stack(arrs, axis)]: at least one array, all of one shape; the new
    axis of extent [len(arrs)] goes to position [axis]. *)
Definition stack {A} (arrs : list (ndarray A)) (axis : nat) : result (ndarray A) :=
  match arrs with
  | [] => Raise ValueError
  | a0 :: rest =>
      if forallb (fun a => if list_eq_dec Nat.eq_dec (shape a) (shape a0) then true else false) rest
      then
        if axis <=? ndim a0
        then
          let outer := prod (firstn axis (shape a0)) in
          let inner := prod (skipn axis (shape a0)) in
          Ok (mk_nd (firstn axis (shape a0) ++ length arrs :: skipn axis (shape a0))
                (flat_map (fun o =>
                   flat_map (fun a => firstn inner (skipn (o * inner) (data a))) arrs)
                   (seq 0 outer)))
        else Raise AxisError
      else Raise ValueError
  end.

(** Comparison of two floats. *)
Definition Rleb (x y : R) : bool := if Rle_dec x y then true else false.

(** [np.sort(v)] of a 1-d array. *)
Fixpoint insert (x : R) (l : list R) : list R :=
  match l with
  | [] => [x]
  | y :: l' => if Rleb x y then x :: l else y :: insert x l'
  end.

Definition sort (v : list R) : list R := fold_right insert [] v.

(** [np.argsort(v)] of a 1-d array: the positions of [v] in ascending order of
    their values.  Positions of equal values are kept in input order here; numpy
    promises no order among them. *)
Fixpoint insert_key (p : R * nat) (l : list (R * nat)) : list (R * nat) :=
  match l with
  | [] => [p]
  | q :: l' => if Rleb (fst p) (fst q) then p :: l else q :: insert_key p l'
  end.

Definition argsort (v : list R) : list nat :=
  map snd (fold_right insert_key [] (combine v (seq 0 (length v)))).

(** [v[idx]] of a 1-d array, [idx] an index array. *)
Definition take (v : list R) (idx : list nat) : result (list R) :=
  mapM (fun i => match nth_error v i with Some x => Ok x | None => Raise IndexError end) idx.

(** [a[:, idx]] of a 2-d array. *)
Definition take_cols {A} `{Scalar A} (a : ndarray A) (idx : list nat) : result (ndarray A) :=
  match shape a with
  | [] | [_] => Raise IndexError
  | [n; m] =>
      if forallb (fun i => i <? m) idx
      then Ok (mk_nd [n; length idx] (tab2 n (length idx) (fun r j => flat a (r * m + nth j idx 0))))
      else Raise IndexError
  | _ => Raise Unmodelled
  end.

End Np.

(* ------------------------------------------------------------------ *)
(** ** Python builtins and the process environment *)

Module Py.

(** The ASCII characters [int] strips around a number.  Characters above
    127 are not modelled. *)
Definition is_space (c : ascii) : bool :=
  let n := nat_of_ascii c in
  ((9 <=? n) && (n <=? 13)) || ((28 <=? n) && (n <=? 32)).

Definition is_digit (c : ascii) : bool :=
  let n := nat_of_ascii c in (48 <=? n) && (n <=? 57).

Fixpoint lstrip (s : list ascii) : list ascii :=
  match s with
  | c :: s' => if is_space c then lstrip s' else s
  | [] => []
  end.

Definition strip (s : list ascii) : list ascii := rev (lstrip (rev (lstrip s))).

(** Decimal digits, single underscores allowed between two digits. *)
Fixpoint digits (acc : Z) (after_digit : bool) (s : list ascii) : option Z :=
  match s with
  | [] => if after_digit then Some acc else None
  | c :: s' =>
      if is_digit c
      then digits (10 * acc + Z.of_nat (nat_of_ascii c - 48)) true s'
      else if Ascii.eqb c "_"%char
           then (if after_digit then digits acc false s' else None)
           else None
  end.

(** [int(s)] for a string [s], base 10. *)
Definition int (s : string) : result Z :=
  let parsed :=
    match strip (list_ascii_of_string s) with
    | "+"%char :: r => digits 0 false r
    | "-"%char :: r => option_map Z.opp (digits 0 false r)
    | r => digits 0 false r
    end in
  match parsed with
  | Some n => Ok n
  | None => Raise ValueError
  end.

(** [os.environ], and [os.environ.get(name, default)]. *)
Definition environ : Type := string -> option string.

Definition get (env : environ) (name default : string) : string :=
  match env name with
  | Some v => v
  | None => default
  end.

End Py.

(* ------------------------------------------------------------------ *)
(** ** [matrix.py] *)

Import Cx Np.

Module AOMatrixR.

Record t : Type := { Rs : ndarray Z; MRs : ndarray C }.

Definition __init__ (Rs : ndarray Z) (MRs : ndarray C) : result t :=
  Ok {| Rs := Rs; MRs := MRs |}.

(** [map_nd IZR] is numpy's promotion of the integer displacements to floats
    in [matmul(ks, Rs.T)]. *)
Definition r2k (self : t) (ks : ndarray R) : result (ndarray C) :=
  RsT <- T (Rs self) ;;
  kR <- matmul ks (map_nd IZR RsT) ;;
  let phase := map_nd Cexp (map_nd (fun x => Cmult (Cmult two_j (RtoC PI)) (RtoC x)) kR) in
  nR <- len (Rs self) ;;
  MRs_flat <- reshape_m1 (MRs self) nR ;;
  Mks_flat <- matmul phase MRs_flat ;;
  nk <- len ks ;;
  reshape Mks_flat (nk :: tl (shape (MRs self))).

End AOMatrixR.

Module AOMatrixK.

Record t : Type := { ks : ndarray R; MKs : ndarray C }.

Definition __init__ (ks : ndarray R) (MKs : ndarray C) : result t :=
  Ok {| ks := ks; MKs := MKs |}.

(** [weights] is [None] or a sequence of floats.  [map_nd RtoC] is numpy's
    promotion of the real weights to complex numbers in the product with the
    complex [MKs_flat]. *)
Definition k2r (self : t) (Rs : ndarray Z) (weights : option (list R)) : result (ndarray C) :=
  weights <- match weights with
             | None => nk <- len (ks self) ;;
                       Ok (of_list (map (fun one => (one / INR nk)%R) (repeat 1%R nk)))
             | Some w => Ok (of_list w)
             end ;;
  ksT <- T (ks self) ;;
  Rk <- matmul (map_nd IZR Rs) ksT ;;
  let phase := map_nd Cexp (map_nd (fun x => Cmult (Cmult neg_two_j (RtoC PI)) (RtoC x)) Rk) in
  nk <- len (ks self) ;;
  MKs_flat <- reshape_m1 (MKs self) nk ;;
  wcol <- column weights ;;
  scaled <- multiply MKs_flat (map_nd RtoC wcol) ;;
  MRs_flat <- matmul phase scaled ;;
  nR <- len Rs ;;
  reshape MRs_flat (nR :: tl (shape (MKs self))).

End AOMatrixK.

(* ------------------------------------------------------------------ *)
(** ** The libraries [hamiltonian.py] calls *)

(** The two scipy solvers, each in its two call forms.  They are not part of
    the repository: a solver is any function of the BLAS thread limit in force
    when it is called and of its arguments.  [K] is the type of the keyword
    arguments handed through to [eigsh]. *)
Record scipy (K : Type) : Type :=
  { (** [eigh(H, S)] *)
    eigh : Z -> ndarray C -> ndarray C -> result (list R * ndarray C);
    (** [eigh(H, S, eigvals_only=True)] *)
    eigh_eigvals_only : Z -> ndarray C -> ndarray C -> result (list R);
    (** [eigsh(H, M=S, **kwargs)] *)
    eigsh : Z -> K -> ndarray C -> ndarray C -> result (list R * ndarray C);
    (** [eigsh(H, M=S, return_eigenvectors=False, **kwargs)] *)
    eigsh_no_vectors : Z -> K -> ndarray C -> ndarray C -> result (list R) }.

(** [with threadpoolctl.threadpool_limits(limits=n, user_api='blas'): body]:
    the body runs with the BLAS thread limit [n]; the limit that was in force
    before comes back when the block is left. *)
Definition threadpool_limits {A} (limits : Z) (body : Z -> A) (blas : Z) : A * Z :=
  (body limits, blas).

(** [tqdm(it, leave=False)] yields the items of [it] and draws a progress bar. *)
Definition tqdm {A} (it : list A) : list A := it.

(** [Parallel(n_jobs)(delayed(f)(x) for x in tasks)].  The workers finish the
    tasks in an order joblib does not control: first the positions [sched]
    names, then the tasks it left out, in input order (a position named twice
    counts once, one past the end not at all).  The call raises what the first
    task to fail raised; otherwise it returns the results by task position. *)
Definition completed {A B} (f : A -> result B) (tasks : list A) (sched : list nat)
  : list (nat * result B) :=
  flat_map (fun i => match nth_error tasks i with
                     | Some x => [(i, f x)]
                     | None => []
                     end) (sched ++ seq 0 (length tasks)).

Definition first_failure {B} (done : list (nat * result B)) : option exn :=
  match find (fun p => match snd p with Raise _ => true | Ok _ => false end) done with
  | Some (_, Raise e) => Some e
  | _ => None
  end.

Definition gather {B} (done : list (nat * result B)) (n : nat) : result (list B) :=
  mapM (fun i => match find (fun p => fst p =? i) done with
                 | Some (_, r) => r
                 | None => Raise Unmodelled      (* every task is in [done] *)
                 end) (seq 0 n).

Definition Parallel {A B} (n_jobs : Z) (sched : list nat) (f : A -> result B)
  (tasks : list A) : result (list B) :=
  if (n_jobs =? 0)%Z then Raise ValueError
  else
    let done := completed f tasks sched in
    match first_failure done with
    | Some e => Raise e
    | None => gather done (length tasks)
    end.

(* ------------------------------------------------------------------ *)
(** ** [hamiltonian.py] *)

Module HamiltonianObj.

(** The attributes the methods below read.  [mats] and [Rijk_list] are set by
    the base class [AOMatrixObj], which loads them from files. *)
Record t : Type := { Rijk_list : ndarray Z; mats : ndarray C; SR : ndarray C }.

Definition HR (self : t) : ndarray C := mats self.

Definition _r2k (ks : ndarray R) (Rijk_list : ndarray Z) (mats : ndarray C)
  : result (ndarray C) :=
  RsT <- T Rijk_list ;;
  kR <- matmul ks (map_nd IZR RsT) ;;
  let phase := map_nd Cexp (map_nd (fun x => Cmult (Cmult two_j (RtoC PI)) (RtoC x)) kR) in
  nR <- len Rijk_list ;;
  MRs_flat <- reshape_m1 mats nR ;;
  Mks_flat <- matmul phase MRs_flat ;;
  nk <- len ks ;;
  reshape Mks_flat (nk :: tl (shape mats)).

Definition Sk_and_Hk (self : t) (k : ndarray R) : result (ndarray C * ndarray C) :=
  '(ks, squeeze) <- (if ndim k =? 1
                     then ks <- newaxis0 k ;; Ok (ks, true)
                     else Ok (k, false)) ;;
  Sk <- _r2k ks (Rijk_list self) (SR self) ;;
  Hk <- _r2k ks (Rijk_list self) (HR self) ;;
  if squeeze : bool
  then Sk0 <- item Sk 0 ;; Hk0 <- item Hk 0 ;; Ok (Sk0, Hk0)
  else Ok (Sk, Hk).

(** What [process_k] returns for one point, and what [diag] returns for the
    batch: eigenvalues alone when [bands_only], else eigenvalues and
    eigenvectors. *)
Definition point_result (bands_only : bool) : Type :=
  if bands_only then list R else (list R * ndarray C)%type.

Definition batch_result (bands_only : bool) : Type :=
  if bands_only then ndarray R else (ndarray R * ndarray C)%type.

Section Diag.

Context {K : Type} (sp : scipy K).

(** The closure [process_k] of [diag]; [blas] is the BLAS thread limit it
    runs under. *)
Definition process_k (self : t) (sparse_calc bands_only : bool) (kwargs : K)
  (blas : Z) (k : ndarray R) : result (point_result bands_only) :=
  k1 <- newaxis0 k ;;
  SkB <- _r2k k1 (Rijk_list self) (SR self) ;;
  Sk <- item SkB 0 ;;
  k1 <- newaxis0 k ;;
  HkB <- _r2k k1 (Rijk_list self) (HR self) ;;
  Hk <- item HkB 0 ;;
  if sparse_calc
  then
    match bands_only as b return result (point_result b) with
    | true =>
        vals <- eigsh_no_vectors sp blas kwargs Hk Sk ;;
        Ok (sort vals)
    | false =>
        '(vals, vecs) <- eigsh sp blas kwargs Hk Sk ;;
        let idx := argsort vals in
        vals_idx <- take vals idx ;;
        vecs_idx <- take_cols vecs idx ;;
        Ok (vals_idx, vecs_idx)
    end
  else
    match bands_only as b return result (point_result b) with
    | true =>
        vals <- eigh_eigvals_only sp blas Hk Sk ;;
        Ok vals
    | false =>
        '(vals, vecs) <- eigh sp blas Hk Sk ;;
        Ok (vals, vecs)
    end.

(** The thread limit [diag] puts in force: the argument, or else the
    environment's [OPENBLAS_NUM_THREADS], or else 1. *)
Definition resolve_thread_num (env : Py.environ) (thread_num : option Z) : result Z :=
  match thread_num with
  | None => Py.int (Py.get env "OPENBLAS_NUM_THREADS" "1")
  | Some n => Ok n
  end.

(** [diag].  [env] is the process environment and [blas0] the BLAS thread
    limit when the call starts; [sched] is the order in which the workers of a
    parallel run finish.  The second component of the result is the BLAS
    thread limit when the call ends.  The workers of a parallel run are taken
    to run under the limit of the enclosing [threadpool_limits] block, as the
    sequential loop does. *)
Definition diag (env : Py.environ) (blas0 : Z) (sched : list nat)
  (self : t) (ks : ndarray R) (k_process_num : Z) (thread_num : option Z)
  (sparse_calc bands_only : bool) (kwargs : K)
  : result (batch_result bands_only) * Z :=
  match resolve_thread_num env thread_num with
  | Raise e => (Raise e, blas0)
  | Ok thread_num =>
      let '(results, blas1) :=
        threadpool_limits thread_num (fun blas =>
          rows <- iter ks ;;
          if (k_process_num =? 1)%Z
          then mapM (process_k self sparse_calc bands_only kwargs blas) (tqdm rows)
          else Parallel k_process_num sched
                 (process_k self sparse_calc bands_only kwargs blas) (tqdm rows)) blas0 in
      (results <- results ;;
       match bands_only as b
         return list (point_result b) -> result (batch_result b) with
       | true => fun results => stack (map of_list results) 1
       | false => fun results =>
           eigvals <- stack (map (fun res => of_list (fst res)) results) 1 ;;
           eigvecs <- stack (map (fun res => snd res) results) 2 ;;
           Ok (eigvals, eigvecs)
       end results,
       blas1)
  end.

End Diag.

End HamiltonianObj.

(* ================================================================== *)
(** * The vocabulary of the statements, and the inputs of the examples *)

Unset Implicit Arguments.

(** ** Phases and Bloch sums *)

(** The unit complex number of angle [2*pi*x]. *)
Definition cis2pi (x : R) : C := (cos (2 * PI * x), sin (2 * PI * x))%R.

(** [points[k] . displacements[r]] and the phase [exp(i 2 pi points[k] . displacements[r])]. *)
Definition dot3 (ks : ndarray R) (Rs : ndarray Z) (k r : nat) : R :=
  ssum (map (fun c => (at2 ks k c * IZR (at2 Rs r c))%R) (seq 0 3)).

Definition Phi (ks : ndarray R) (Rs : ndarray Z) (k r : nat) : C :=
  cis2pi (dot3 ks Rs k r).

(** The Bloch sum at point [k], element [j] of the flattened matrix. *)
Definition bloch_sum (ks : ndarray R) (Rs : ndarray Z) (MRs : ndarray C)
  (NR M : nat) (k j : nat) : C :=
  ssum (map (fun r => Cmult (Phi ks Rs k r) (flat MRs (r * M + j))) (seq 0 NR)).

(** [displacements[r] . points[k]] and the phase [exp(-i 2 pi displacements[r] . points[k])]. *)
Definition dot3_inv (Rs : ndarray Z) (ks : ndarray R) (r k : nat) : R :=
  ssum (map (fun c => (IZR (at2 Rs r c) * at2 ks k c)%R) (seq 0 3)).

Definition PhiInv (Rs : ndarray Z) (ks : ndarray R) (r k : nat) : C :=
  cis2pi (- dot3_inv Rs ks r k).

(** [np.ones(n) / n]. *)
Definition uniform_weights (n : nat) : list R :=
  map (fun one => (one / INR n)%R) (repeat 1%R n).

(** The element [(r, j)] of the flattened inverse transform. *)
Definition inverse_sum (Rs : ndarray Z) (ks : ndarray R) (MKs : ndarray C) (w : list R)
  (Nk M : nat) (r j : nat) : C :=
  ssum (map (fun k => Cmult (PhiInv Rs ks r k)
                        (Cmult (flat MKs (k * M + j)) (RtoC (nth k w 0%R))))
            (seq 0 Nk)).

(** ** Hypotheses on operators and point sets *)

(** The hypothesis of the round trip: under the uniform weights, the rows of
    the inverse phase matrix are a left inverse of the forward phase matrix. *)
Definition left_inverse (ks : ndarray R) (Rs : ndarray Z) (Nk NR : nat) : Prop :=
  forall r r', r < NR -> r' < NR ->
    ssum (map (fun k => Cmult (PhiInv Rs ks r k)
                          (Cmult (RtoC (1 / INR Nk)) (Phi ks Rs k r')))
              (seq 0 Nk))
    = if r =? r' then C1 else C0.

(** The displacements are a set: no vector twice. *)
Definition distinct_displacements (Rs : ndarray Z) (NR : nat) : Prop :=
  forall r r', r < NR -> r' < NR ->
    (forall c, c < 3 -> at2 Rs r c = at2 Rs r' c) -> r = r'.

(** [M(R) = M(-R)^H]: with every displacement its opposite is in the set, and
    carries the conjugate transpose. *)
Definition lattice_hermitian (Rs : ndarray Z) (MRs : ndarray C) (NR Nb : nat) : Prop :=
  forall r, r < NR ->
    exists r', r' < NR
      /\ (forall c, c < 3 -> at2 Rs r' c = (- at2 Rs r c)%Z)
      /\ (forall a b, a < Nb -> b < Nb -> at3 MRs r' a b = Cconj (at3 MRs r b a)).

(** ** The per-point unit and the solvers' contracts *)

(** The instantaneous pair [(S_k, H_k)] that [process_k] builds, by the
    steps of [process_k]. *)
Definition instantaneous (self : HamiltonianObj.t) (k : ndarray R)
  : result (ndarray C * ndarray C) :=
  k1 <- newaxis0 k ;;
  SkB <- HamiltonianObj._r2k k1 (HamiltonianObj.Rijk_list self) (HamiltonianObj.SR self) ;;
  Sk <- item SkB 0 ;;
  k1 <- newaxis0 k ;;
  HkB <- HamiltonianObj._r2k k1 (HamiltonianObj.Rijk_list self) (HamiltonianObj.HR self) ;;
  Hk <- item HkB 0 ;;
  Ok (Sk, Hk).




(** ** The batch *)

(** The reorganisation of the per-point results into arrays. *)
Definition assemble (bands_only : bool)
  : list (HamiltonianObj.point_result bands_only)
    -> result (HamiltonianObj.batch_result bands_only) :=
  match bands_only as b
    return list (HamiltonianObj.point_result b) -> result (HamiltonianObj.batch_result b) with
  | true => fun results => stack (map of_list results) 1
  | false => fun results =>
      eigvals <- stack (map (fun res => of_list (fst res)) results) 1 ;;
      eigvecs <- stack (map (fun res => snd res) results) 2 ;;
      Ok (eigvals, eigvecs)
  end.

(** The eigenvalues of a per-point result and of a batch result. *)
Definition point_vals (bands_only : bool)
  : HamiltonianObj.point_result bands_only -> list R :=
  match bands_only as b return HamiltonianObj.point_result b -> list R with
  | true => fun vals => vals
  | false => fun res => fst res
  end.

Definition batch_vals (bands_only : bool)
  : HamiltonianObj.batch_result bands_only -> ndarray R :=
  match bands_only as b return HamiltonianObj.batch_result b -> ndarray R with
  | true => fun eigvals => eigvals
  | false => fun res => fst res
  end.

(** The eigenvectors of a per-point result and of a batch result, when there
    are any. *)
Definition point_vecs (bands_only : bool)
  : HamiltonianObj.point_result bands_only -> option (ndarray C) :=
  match bands_only as b return HamiltonianObj.point_result b -> option (ndarray C) with
  | true => fun _ => None
  | false => fun res => Some (snd res)
  end.

Definition batch_vecs (bands_only : bool)
  : HamiltonianObj.batch_result bands_only -> option (ndarray C) :=
  match bands_only as b return HamiltonianObj.batch_result b -> option (ndarray C) with
  | true => fun _ => None
  | false => fun res => Some (snd res)
  end.

(** ** Sorting by key *)

Definition key_le (p q : R * nat) : Prop := (fst p <= fst q)%R.

(** The keyed positions [argsort] orders. *)
Definition keyed (v : list R) : list (R * nat) :=
  fold_right insert_key [] (combine v (seq 0 (length v))).

(** ** Inputs of the examples *)

(** A one-orbital chain with displacements -1, 0, 1 along the first axis,
    hopping -1 and on-site energy 0, and the single point [k = 0]. *)
Definition chain_Rs : ndarray Z :=
  mk_nd [3; 3] [(-1); 0; 0;  0; 0; 0;  1; 0; 0]%Z.
Definition chain_HR : ndarray C :=
  mk_nd [3; 1; 1] [RtoC (-1); RtoC 0; RtoC (-1)].
Definition chain_SR : ndarray C :=
  mk_nd [3; 1; 1] [RtoC 0; RtoC 1; RtoC 0].
Definition gamma_point : ndarray R := mk_nd [1; 3] [0; 0; 0]%R.

(** An operator with no displacement at all. *)
Definition empty_Rs : ndarray Z := mk_nd [0; 3] [].
Definition empty_MRs : ndarray C := mk_nd [0; 1; 1] [].

(** A reciprocal operator with no point at all. *)
Definition empty_ks : ndarray R := mk_nd [0; 3] [].
Definition empty_MKs : ndarray C := mk_nd [0; 1; 1] [].

(** One point, [k = 0], carrying the 1 x 1 matrix [-2]. *)
Definition gamma_MKs : ndarray C := mk_nd [1; 1; 1] [RtoC (-2)].

(** Points 0 and 1/2 along the first axis, displacements 0 and 1: the phases
    are 1 and -1 and determine the displacement. *)
Definition two_ks : ndarray R := mk_nd [2; 3] [0; 0; 0;  (1 / 2); 0; 0]%R.
Definition two_Rs : ndarray Z := mk_nd [2; 3] [0; 0; 0;  1; 0; 0]%Z.
Definition two_MRs : ndarray C := mk_nd [2; 1; 1] [RtoC 3; RtoC (-1)].

(** The chain as a Hamiltonian with identity overlap. *)
Definition chain : HamiltonianObj.t :=
  {| HamiltonianObj.Rijk_list := chain_Rs;
     HamiltonianObj.mats := chain_HR;
     HamiltonianObj.SR := chain_SR |}.

(** The points 0 and 1/2 of the first axis, each as a 1-d array. *)
Definition gamma_k : ndarray R := mk_nd [3] [0; 0; 0]%R.
Definition half_k : ndarray R := mk_nd [3] [(1 / 2); 0; 0]%R.

(** Two matrices for three displacements, neither of them square. *)
Definition misshapen_MRs : ndarray C :=
  mk_nd [2; 1; 2] [RtoC 1; RtoC 2; RtoC 3; RtoC 4].

(** A solver for one orbital with unit overlap and real Hamiltonian. *)
Definition unit_eig (H S : ndarray C) : result (list R * ndarray C) :=
  match shape H, data H, data S with
  | [1; 1], [h], [s] =>
      if Req_dec_T (snd h) 0
      then if Req_dec_T (fst s) 1
           then if Req_dec_T (snd s) 0
                then Ok ([fst h], mk_nd [1; 1] [C1])
                else Raise LinAlgError
           else Raise LinAlgError
      else Raise LinAlgError
  | _, _, _ => Raise LinAlgError
  end.

Definition unit_solver : scipy unit :=
  {| eigh := fun _ H S => unit_eig H S;
     eigh_eigvals_only := fun _ H S => '(w, _) <- unit_eig H S ;; Ok w;
     eigsh := fun _ _ H S => unit_eig H S;
     eigsh_no_vectors := fun _ _ H S => '(w, _) <- unit_eig H S ;; Ok w |}.

(** An environment that does not set [OPENBLAS_NUM_THREADS]. *)
Definition no_env : Py.environ := fun _ => None.



(** ** Further hypotheses and inputs *)

(** The hypothesis of the round trip from the reciprocal side: the weighted
    inverse phases are a right inverse of the forward phase matrix. *)
Definition right_inverse (ks : ndarray R) (Rs : ndarray Z) (w : list R) (Nk NR : nat) : Prop :=
  forall k k', k < Nk -> k' < Nk ->
    ssum (map (fun r => Cmult (Phi ks Rs k r)
                          (Cmult (PhiInv Rs ks r k') (RtoC (nth k' w 0%R))))
              (seq 0 NR))
    = if k =? k' then C1 else C0.

(** The point (1, -2, 0), one lattice period away from the point 0. *)
Definition shifted_point : ndarray R := mk_nd [1; 3] [1; -2; 0]%R.

(** A solver that does not converge. *)
Definition no_convergence : scipy unit :=
  {| eigh := fun _ _ _ => Raise LinAlgError;
     eigh_eigvals_only := fun _ _ _ => Raise LinAlgError;
     eigsh := fun _ _ _ _ => Raise ArpackError;
     eigsh_no_vectors := fun _ _ _ _ => Raise ArpackError |}.

(* ================================================================== *)
(** * Properties *)

(** ** Complex arithmetic *)

Section CxFacts.

Local Open Scope R_scope.

Lemma C_eq (a b : C) : fst a = fst b -> snd a = snd b -> a = b.
Proof. destruct a, b; simpl; intros; subst; reflexivity. Qed.

Ltac cx := intros; apply C_eq; simpl; ring.

Lemma Cplus_comm (a b : C) : Cplus a b = Cplus b a.
Proof. cx. Qed.

Lemma Cplus_assoc (a b c : C) : Cplus a (Cplus b c) = Cplus (Cplus a b) c.
Proof. cx. Qed.

Lemma Cplus_0_l (a : C) : Cplus C0 a = a.
Proof. cx. Qed.

Lemma Cplus_0_r (a : C) : Cplus a C0 = a.
Proof. cx. Qed.

Lemma Cmult_comm (a b : C) : Cmult a b = Cmult b a.
Proof. cx. Qed.

Lemma Cmult_assoc (a b c : C) : Cmult a (Cmult b c) = Cmult (Cmult a b) c.
Proof. cx. Qed.

Lemma Cmult_0_l (a : C) : Cmult C0 a = C0.
Proof. cx. Qed.

Lemma Cmult_0_r (a : C) : Cmult a C0 = C0.
Proof. cx. Qed.

Lemma Cmult_1_l (a : C) : Cmult C1 a = a.
Proof. cx. Qed.

Lemma Cmult_plus_distr_l (a b c : C) : Cmult a (Cplus b c) = Cplus (Cmult a b) (Cmult a c).
Proof. cx. Qed.

Lemma Cmult_plus_distr_r (a b c : C) : Cmult (Cplus a b) c = Cplus (Cmult a c) (Cmult b c).
Proof. cx. Qed.

Lemma Cconj_plus (a b : C) : Cconj (Cplus a b) = Cplus (Cconj a) (Cconj b).
Proof. cx. Qed.

Lemma Cconj_mult (a b : C) : Cconj (Cmult a b) = Cmult (Cconj a) (Cconj b).
Proof. cx. Qed.

Lemma Cconj_0 : Cconj C0 = C0.
Proof. cx. Qed.

Lemma Cconj_involutive (a : C) : Cconj (Cconj a) = a.
Proof. cx. Qed.

(** [np.exp(2j * np.pi * x)] and [np.exp(-2j * np.pi * x)] at a real [x]. *)
Lemma Cexp_two_j (x : R) :
  Cexp (Cmult (Cmult two_j (RtoC PI)) (RtoC x)) = cis2pi x.
Proof.
  unfold Cexp, cis2pi, two_j, RtoC, Cmult; simpl.
  replace ((0 * PI - 2 * 0) * x - (0 * 0 + 2 * PI) * 0) with 0 by ring.
  replace ((0 * PI - 2 * 0) * 0 + (0 * 0 + 2 * PI) * x) with (2 * PI * x) by ring.
  rewrite exp_0. apply C_eq; simpl; ring.
Qed.

Lemma Cexp_neg_two_j (x : R) :
  Cexp (Cmult (Cmult neg_two_j (RtoC PI)) (RtoC x)) = cis2pi (- x).
Proof.
  unfold Cexp, cis2pi, neg_two_j, RtoC, Cmult; simpl.
  replace ((- 0 * PI - - 2 * 0) * x - (- 0 * 0 + - 2 * PI) * 0) with 0 by ring.
  replace ((- 0 * PI - - 2 * 0) * 0 + (- 0 * 0 + - 2 * PI) * x) with (2 * PI * - x) by ring.
  rewrite exp_0. apply C_eq; simpl; ring.
Qed.

Lemma cis2pi_conj (x : R) : Cconj (cis2pi x) = cis2pi (- x).
Proof.
  unfold cis2pi, Cconj; simpl.
  replace (2 * PI * - x) with (- (2 * PI * x)) by ring.
  rewrite cos_neg, sin_neg. reflexivity.
Qed.

Lemma cis2pi_Cexp (x : R) : cis2pi x = Cexp (0, 2 * PI * x).
Proof.
  unfold cis2pi, Cexp. cbn [fst snd]. rewrite exp_0. apply C_eq; cbn; ring.
Qed.

Lemma cis2pi_0 : cis2pi 0 = C1.
Proof.
  unfold cis2pi, C1, RtoC. rewrite Rmult_0_r, cos_0, sin_0. reflexivity.
Qed.

End CxFacts.

(** ** Lists, tables and sums *)

Section TableFacts.

Context {A : Type}.

Lemma length_flat_rows (p : nat) (f : nat -> nat -> A) :
  forall n s, length (flat_map (fun i => map (f i) (seq 0 p)) (seq s n)) = n * p.
Proof.
  induction n as [|n IH]; intros s; simpl; [reflexivity|].
  rewrite length_app, length_map, length_seq, IH. reflexivity.
Qed.

Lemma length_tab2 (n p : nat) (f : nat -> nat -> A) : length (tab2 n p f) = n * p.
Proof. apply length_flat_rows. Qed.

Lemma nth_flat_rows (p : nat) (f : nat -> nat -> A) (d : A) :
  forall n s i j, i < n -> j < p ->
    nth (i * p + j) (flat_map (fun i => map (f i) (seq 0 p)) (seq s n)) d = f (s + i) j.
Proof.
  induction n as [|n IH]; intros s i j Hi Hj; [lia|].
  simpl. destruct i as [|i].
  - rewrite app_nth1 by (rewrite length_map, length_seq; simpl; lia).
    simpl. rewrite (nth_indep _ d (f s 0)) by (rewrite length_map, length_seq; lia).
    rewrite map_nth, seq_nth by lia. f_equal; lia.
  - rewrite app_nth2 by (rewrite length_map, length_seq; simpl; lia).
    rewrite length_map, length_seq.
    replace (S i * p + j - p) with (i * p + j) by (simpl; lia).
    rewrite IH by lia. f_equal; lia.
Qed.

Lemma nth_tab2 (n p : nat) (f : nat -> nat -> A) (d : A) (i j : nat) :
  i < n -> j < p -> nth (i * p + j) (tab2 n p f) d = f i j.
Proof. intros; unfold tab2; rewrite nth_flat_rows by assumption; reflexivity. Qed.

Lemma tab2_ext (n p : nat) (f g : nat -> nat -> A) :
  (forall i j, i < n -> j < p -> f i j = g i j) -> tab2 n p f = tab2 n p g.
Proof.
  intros E. unfold tab2. rewrite !flat_map_concat_map. f_equal.
  apply map_ext_in. intros i Hi. apply in_seq in Hi.
  apply map_ext_in. intros j Hj. apply in_seq in Hj.
  apply E; lia.
Qed.

Lemma nth_map_in {B : Type} (f : A -> B) (l : list A) (i : nat) (d : B) (d' : A) :
  i < length l -> nth i (map f l) d = f (nth i l d').
Proof.
  intros Hi. rewrite (nth_indep _ d (f d')) by (rewrite length_map; assumption).
  apply map_nth.
Qed.

End TableFacts.

(** ** The numpy subset and [int] on small inputs *)

Section Checks.

Local Open Scope Z_scope.

Let m22 : ndarray Z := mk_nd [2; 2]%nat [1; 2; 3; 4].
Let m23 : ndarray Z := mk_nd [2; 3]%nat [1; 2; 3; 4; 5; 6].

Example matmul_2x2_2x3 :
  matmul m22 m23 = Ok (mk_nd [2; 3]%nat [9; 12; 15; 19; 26; 33]).
Proof. reflexivity. Qed.

Example matmul_mismatch : matmul m23 m22 = Raise ValueError.
Proof. reflexivity. Qed.

Example T_2x3 : T m23 = Ok (mk_nd [3; 2]%nat [1; 4; 2; 5; 3; 6]).
Proof. reflexivity. Qed.

Example reshape_m1_6 :
  reshape_m1 (mk_nd [3; 1; 2]%nat [1; 2; 3; 4; 5; 6]) 3
  = Ok (mk_nd [3; 2]%nat [1; 2; 3; 4; 5; 6])
  /\ reshape_m1 m23 4 = Raise ValueError
  /\ reshape_m1 (mk_nd [0; 2; 2]%nat (@nil Z)) 0 = Raise ValueError.
Proof. repeat split; reflexivity. Qed.

Example item_row : item m23 1 = Ok (mk_nd [3]%nat [4; 5; 6]) /\ item m23 2 = Raise IndexError.
Proof. split; reflexivity. Qed.

Example multiply_column :
  (wcol <- column (of_list [10; 100]) ;; multiply m23 wcol)
  = Ok (mk_nd [2; 3]%nat [10; 20; 30; 400; 500; 600]).
Proof. reflexivity. Qed.

Example multiply_broadcast_one :
  (wcol <- column (of_list [10]) ;; multiply m23 wcol)
  = Ok (mk_nd [2; 3]%nat [10; 20; 30; 40; 50; 60]).
Proof. reflexivity. Qed.

Example stack_last_axis :
  stack [of_list [1; 2; 3]; of_list [4; 5; 6]] 1
  = Ok (mk_nd [3; 2]%nat [1; 4; 2; 5; 3; 6]).
Proof. reflexivity. Qed.

Example stack_matrices :
  stack [m22; mk_nd [2; 2]%nat [5; 6; 7; 8]] 2
  = Ok (mk_nd [2; 2; 2]%nat [1; 5; 2; 6; 3; 7; 4; 8]).
Proof. reflexivity. Qed.

Example stack_nothing : stack (@nil (ndarray Z)) 1 = Raise ValueError.
Proof. reflexivity. Qed.

Example stack_ragged : stack [of_list [1; 2]; of_list [3]] 1 = Raise ValueError.
Proof. reflexivity. Qed.

Example take_cols_swap :
  take_cols m23 [2; 0]%nat = Ok (mk_nd [2; 2]%nat [3; 1; 6; 4]).
Proof. reflexivity. Qed.

Example int_strings :
  Py.int "1" = Ok 1 /\ Py.int " 16 " = Ok 16 /\ Py.int "-4" = Ok (-4)
  /\ Py.int "1_000" = Ok 1000 /\ Py.int "" = Raise ValueError
  /\ Py.int "four" = Raise ValueError /\ Py.int "1__0" = Raise ValueError
  /\ Py.int "8 threads" = Raise ValueError.
Proof. repeat split; reflexivity. Qed.

Example pool_any_order :
  Parallel 4 [2; 0; 1]%nat (fun x => Ok (x * x)) [1; 2; 3] = Ok [1; 4; 9]
  /\ Parallel 4 [1]%nat (fun x => if x =? 2 then Raise LinAlgError else Ok x) [1; 2; 3]
     = Raise LinAlgError
  /\ Parallel 0 []%nat (fun x => Ok x) [1; 2; 3] = Raise ValueError.
Proof. repeat split; reflexivity. Qed.

End Checks.

Section SortChecks.

Local Open Scope R_scope.

Ltac decide_Rleb :=
  repeat (cbn [fold_right Np.insert insert_key fst snd]; unfold Rleb;
          match goal with
          | |- context [Rle_dec ?x ?y] => destruct (Rle_dec x y); try lra
          end).

Example sort_four : Np.sort [2; -1; 2; 0] = [-1; 0; 2; 2].
Proof. unfold Np.sort. decide_Rleb. reflexivity. Qed.

Example argsort_three : argsort [3; 1; 2] = [1; 2; 0]%nat.
Proof.
  unfold argsort. cbn [length seq combine]. decide_Rleb. reflexivity.
Qed.

End SortChecks.

(** ** The forward Bloch sum *)

Section ArrayFacts.

Context {A : Type} `{Scalar A}.

Lemma prod_cons (n : nat) (l : list nat) : prod (n :: l) = n * prod l.
Proof. reflexivity. Qed.

Lemma len_cons (a : ndarray A) (n : nat) (rest : list nat) :
  shape a = n :: rest -> len a = Ok n.
Proof. unfold len; intros ->; reflexivity. Qed.

Lemma T_2d (a : ndarray A) (n m : nat) :
  shape a = [n; m] ->
  T a = Ok (mk_nd [m; n] (tab2 m n (fun j i => flat a (i * m + j)))).
Proof. unfold T; intros ->; reflexivity. Qed.

Lemma matmul_2d (a b : ndarray A) (n m p : nat) :
  shape a = [n; m] -> shape b = [m; p] ->
  matmul a b
  = Ok (mk_nd [n; p]
          (tab2 n p (fun i j =>
             ssum (map (fun l => smul (flat a (i * m + l)) (flat b (l * p + j)))
                       (seq 0 m))))).
Proof. unfold matmul; intros -> ->; rewrite Nat.eqb_refl; reflexivity. Qed.

Lemma reshape_m1_ok (a : ndarray A) (n q : nat) :
  0 < n -> size a = n * q ->
  reshape_m1 a n = Ok (mk_nd [n; q] (data a)).
Proof.
  intros Hn Hs. unfold reshape_m1. rewrite Hs.
  replace (n =? 0) with false by (symmetry; apply Nat.eqb_neq; lia).
  rewrite (Nat.mul_comm n q), Nat.Div0.mod_mul, Nat.div_mul by lia.
  reflexivity.
Qed.

Lemma reshape_m1_zero (a : ndarray A) : reshape_m1 a 0 = Raise ValueError.
Proof. reflexivity. Qed.

Lemma reshape_ok (a : ndarray A) (dims : list nat) :
  prod dims = size a -> reshape a dims = Ok (mk_nd dims (data a)).
Proof. unfold reshape; intros ->; rewrite Nat.eqb_refl; reflexivity. Qed.

End ArrayFacts.

Section ForwardFacts.

Lemma r2k_same (self : AOMatrixR.t) (ks : ndarray R) :
  AOMatrixR.r2k self ks
  = HamiltonianObj._r2k ks (AOMatrixR.Rs self) (AOMatrixR.MRs self).
Proof. reflexivity. Qed.

(** The entries of [matmul(ks, Rs.T)]. *)
Lemma dot_entry (ks : ndarray R) (Rs : ndarray Z) (Nk NR k r : nat) :
  shape ks = [Nk; 3] -> shape Rs = [NR; 3] -> k < Nk -> r < NR ->
  ssum (map (fun l => smul (flat ks (k * 3 + l))
                        (flat (map_nd IZR (mk_nd [3; NR]
                                 (tab2 3 NR (fun j i => flat Rs (i * 3 + j))))) (l * NR + r)))
            (seq 0 3))
  = dot3 ks Rs k r.
Proof.
  intros Hks HRs Hk Hr. unfold dot3. apply f_equal, map_ext_in.
  intros c Hc. apply in_seq in Hc.
  unfold at2, flat at 2 3 4. rewrite Hks, HRs. simpl.
  rewrite (nth_map_in IZR _ _ _ 0%Z) by (rewrite length_tab2; nia).
  rewrite nth_tab2 by lia. reflexivity.
Qed.

(** The phase array of the forward transform. *)
Lemma phase_fwd_entry (ks : ndarray R) (Rs : ndarray Z) (Nk NR k r : nat) :
  shape ks = [Nk; 3] -> shape Rs = [NR; 3] -> k < Nk -> r < NR ->
  flat (map_nd Cexp
          (map_nd (fun x => Cmult (Cmult two_j (RtoC PI)) (RtoC x))
             (mk_nd [Nk; NR]
                (tab2 Nk NR (fun i j =>
                   ssum (map (fun l => smul (flat ks (i * 3 + l))
                                (flat (map_nd IZR (mk_nd [3; NR]
                                   (tab2 3 NR (fun j i => flat Rs (i * 3 + j)))))
                                   (l * NR + j)))
                           (seq 0 3)))))))
       (k * NR + r)
  = Phi ks Rs k r.
Proof.
  intros Hks HRs Hk Hr. unfold flat at 1. cbn [map_nd data shape].
  rewrite map_map.
  rewrite (nth_map_in _ _ _ _ 0%R) by (rewrite length_tab2; nia).
  rewrite nth_tab2 by lia.
  rewrite (dot_entry _ _ _ _ _ _ Hks HRs Hk Hr). apply Cexp_two_j.
Qed.

Lemma _r2k_ok (ks : ndarray R) (Rs : ndarray Z) (MRs : ndarray C)
  (Nk NR : nat) (rest : list nat) :
  0 < NR -> shape ks = [Nk; 3] -> shape Rs = [NR; 3] -> shape MRs = NR :: rest ->
  HamiltonianObj._r2k ks Rs MRs
  = Ok (mk_nd (Nk :: rest)
          (tab2 Nk (prod rest) (fun k j => bloch_sum ks Rs MRs NR (prod rest) k j))).
Proof.
  intros HNR Hks HRs HM.
  unfold HamiltonianObj._r2k.
  rewrite (T_2d _ _ _ HRs). cbn [bind].
  rewrite (matmul_2d ks (map_nd IZR _) Nk 3 NR) by (assumption || reflexivity).
  cbn [bind]. rewrite (len_cons _ _ _ HRs). cbn [bind].
  rewrite (reshape_m1_ok MRs NR (prod rest)) by (assumption || (unfold size; rewrite HM; reflexivity)).
  cbn [bind].
  rewrite (matmul_2d (map_nd Cexp _) _ Nk NR (prod rest)) by reflexivity.
  cbn [bind]. rewrite (len_cons _ _ _ Hks). cbn [bind].
  rewrite HM. cbn [tl].
  rewrite reshape_ok by (unfold size; cbn [shape]; rewrite !prod_cons; cbn [prod fold_right]; lia).
  cbn [data]. f_equal. f_equal.
  apply tab2_ext. intros k j Hk Hj. unfold bloch_sum.
  apply f_equal, map_ext_in. intros r Hr. apply in_seq in Hr.
  rewrite phase_fwd_entry by (assumption || lia). reflexivity.
Qed.

End ForwardFacts.

(** ** C1: what the forward transform returns *)

Section C1.

Lemma _r2k_entries (Nk NR Nb : nat) (ks : ndarray R) (Rs : ndarray Z) (MRs : ndarray C) :
  0 < NR ->
  shape ks = [Nk; 3] -> shape Rs = [NR; 3] -> shape MRs = [NR; Nb; Nb] ->
  exists Mk,
    HamiltonianObj._r2k ks Rs MRs = Ok Mk
    /\ shape Mk = [Nk; Nb; Nb]
    /\ wf Mk
    /\ (forall k j, k < Nk -> j < Nb * Nb ->
          flat Mk (k * (Nb * Nb) + j)
          = ssum (map (fun r => Cmult (Phi ks Rs k r) (flat MRs (r * (Nb * Nb) + j)))
                      (seq 0 NR)))
    /\ (forall k a b, k < Nk -> a < Nb -> b < Nb ->
          at3 Mk k a b
          = ssum (map (fun r => Cmult (Phi ks Rs k r) (at3 MRs r a b)) (seq 0 NR))).
Proof.
  intros HNR Hks HRs HM.
  pose proof (_r2k_ok ks Rs MRs Nk NR _ HNR Hks HRs HM) as E.
  assert (HP : prod [Nb; Nb] = Nb * Nb) by (cbn; lia).
  rewrite HP in E.
  eexists. split; [exact E|].
  split; [reflexivity|]. split.
  { unfold wf, size. cbn [data shape]. rewrite length_tab2. cbn. lia. }
  assert (F : forall k j, k < Nk -> j < Nb * Nb ->
            flat (mk_nd [Nk; Nb; Nb]
                    (tab2 Nk (Nb * Nb) (fun k j => bloch_sum ks Rs MRs NR (Nb * Nb) k j)))
                 (k * (Nb * Nb) + j)
            = bloch_sum ks Rs MRs NR (Nb * Nb) k j).
  { intros k j Hk Hj. unfold flat. cbn [data]. apply nth_tab2; assumption. }
  split.
  - intros k j Hk Hj. rewrite F by assumption. reflexivity.
  - intros k a b Hk Ha Hb. unfold at3 at 1. cbn [shape nth].
    replace ((k * Nb + a) * Nb + b) with (k * (Nb * Nb) + (a * Nb + b)) by lia.
    rewrite F by (assumption || nia). unfold bloch_sum.
    apply f_equal, map_ext. intros r. f_equal.
    unfold at3. rewrite HM. cbn [nth]. f_equal. lia.
Qed.

(** With no displacement, [reshape(0, -1)] raises. *)
Lemma _r2k_no_displacements (Nk : nat) (ks : ndarray R) (Rs : ndarray Z) (MRs : ndarray C) :
  shape ks = [Nk; 3] -> shape Rs = [0; 3] ->
  HamiltonianObj._r2k ks Rs MRs = Raise ValueError.
Proof.
  intros Hks HRs. unfold HamiltonianObj._r2k.
  rewrite (T_2d _ _ _ HRs). cbn [bind].
  rewrite (matmul_2d ks (map_nd IZR _) Nk 3 0) by (assumption || reflexivity).
  cbn [bind]. rewrite (len_cons _ _ _ HRs). cbn [bind].
  reflexivity.
Qed.

(** C1, amended: for a non-empty displacement set ([0 < NR]), points of shape
    [(Nk, 3)], displacements of shape [(NR, 3)] and matrices of shape
    [(NR, Nb, Nb)], [AOMatrixR.r2k] and [HamiltonianObj._r2k] both return the
    [(Nk, Nb, Nb)] array that is the phase matrix times the flattened
    matrices: its element [(k, a, b)] is the sum over [r] of
    [Phi[k, r] * MRs[r, a, b]]. *)
Theorem r2k_bloch_sum (Nk NR Nb : nat) (ks : ndarray R) (Rs : ndarray Z) (MRs : ndarray C) :
  0 < NR ->
  shape ks = [Nk; 3] -> shape Rs = [NR; 3] -> shape MRs = [NR; Nb; Nb] ->
  exists Mk,
    AOMatrixR.r2k {| AOMatrixR.Rs := Rs; AOMatrixR.MRs := MRs |} ks = Ok Mk
    /\ HamiltonianObj._r2k ks Rs MRs = Ok Mk
    /\ shape Mk = [Nk; Nb; Nb]
    /\ wf Mk
    /\ (forall k j, k < Nk -> j < Nb * Nb ->
          flat Mk (k * (Nb * Nb) + j)
          = ssum (map (fun r => Cmult (Phi ks Rs k r) (flat MRs (r * (Nb * Nb) + j)))
                      (seq 0 NR)))
    /\ (forall k a b, k < Nk -> a < Nb -> b < Nb ->
          at3 Mk k a b
          = ssum (map (fun r => Cmult (Phi ks Rs k r) (at3 MRs r a b)) (seq 0 NR))).
Proof.
  intros HNR Hks HRs HM.
  destruct (_r2k_entries Nk NR Nb ks Rs MRs HNR Hks HRs HM) as (Mk & E & rest).
  exists Mk. split; [rewrite r2k_same; exact E|]. split; [exact E|]. exact rest.
Qed.

Lemma r2k_bloch_sum_witness :
  exists Mk,
    AOMatrixR.r2k {| AOMatrixR.Rs := chain_Rs; AOMatrixR.MRs := chain_HR |} gamma_point = Ok Mk
    /\ HamiltonianObj._r2k gamma_point chain_Rs chain_HR = Ok Mk
    /\ shape Mk = [1; 1; 1]
    /\ wf Mk
    /\ (forall k j, k < 1 -> j < 1 * 1 ->
          flat Mk (k * (1 * 1) + j)
          = ssum (map (fun r => Cmult (Phi gamma_point chain_Rs k r)
                                  (flat chain_HR (r * (1 * 1) + j)))
                      (seq 0 3)))
    /\ (forall k a b, k < 1 -> a < 1 -> b < 1 ->
          at3 Mk k a b
          = ssum (map (fun r => Cmult (Phi gamma_point chain_Rs k r) (at3 chain_HR r a b))
                      (seq 0 3))).
Proof.
  apply (r2k_bloch_sum 1 3 1 gamma_point chain_Rs chain_HR); [lia | reflexivity ..].
Defined.

Lemma _r2k_no_displacement :
  HamiltonianObj._r2k gamma_point empty_Rs empty_MRs = Raise ValueError.
Proof. apply (_r2k_no_displacements 1); reflexivity. Qed.

(** C1 as stated fails for an empty displacement set: the shapes are as the
    claim asks ([Nk = 1], [NR = 0], [Nb = 1]), and [reshape(0, -1)] raises
    where the claim has the transform return the 1 x 1 x 1 zero array. *)
Lemma r2k_empty_displacements_raises :
  shape gamma_point = [1; 3] /\ shape empty_Rs = [0; 3] /\ shape empty_MRs = [0; 1; 1]
  /\ wf gamma_point /\ wf empty_Rs /\ wf empty_MRs
  /\ AOMatrixR.r2k {| AOMatrixR.Rs := empty_Rs; AOMatrixR.MRs := empty_MRs |} gamma_point
     = Raise ValueError
  /\ HamiltonianObj._r2k gamma_point empty_Rs empty_MRs = Raise ValueError
  /\ ~ (exists Mk,
          AOMatrixR.r2k {| AOMatrixR.Rs := empty_Rs; AOMatrixR.MRs := empty_MRs |} gamma_point
          = Ok Mk).
Proof.
  repeat split; try reflexivity; try exact _r2k_no_displacement.
  rewrite r2k_same. cbn [AOMatrixR.Rs AOMatrixR.MRs]. rewrite _r2k_no_displacement.
  intros [Mk HMk]. discriminate HMk.
Qed.

End C1.

(** ** Finite sums of complex numbers *)

Section SumFacts.

Lemma ssum_nil : ssum (@nil C) = C0.
Proof. reflexivity. Qed.

Lemma ssum_cons (x : C) (l : list C) : ssum (x :: l) = Cplus x (ssum l).
Proof. reflexivity. Qed.

Lemma ssum_perm (l l' : list C) : Permutation l l' -> ssum l = ssum l'.
Proof.
  induction 1 as [|x l l' _ IH|x y l|l l' l'' _ IH1 _ IH2].
  - reflexivity.
  - rewrite !ssum_cons, IH. reflexivity.
  - rewrite !ssum_cons, !Cplus_assoc, (Cplus_comm y x). reflexivity.
  - rewrite IH1. exact IH2.
Qed.

Lemma ssum_conj (l : list C) : Cconj (ssum l) = ssum (map Cconj l).
Proof.
  induction l as [|x l IH]; [apply Cconj_0|].
  cbn [map]. rewrite !ssum_cons, Cconj_plus, IH. reflexivity.
Qed.

Lemma ssum_mult_l (c : C) (l : list C) : Cmult c (ssum l) = ssum (map (Cmult c) l).
Proof.
  induction l as [|x l IH]; [apply Cmult_0_r|].
  cbn [map]. rewrite !ssum_cons, Cmult_plus_distr_l, IH. reflexivity.
Qed.

Lemma ssum_mult_r (c : C) (l : list C) :
  Cmult (ssum l) c = ssum (map (fun x => Cmult x c) l).
Proof.
  induction l as [|x l IH]; [apply Cmult_0_l|].
  cbn [map]. rewrite !ssum_cons, Cmult_plus_distr_r, IH. reflexivity.
Qed.

Lemma ssum_plus {I : Type} (f g : I -> C) (l : list I) :
  ssum (map (fun i => Cplus (f i) (g i)) l) = Cplus (ssum (map f l)) (ssum (map g l)).
Proof.
  induction l as [|x l IH]; [symmetry; apply Cplus_0_l|].
  cbn [map]. rewrite !ssum_cons, IH.
  rewrite <- !Cplus_assoc. f_equal.
  rewrite !Cplus_assoc. rewrite (Cplus_comm (g x)). reflexivity.
Qed.

Lemma ssum_zero {I : Type} (l : list I) : ssum (map (fun _ => C0) l) = C0.
Proof.
  induction l as [|x l IH]; [reflexivity|].
  cbn [map]. rewrite ssum_cons, IH. apply Cplus_0_l.
Qed.

(** Exchange of two finite sums. *)
Lemma ssum_swap {I J : Type} (F : I -> J -> C) (li : list I) (lj : list J) :
  ssum (map (fun i => ssum (map (fun j => F i j) lj)) li)
  = ssum (map (fun j => ssum (map (fun i => F i j) li)) lj).
Proof.
  induction li as [|i li IH].
  - cbn [map]. rewrite ssum_nil. symmetry. apply ssum_zero.
  - cbn [map]. rewrite ssum_cons, IH.
    rewrite <- ssum_plus. apply f_equal, map_ext. intros j. reflexivity.
Qed.

(** A sum against a Kronecker delta picks one term. *)
Lemma ssum_delta (f : nat -> C) (n r : nat) :
  r < n ->
  ssum (map (fun r' => Cmult (if r =? r' then C1 else C0) (f r')) (seq 0 n)) = f r.
Proof.
  intros Hr.
  assert (G : forall m s, ssum (map (fun r' => Cmult (if r =? r' then C1 else C0) (f r'))
                                   (seq s m))
                          = if (s <=? r) && (r <? s + m) then f r else C0).
  { induction m as [|m IH]; intros s.
    - cbn [seq map]. rewrite ssum_nil.
      destruct (s <=? r) eqn:E1; destruct (r <? s + 0) eqn:E2; try reflexivity.
      apply Nat.leb_le in E1. apply Nat.ltb_lt in E2. lia.
    - cbn [seq map]. rewrite ssum_cons, IH.
      destruct (r =? s) eqn:E.
      + apply Nat.eqb_eq in E. subst s.
        replace (S r <=? r) with false by (symmetry; apply Nat.leb_gt; lia).
        replace (r <=? r) with true by (symmetry; apply Nat.leb_le; lia).
        replace (r <? r + S m) with true by (symmetry; apply Nat.ltb_lt; lia).
        cbn [andb]. rewrite Cmult_1_l. apply Cplus_0_r.
      + apply Nat.eqb_neq in E. rewrite Cmult_0_l, Cplus_0_l.
        destruct (S s <=? r) eqn:E1; destruct (s <=? r) eqn:E2;
          destruct (r <? S s + m) eqn:E3; destruct (r <? s + S m) eqn:E4;
          try reflexivity;
          repeat match goal with
                 | H : (_ <=? _) = true |- _ => apply Nat.leb_le in H
                 | H : (_ <=? _) = false |- _ => apply Nat.leb_gt in H
                 | H : (_ <? _) = true |- _ => apply Nat.ltb_lt in H
                 | H : (_ <? _) = false |- _ => apply Nat.ltb_ge in H
                 end; lia. }
  rewrite G.
  replace (0 <=? r) with true by (symmetry; apply Nat.leb_le; lia).
  replace (r <? 0 + n) with true by (symmetry; apply Nat.ltb_lt; lia).
  reflexivity.
Qed.

End SumFacts.

(** ** The inverse Bloch sum *)

Section InverseFacts.

Lemma multiply_col {A : Type} `{Scalar A} (a b : ndarray A) (n m : nat) :
  shape a = [n; m] -> shape b = [n; 1] ->
  multiply a b
  = Ok (mk_nd [n; m] (tab2 n m (fun i j => smul (flat a (i * m + j)) (flat b i)))).
Proof.
  intros Ha Hb. unfold multiply, bdim. rewrite Ha, Hb, Nat.eqb_refl. cbn [bind].
  assert (E : (if m =? 1 then Ok m else if m =? 1 then Ok 1 else if 1 =? 1 then Ok m
               else Raise ValueError) = Ok m) by (destruct (m =? 1); reflexivity).
  rewrite E. cbn [bind]. f_equal. f_equal.
  apply tab2_ext. intros i j Hi Hj.
  destruct (n =? 1) eqn:En; destruct (m =? 1) eqn:Em;
    try apply Nat.eqb_eq in En; try apply Nat.eqb_eq in Em;
    cbn [Nat.eqb]; f_equal; f_equal; lia.
Qed.

Lemma nth_uniform_weights (n k : nat) :
  k < n -> nth k (uniform_weights n) 0%R = (1 / INR n)%R.
Proof.
  intros Hk. unfold uniform_weights.
  rewrite (nth_map_in _ _ _ _ 1%R) by (rewrite repeat_length; assumption).
  rewrite nth_repeat. reflexivity.
Qed.

Lemma length_uniform_weights (n : nat) : length (uniform_weights n) = n.
Proof. unfold uniform_weights. rewrite length_map, repeat_length. reflexivity. Qed.

Lemma k2r_default (self : AOMatrixK.t) (Rs : ndarray Z) (Nk : nat) (rest : list nat) :
  shape (AOMatrixK.ks self) = Nk :: rest ->
  AOMatrixK.k2r self Rs None = AOMatrixK.k2r self Rs (Some (uniform_weights Nk)).
Proof.
  intros Hks. unfold AOMatrixK.k2r. rewrite (len_cons _ _ _ Hks). reflexivity.
Qed.

Lemma dot_inv_entry (Rs : ndarray Z) (ks : ndarray R) (Nk NR k r : nat) :
  shape ks = [Nk; 3] -> shape Rs = [NR; 3] -> k < Nk -> r < NR ->
  ssum (map (fun l => smul (flat (map_nd IZR Rs) (r * 3 + l))
                        (flat (mk_nd [3; Nk] (tab2 3 Nk (fun j i => flat ks (i * 3 + j))))
                              (l * Nk + k)))
            (seq 0 3))
  = dot3_inv Rs ks r k.
Proof.
  intros Hks HRs Hk Hr. unfold dot3_inv. apply f_equal, map_ext_in.
  intros c Hc. apply in_seq in Hc.
  unfold at2. rewrite Hks, HRs. cbn [nth].
  unfold flat at 2. cbn [data]. rewrite nth_tab2 by lia.
  unfold flat at 1. cbn [map_nd data].
  change (@s0 R Scalar_R) with (IZR 0). rewrite map_nth. reflexivity.
Qed.

Lemma phase_inv_entry (Rs : ndarray Z) (ks : ndarray R) (Nk NR k r : nat) :
  shape ks = [Nk; 3] -> shape Rs = [NR; 3] -> k < Nk -> r < NR ->
  flat (map_nd Cexp
          (map_nd (fun x => Cmult (Cmult neg_two_j (RtoC PI)) (RtoC x))
             (mk_nd [NR; Nk]
                (tab2 NR Nk (fun i j =>
                   ssum (map (fun l => smul (flat (map_nd IZR Rs) (i * 3 + l))
                                (flat (mk_nd [3; Nk]
                                         (tab2 3 Nk (fun j i => flat ks (i * 3 + j))))
                                      (l * Nk + j)))
                           (seq 0 3)))))))
       (r * Nk + k)
  = PhiInv Rs ks r k.
Proof.
  intros Hks HRs Hk Hr. unfold flat at 1. cbn [map_nd data shape].
  rewrite map_map.
  rewrite (nth_map_in _ _ _ _ 0%R) by (rewrite length_tab2; nia).
  rewrite nth_tab2 by lia.
  rewrite (dot_inv_entry _ _ _ _ _ _ Hks HRs Hk Hr). apply Cexp_neg_two_j.
Qed.

Lemma k2r_ok (ks : ndarray R) (MKs : ndarray C) (Rs : ndarray Z) (w : list R)
  (Nk NR : nat) (rest : list nat) :
  0 < Nk -> shape ks = [Nk; 3] -> shape Rs = [NR; 3] -> shape MKs = Nk :: rest ->
  length w = Nk ->
  AOMatrixK.k2r {| AOMatrixK.ks := ks; AOMatrixK.MKs := MKs |} Rs (Some w)
  = Ok (mk_nd (NR :: rest)
          (tab2 NR (prod rest) (fun r j => inverse_sum Rs ks MKs w Nk (prod rest) r j))).
Proof.
  intros HNk Hks HRs HM Hw.
  unfold AOMatrixK.k2r. cbn [bind AOMatrixK.ks AOMatrixK.MKs].
  rewrite (T_2d _ _ _ Hks). cbn [bind].
  rewrite (matmul_2d (map_nd IZR Rs) _ NR 3 Nk) by (assumption || reflexivity).
  cbn [bind]. rewrite (len_cons _ _ _ Hks). cbn [bind].
  rewrite (reshape_m1_ok MKs Nk (prod rest))
    by (assumption || (unfold size; rewrite HM; reflexivity)).
  cbn [bind]. unfold column, of_list. cbn [shape data bind]. rewrite Hw.
  rewrite (multiply_col _ (map_nd RtoC _) Nk (prod rest)) by reflexivity.
  cbn [bind].
  rewrite (matmul_2d (map_nd Cexp _) _ NR Nk (prod rest)) by reflexivity.
  cbn [bind]. rewrite (len_cons _ _ _ HRs). cbn [bind].
  rewrite HM. cbn [tl].
  rewrite reshape_ok by (unfold size; cbn [shape]; rewrite !prod_cons; cbn [prod fold_right]; lia).
  cbn [data]. f_equal. f_equal.
  apply tab2_ext. intros r j Hr Hj. unfold inverse_sum.
  apply f_equal, map_ext_in. intros k Hk. apply in_seq in Hk.
  rewrite phase_inv_entry by (assumption || lia).
  cbn [smul Scalar_C]. f_equal.
  unfold flat at 1. cbn [data]. rewrite nth_tab2 by lia.
  cbn [smul Scalar_C]. f_equal.
  unfold flat. cbn [map_nd data].
  change (@s0 C Scalar_C) with (RtoC 0). rewrite map_nth. reflexivity.
Qed.

End InverseFacts.

(** ** C5: what the inverse transform returns *)

Section C5.

Lemma uniform_weights_repeat (n : nat) : uniform_weights n = repeat (1 / INR n)%R n.
Proof. unfold uniform_weights. rewrite map_repeat. reflexivity. Qed.

(** C5, amended: for a non-empty point set ([0 < Nk]) and one weight per
    point, [k2r] returns the [(NR, Nb, Nb)] array whose element [(r, a, b)] is
    the sum over [k] of [exp(-i 2 pi Rs[r] . ks[k]) * (weights[k] * MKs[k, a, b])];
    with the weights omitted it returns what it returns for [Nk] weights
    [1 / Nk]. *)
Theorem k2r_weighted_sum (Nk NR Nb : nat) (ks : ndarray R) (Rs : ndarray Z) (MKs : ndarray C) :
  0 < Nk ->
  shape ks = [Nk; 3] -> shape Rs = [NR; 3] -> shape MKs = [Nk; Nb; Nb] ->
  let self := {| AOMatrixK.ks := ks; AOMatrixK.MKs := MKs |} in
  (forall w, length w = Nk ->
     exists MR,
       AOMatrixK.k2r self Rs (Some w) = Ok MR
       /\ shape MR = [NR; Nb; Nb]
       /\ wf MR
       /\ (forall r a b, r < NR -> a < Nb -> b < Nb ->
             at3 MR r a b
             = ssum (map (fun k => Cmult (PhiInv Rs ks r k)
                                     (Cmult (RtoC (nth k w 0%R)) (at3 MKs k a b)))
                         (seq 0 Nk))))
  /\ AOMatrixK.k2r self Rs None
     = AOMatrixK.k2r self Rs (Some (repeat (1 / INR Nk)%R Nk)).
Proof.
  intros HNk Hks HRs HM self. split.
  - intros w Hw. unfold self.
    rewrite (k2r_ok ks MKs Rs w Nk NR [Nb; Nb] HNk Hks HRs HM Hw).
    assert (HP : prod [Nb; Nb] = Nb * Nb) by (cbn; lia).
    rewrite HP. eexists. split; [reflexivity|]. split; [reflexivity|]. split.
    { unfold wf, size. cbn [data shape]. rewrite length_tab2. cbn. lia. }
    intros r a b Hr Ha Hb. unfold at3 at 1. cbn [shape nth].
    replace ((r * Nb + a) * Nb + b) with (r * (Nb * Nb) + (a * Nb + b)) by lia.
    unfold flat. cbn [data]. rewrite nth_tab2 by (assumption || nia).
    unfold inverse_sum. apply f_equal, map_ext. intros k. f_equal.
    rewrite Cmult_comm. f_equal.
    unfold at3. rewrite HM. cbn [nth]. unfold flat. f_equal. lia.
  - unfold self. rewrite <- uniform_weights_repeat.
    apply (k2r_default _ Rs Nk [3]). exact Hks.
Qed.

Lemma k2r_weighted_sum_witness :
  let self := {| AOMatrixK.ks := gamma_point; AOMatrixK.MKs := gamma_MKs |} in
  (forall w, length w = 1 ->
     exists MR,
       AOMatrixK.k2r self chain_Rs (Some w) = Ok MR
       /\ shape MR = [3; 1; 1]
       /\ wf MR
       /\ (forall r a b, r < 3 -> a < 1 -> b < 1 ->
             at3 MR r a b
             = ssum (map (fun k => Cmult (PhiInv chain_Rs gamma_point r k)
                                     (Cmult (RtoC (nth k w 0%R)) (at3 gamma_MKs k a b)))
                         (seq 0 1))))
  /\ AOMatrixK.k2r self chain_Rs None
     = AOMatrixK.k2r self chain_Rs (Some (repeat (1 / INR 1)%R 1)).
Proof.
  apply (k2r_weighted_sum 1 3 1 gamma_point chain_Rs gamma_MKs); [lia | reflexivity ..].
Defined.

(** C5 as stated fails for an empty point set: [reshape(0, -1)] raises,
    with the weights given or omitted, where the claim has [k2r] return the
    empty sums. *)
Lemma k2r_empty_points_raises :
  let self := {| AOMatrixK.ks := empty_ks; AOMatrixK.MKs := empty_MKs |} in
  shape empty_ks = [0; 3] /\ shape empty_MKs = [0; 1; 1] /\ shape chain_Rs = [3; 3]
  /\ wf empty_ks /\ wf empty_MKs /\ wf chain_Rs
  /\ AOMatrixK.k2r self chain_Rs None = Raise ValueError
  /\ AOMatrixK.k2r self chain_Rs (Some []) = Raise ValueError
  /\ ~ (exists MR, AOMatrixK.k2r self chain_Rs None = Ok MR).
Proof.
  assert (E : forall w, AOMatrixK.k2r
                 {| AOMatrixK.ks := empty_ks; AOMatrixK.MKs := empty_MKs |}
                 chain_Rs w = Raise ValueError).
  { intros w. unfold AOMatrixK.k2r. cbn [AOMatrixK.ks AOMatrixK.MKs].
    rewrite (T_2d empty_ks 0 3) by reflexivity.
    destruct w as [w|]; cbn [bind len empty_ks shape];
      rewrite (matmul_2d (map_nd IZR chain_Rs) _ 3 3 0) by reflexivity; cbn [bind];
      reflexivity. }
  cbv zeta. repeat split; try reflexivity; try apply E.
  rewrite E. intros [MR HMR]. discriminate HMR.
Qed.

End C5.

(** ** C4: the inverse transform undoes the forward transform *)

Section C4.

Lemma tab2_nth {A : Type} (l : list A) (n p : nat) (d : A) :
  length l = n * p -> tab2 n p (fun i j => nth (i * p + j) l d) = l.
Proof.
  intros Hl. apply (nth_ext _ _ d d).
  - rewrite length_tab2. symmetry. exact Hl.
  - intros x Hx. rewrite length_tab2 in Hx.
    assert (Hp : p <> 0) by (intros ->; lia).
    pose proof (Nat.div_mod_eq x p) as Hdm.
    pose proof (Nat.mod_upper_bound x p Hp) as Hmod.
    assert (Hdiv : x / p < n) by (apply Nat.Div0.div_lt_upper_bound; lia).
    replace x with ((x / p) * p + x mod p) at 1 by lia.
    rewrite nth_tab2 by assumption. f_equal. lia.
Qed.

Lemma dot3_inv_comm (Rs : ndarray Z) (ks : ndarray R) (r k : nat) :
  dot3_inv Rs ks r k = dot3 ks Rs k r.
Proof.
  unfold dot3_inv, dot3. apply f_equal, map_ext. intros c. apply Rmult_comm.
Qed.

Lemma left_inverse_points (ks : ndarray R) (Rs : ndarray Z) (Nk NR : nat) :
  0 < NR -> left_inverse ks Rs Nk NR -> 0 < Nk.
Proof.
  intros HNR HL. destruct Nk as [|Nk]; [|lia].
  specialize (HL 0 0 HNR HNR). cbn in HL.
  apply (f_equal fst) in HL. cbn in HL. lra.
Qed.

Lemma round_trip_entry (ks : ndarray R) (Rs : ndarray Z) (MRs : ndarray C)
  (Nk NR M r j : nat) :
  left_inverse ks Rs Nk NR -> r < NR -> j < M ->
  inverse_sum Rs ks
    (mk_nd (Nk :: [M]) (tab2 Nk M (fun k j => bloch_sum ks Rs MRs NR M k j)))
    (uniform_weights Nk) Nk M r j
  = flat MRs (r * M + j).
Proof.
  intros HL Hr Hj. unfold inverse_sum.
  transitivity
    (ssum (map (fun k =>
             ssum (map (fun r' =>
                     Cmult (Cmult (PhiInv Rs ks r k)
                              (Cmult (RtoC (1 / INR Nk)) (Phi ks Rs k r')))
                           (flat MRs (r' * M + j)))
                   (seq 0 NR)))
          (seq 0 Nk))).
  { apply f_equal, map_ext_in. intros k Hk. apply in_seq in Hk.
    unfold flat at 1. cbn [data]. rewrite nth_tab2 by lia.
    rewrite nth_uniform_weights by lia.
    unfold bloch_sum. rewrite ssum_mult_r, ssum_mult_l, !map_map.
    apply f_equal, map_ext. intros r'.
    apply C_eq; cbn [Cmult fst snd RtoC]; ring. }
  rewrite ssum_swap.
  transitivity
    (ssum (map (fun r' => Cmult (if r =? r' then C1 else C0) (flat MRs (r' * M + j)))
               (seq 0 NR))).
  { apply f_equal, map_ext_in. intros r' Hr'. apply in_seq in Hr'.
    rewrite <- (HL r r') by lia.
    rewrite ssum_mult_r, map_map. reflexivity. }
  apply (ssum_delta (fun r' => flat MRs (r' * M + j))). exact Hr.
Qed.

(** C4, amended: for a non-empty displacement set ([0 < NR]) and points whose
    inverse phases are a left inverse of the forward phases under the weights
    [1 / Nk], [AOMatrixK(ks, op.r2k(ks)).k2r(op.Rs)] returns [op.MRs]. *)
Theorem k2r_r2k_round_trip (Nk NR Nb : nat) (ks : ndarray R) (Rs : ndarray Z)
  (MRs : ndarray C) :
  0 < NR ->
  shape ks = [Nk; 3] -> shape Rs = [NR; 3] -> shape MRs = [NR; Nb; Nb] -> wf MRs ->
  left_inverse ks Rs Nk NR ->
  (op <- AOMatrixR.__init__ Rs MRs ;;
   MKs <- AOMatrixR.r2k op ks ;;
   opk <- AOMatrixK.__init__ ks MKs ;;
   AOMatrixK.k2r opk (AOMatrixR.Rs op) None)
  = Ok MRs.
Proof.
  intros HNR Hks HRs HM Hwf HL.
  pose proof (left_inverse_points ks Rs Nk NR HNR HL) as HNk.
  unfold AOMatrixR.__init__, AOMatrixK.__init__. cbn [bind].
  rewrite r2k_same. cbn [AOMatrixR.Rs AOMatrixR.MRs].
  rewrite (_r2k_ok ks Rs MRs Nk NR [Nb; Nb] HNR Hks HRs HM). cbn [bind].
  rewrite (k2r_default _ Rs Nk [3]) by exact Hks.
  rewrite (k2r_ok ks _ Rs (uniform_weights Nk) Nk NR [Nb; Nb] HNk Hks HRs)
    by (reflexivity || apply length_uniform_weights).
  destruct MRs as [sh d]. cbn [shape] in HM. subst sh.
  unfold wf, size in Hwf. cbn [shape data] in Hwf.
  f_equal. f_equal.
  set (M := prod [Nb; Nb]) in *.
  transitivity (tab2 NR M (fun i j => nth (i * M + j) d C0));
    [|apply tab2_nth; rewrite Hwf; reflexivity].
  apply tab2_ext. intros r j Hr Hj.
  exact (round_trip_entry ks Rs (mk_nd [NR; Nb; Nb] d) Nk NR M r j HL Hr Hj).
Qed.

Lemma cis2pi_half : cis2pi (1 / 2) = RtoC (-1).
Proof.
  unfold cis2pi, RtoC. replace (2 * PI * (1 / 2))%R with PI by field.
  rewrite cos_PI, sin_PI. reflexivity.
Qed.

Lemma cis2pi_neg_half : cis2pi (- (1 / 2)) = RtoC (-1).
Proof. rewrite <- cis2pi_conj, cis2pi_half. apply C_eq; cbn; lra. Qed.

Lemma cis2pi_eq (x y : R) : x = y -> cis2pi x = cis2pi y.
Proof. intros ->; reflexivity. Qed.

Lemma two_points_left_inverse : left_inverse two_ks two_Rs 2 2.
Proof.
  intros r r' Hr Hr'.
  assert (P : forall k q, k < 2 -> q < 2 ->
            Phi two_ks two_Rs k q = if (k =? 1) && (q =? 1) then RtoC (-1) else C1).
  { intros k q Hk Hq. unfold Phi.
    destruct k as [|[|k]]; destruct q as [|[|q]]; try lia; cbn [Nat.eqb andb];
      [rewrite <- cis2pi_0 | rewrite <- cis2pi_0 | rewrite <- cis2pi_0
       | rewrite <- cis2pi_half];
      apply cis2pi_eq; unfold dot3, at2, flat; cbn; lra. }
  assert (Q : forall q k, k < 2 -> q < 2 ->
            PhiInv two_Rs two_ks q k = if (k =? 1) && (q =? 1) then RtoC (-1) else C1).
  { intros q k Hk Hq. unfold PhiInv.
    destruct k as [|[|k]]; destruct q as [|[|q]]; try lia; cbn [Nat.eqb andb];
      [rewrite <- cis2pi_0 | rewrite <- cis2pi_0 | rewrite <- cis2pi_0
       | rewrite <- cis2pi_neg_half];
      apply cis2pi_eq; unfold dot3_inv, at2, flat; cbn; lra. }
  cbn [seq map]. rewrite !ssum_cons, ssum_nil.
  rewrite !P, !Q by lia.
  destruct r as [|[|r]]; destruct r' as [|[|r']]; try lia;
    cbn [Nat.eqb andb]; apply C_eq; cbn; lra.
Qed.

Lemma k2r_r2k_round_trip_witness :
  (op <- AOMatrixR.__init__ two_Rs two_MRs ;;
   MKs <- AOMatrixR.r2k op two_ks ;;
   opk <- AOMatrixK.__init__ two_ks MKs ;;
   AOMatrixK.k2r opk (AOMatrixR.Rs op) None)
  = Ok two_MRs.
Proof.
  apply (k2r_r2k_round_trip 2 2 1 two_ks two_Rs two_MRs);
    [lia | reflexivity | reflexivity | reflexivity | reflexivity
     | exact two_points_left_inverse].
Defined.

(** C4 as stated fails for an empty displacement set: no pair of displacements
    is there to tell apart, so the sampling hypothesis holds, and the forward
    transform raises. *)
Lemma round_trip_empty_displacements_raises :
  shape gamma_point = [1; 3] /\ shape empty_Rs = [0; 3] /\ shape empty_MRs = [0; 1; 1]
  /\ wf empty_MRs
  /\ left_inverse gamma_point empty_Rs 1 0
  /\ (op <- AOMatrixR.__init__ empty_Rs empty_MRs ;;
      MKs <- AOMatrixR.r2k op gamma_point ;;
      opk <- AOMatrixK.__init__ gamma_point MKs ;;
      AOMatrixK.k2r opk (AOMatrixR.Rs op) None)
     <> Ok empty_MRs.
Proof.
  repeat split; try reflexivity.
  - intros r r' Hr. lia.
  - unfold AOMatrixR.__init__. cbn [bind].
    rewrite r2k_same. cbn [AOMatrixR.Rs AOMatrixR.MRs].
    rewrite _r2k_no_displacement. cbn [bind]. discriminate.
Qed.

End C4.

(** ** C6: the forward transform keeps Hermitian symmetry *)

Section C6.

(** Re-indexing a finite sum along a relation that pairs every index with
    one index, no index twice. *)
Lemma pairing_list (P : nat -> nat -> Prop) (l : list nat) :
  (forall r, In r l -> exists r', P r r') -> exists l', Forall2 P l l'.
Proof.
  induction l as [|r l IH]; intros HP.
  - exists []. constructor.
  - destruct (HP r (or_introl eq_refl)) as [r' Hr'].
    destruct IH as [l' Hl']; [intros x Hx; apply HP; right; exact Hx|].
    exists (r' :: l'). constructor; assumption.
Qed.

Lemma pairing_source (P : nat -> nat -> Prop) (l l' : list nat) (r' : nat) :
  Forall2 P l l' -> In r' l' -> exists r, In r l /\ P r r'.
Proof.
  induction 1 as [|x y l l' Hxy _ IH]; intros Hin; [contradiction|].
  destruct Hin as [->|Hin].
  - exists x. split; [left; reflexivity | exact Hxy].
  - destruct (IH Hin) as (r & Hr & HP). exists r. split; [right|]; assumption.
Qed.

Lemma pairing_NoDup (P : nat -> nat -> Prop) (l l' : list nat) :
  (forall r1 r2 r', In r1 l -> In r2 l -> P r1 r' -> P r2 r' -> r1 = r2) ->
  Forall2 P l l' -> NoDup l -> NoDup l'.
Proof.
  intros Hinj HF. induction HF as [|r r' l l' Hrr' HF IH]; intros Hnd.
  - constructor.
  - inversion Hnd as [|? ? Hnotin Hnd']; subst. constructor.
    + intros Hin. apply Hnotin.
      destruct (pairing_source _ _ _ r' HF Hin) as (x & Hx & HPx).
      rewrite (Hinj r x r'); try assumption; [left; reflexivity | right; assumption].
    + apply IH; [|assumption].
      intros r1 r2 y H1 H2. apply Hinj; right; assumption.
Qed.

Lemma ssum_reindex (P : nat -> nat -> Prop) (f h : nat -> C) (n : nat) :
  (forall r, r < n -> exists r', r' < n /\ P r r') ->
  (forall r1 r2 r', r1 < n -> r2 < n -> P r1 r' -> P r2 r' -> r1 = r2) ->
  (forall r r', r < n -> r' < n -> P r r' -> f r' = h r) ->
  ssum (map f (seq 0 n)) = ssum (map h (seq 0 n)).
Proof.
  intros Hex Hinj Hfh.
  destruct (pairing_list (fun r r' => r < n /\ r' < n /\ P r r') (seq 0 n)) as [l' HF].
  { intros r Hr. apply in_seq in Hr. destruct (Hex r) as (r' & H1 & H2); [lia|].
    exists r'. repeat split; (lia || assumption). }
  assert (Hnd : NoDup l').
  { apply (pairing_NoDup _ (seq 0 n) l') in HF; [exact HF| |apply seq_NoDup].
    intros r1 r2 y _ _ (H1 & _ & HP1) (H2 & _ & HP2). exact (Hinj r1 r2 y H1 H2 HP1 HP2). }
  assert (Hlen : length l' = n).
  { rewrite <- (Forall2_length HF). apply length_seq. }
  assert (Hincl : incl l' (seq 0 n)).
  { intros y Hy. destruct (pairing_source _ _ _ y HF Hy) as (x & _ & _ & Hyn & _).
    apply in_seq. lia. }
  assert (Hperm : Permutation l' (seq 0 n)).
  { apply NoDup_Permutation_bis; try assumption. rewrite length_seq, Hlen. lia. }
  rewrite <- (ssum_perm _ _ (Permutation_map f Hperm)).
  f_equal. clear Hnd Hlen Hincl Hperm.
  induction HF as [|r r' l l' (Hr & Hr' & HP) HF IH]; [reflexivity|].
  cbn [map]. rewrite IH, (Hfh r r') by assumption. reflexivity.
Qed.

Lemma Phi_opposite (ks : ndarray R) (Rs : ndarray Z) (k r r' : nat) :
  (forall c, c < 3 -> at2 Rs r' c = (- at2 Rs r c)%Z) ->
  Phi ks Rs k r' = Cconj (Phi ks Rs k r).
Proof.
  intros Hopp. unfold Phi. rewrite cis2pi_conj. apply cis2pi_eq.
  unfold dot3. cbn [seq map]. unfold ssum. cbn [fold_right sadd s0 Scalar_R].
  rewrite !Hopp by lia. rewrite !opp_IZR. ring.
Qed.

(** C6: for displacements of shape [(NR, 3)] without repetition and matrices
    of shape [(NR, Nb, Nb)] with [M(R) = M(-R)^H], every matrix [r2k] returns,
    at every real point, equals its own conjugate transpose; and [r2k] does
    return, for a non-empty displacement set. *)
Theorem r2k_hermitian (Nk NR Nb : nat) (ks : ndarray R) (Rs : ndarray Z) (MRs : ndarray C) :
  shape ks = [Nk; 3] -> shape Rs = [NR; 3] -> shape MRs = [NR; Nb; Nb] ->
  distinct_displacements Rs NR ->
  lattice_hermitian Rs MRs NR Nb ->
  let op := {| AOMatrixR.Rs := Rs; AOMatrixR.MRs := MRs |} in
  (forall Mk, AOMatrixR.r2k op ks = Ok Mk ->
     forall k a b, k < Nk -> a < Nb -> b < Nb ->
       at3 Mk k a b = Cconj (at3 Mk k b a))
  /\ (0 < NR -> exists Mk, AOMatrixR.r2k op ks = Ok Mk /\ shape Mk = [Nk; Nb; Nb]).
Proof.
  intros Hks HRs HM Hdist Hherm op. unfold op. split.
  - intros Mk HMk k a b Hk Ha Hb.
    rewrite r2k_same in HMk. cbn [AOMatrixR.Rs AOMatrixR.MRs] in HMk.
    destruct NR as [|NR'].
    { rewrite (_r2k_no_displacements Nk ks Rs MRs Hks HRs) in HMk. discriminate HMk. }
    destruct (_r2k_entries Nk (S NR') Nb ks Rs MRs (Nat.lt_0_succ _) Hks HRs HM)
      as (Mk' & E & _ & _ & _ & Hat).
    rewrite E in HMk. injection HMk as <-.
    rewrite !Hat by assumption.
    rewrite ssum_conj, map_map.
    apply (ssum_reindex
             (fun r r' =>
                (forall c, c < 3 -> at2 Rs r' c = (- at2 Rs r c)%Z)
                /\ (forall a b, a < Nb -> b < Nb ->
                      at3 MRs r' a b = Cconj (at3 MRs r b a)))).
    + exact Hherm.
    + intros r1 r2 r' H1 H2 (O1 & _) (O2 & _). apply Hdist; try assumption.
      intros c Hc. specialize (O1 c Hc). specialize (O2 c Hc). lia.
    + intros r r' _ _ (O & HMr).
      rewrite Cconj_mult, <- (Phi_opposite ks Rs k r r' O), <- HMr by assumption.
      reflexivity.
  - intros HNR.
    destruct (_r2k_entries Nk NR Nb ks Rs MRs HNR Hks HRs HM) as (Mk & E & Hsh & _).
    exists Mk. split; [rewrite r2k_same; exact E | exact Hsh].
Qed.

Lemma chain_distinct : distinct_displacements chain_Rs 3.
Proof.
  intros r r' Hr Hr' H. specialize (H 0 ltac:(lia)).
  destruct r as [|[|[|r]]]; destruct r' as [|[|[|r']]]; try lia;
    cbn in H; discriminate H.
Qed.

Lemma chain_lattice_hermitian : lattice_hermitian chain_Rs chain_HR 3 1.
Proof.
  intros r Hr.
  assert (Hone : forall a b, a < 1 -> b < 1 -> a = 0 /\ b = 0) by (intros; lia).
  destruct r as [|[|[|r]]]; try lia;
    [exists 2 | exists 1 | exists 0];
    (split; [lia|]; split;
     [ intros c Hc; destruct c as [|[|[|c]]]; try lia; reflexivity
     | intros a b Ha Hb; destruct (Hone a b Ha Hb) as [-> ->];
       apply C_eq; cbn; lra ]).
Qed.

Lemma r2k_hermitian_witness :
  let op := {| AOMatrixR.Rs := chain_Rs; AOMatrixR.MRs := chain_HR |} in
  (forall Mk, AOMatrixR.r2k op gamma_point = Ok Mk ->
     forall k a b, k < 1 -> a < 1 -> b < 1 ->
       at3 Mk k a b = Cconj (at3 Mk k b a))
  /\ (0 < 3 -> exists Mk, AOMatrixR.r2k op gamma_point = Ok Mk /\ shape Mk = [1; 1; 1]).
Proof.
  apply (r2k_hermitian 1 3 1 gamma_point chain_Rs chain_HR);
    [reflexivity | reflexivity | reflexivity
     | exact chain_distinct | exact chain_lattice_hermitian].
Defined.

End C6.

(** ** C10: a single point is a batch of one, unwrapped *)

Section C10.

Lemma newaxis0_1d {A : Type} (k : ndarray A) (n : nat) :
  shape k = [n] -> newaxis0 k = Ok (mk_nd [1; n] (data k)).
Proof. unfold newaxis0; intros ->; reflexivity. Qed.

Lemma item_first {A : Type} (a : ndarray A) (n : nat) (rest : list nat) :
  shape a = S n :: rest ->
  item a 0 = Ok (mk_nd rest (firstn (prod rest) (data a))).
Proof. unfold item; intros ->; reflexivity. Qed.

(** C10: for a 1-d point [k], [Sk_and_Hk(k)] is [Sk_and_Hk(k[None, :])]
    followed by taking entry 0 of both arrays, the overlap first and the
    Hamiltonian second in both; for [k] of shape [(3,)] and an operator of
    [NR >= 1] displacements and [Nb] orbitals it returns two [(Nb, Nb)]
    matrices. *)
Theorem Sk_and_Hk_single_is_batch_of_one (self : HamiltonianObj.t) (k : ndarray R) :
  ndim k = 1 ->
  HamiltonianObj.Sk_and_Hk self k
  = (ks <- newaxis0 k ;;
     '(Sk, Hk) <- HamiltonianObj.Sk_and_Hk self ks ;;
     Sk0 <- item Sk 0 ;;
     Hk0 <- item Hk 0 ;;
     Ok (Sk0, Hk0))
  /\ (forall ks Sk Hk,
        newaxis0 k = Ok ks ->
        HamiltonianObj.Sk_and_Hk self ks = Ok (Sk, Hk) ->
        HamiltonianObj._r2k ks (HamiltonianObj.Rijk_list self) (HamiltonianObj.SR self) = Ok Sk
        /\ HamiltonianObj._r2k ks (HamiltonianObj.Rijk_list self) (HamiltonianObj.HR self) = Ok Hk)
  /\ (forall NR Nb,
        0 < NR -> shape k = [3] ->
        shape (HamiltonianObj.Rijk_list self) = [NR; 3] ->
        shape (HamiltonianObj.SR self) = [NR; Nb; Nb] ->
        shape (HamiltonianObj.HR self) = [NR; Nb; Nb] ->
        exists Sk0 Hk0,
          HamiltonianObj.Sk_and_Hk self k = Ok (Sk0, Hk0)
          /\ shape Sk0 = [Nb; Nb] /\ shape Hk0 = [Nb; Nb]).
Proof.
  intros Hnd. unfold ndim in Hnd.
  destruct (shape k) as [|n [|m sh]] eqn:Hsh; try discriminate Hnd. clear Hnd.
  pose proof (newaxis0_1d k n Hsh) as Hna.
  assert (Hbatch : forall ks, newaxis0 k = Ok ks ->
            HamiltonianObj.Sk_and_Hk self ks
            = (Sk <- HamiltonianObj._r2k ks (HamiltonianObj.Rijk_list self)
                       (HamiltonianObj.SR self) ;;
               Hk <- HamiltonianObj._r2k ks (HamiltonianObj.Rijk_list self)
                       (HamiltonianObj.HR self) ;;
               Ok (Sk, Hk))).
  { intros ks Hks. rewrite Hna in Hks. injection Hks as <-. reflexivity. }
  split; [|split].
  - unfold HamiltonianObj.Sk_and_Hk at 1. unfold ndim. rewrite Hsh. cbn [length Nat.eqb].
    rewrite Hna. cbn [bind]. rewrite (Hbatch _ Hna).
    destruct (HamiltonianObj._r2k _ _ (HamiltonianObj.SR self)) as [Sk|e]; [|reflexivity].
    cbn [bind].
    destruct (HamiltonianObj._r2k _ _ (HamiltonianObj.HR self)) as [Hk|e]; reflexivity.
  - intros ks Sk Hk Hks E. rewrite (Hbatch _ Hks) in E.
    destruct (HamiltonianObj._r2k ks _ (HamiltonianObj.SR self)) as [Sk'|e];
      [|discriminate E].
    cbn [bind] in E.
    destruct (HamiltonianObj._r2k ks _ (HamiltonianObj.HR self)) as [Hk'|e];
      [|discriminate E].
    injection E as -> ->. split; reflexivity.
  - intros NR Nb HNR Hk3 HR HS HH.
    injection Hk3 as ->.
    unfold HamiltonianObj.Sk_and_Hk, ndim. rewrite Hsh. cbn [length Nat.eqb].
    rewrite Hna. cbn [bind].
    rewrite (_r2k_ok (mk_nd [1; 3] (data k)) _ _ 1 NR [Nb; Nb] HNR eq_refl HR HS).
    cbn [bind].
    rewrite (_r2k_ok (mk_nd [1; 3] (data k)) _ _ 1 NR [Nb; Nb] HNR eq_refl HR HH).
    cbn [bind].
    rewrite !(item_first _ 0 [Nb; Nb]) by reflexivity. cbn [bind].
    eexists. eexists. split; [reflexivity|]. split; reflexivity.
Qed.

Lemma Sk_and_Hk_single_is_batch_of_one_witness :
  HamiltonianObj.Sk_and_Hk chain gamma_k
  = (ks <- newaxis0 gamma_k ;;
     '(Sk, Hk) <- HamiltonianObj.Sk_and_Hk chain ks ;;
     Sk0 <- item Sk 0 ;;
     Hk0 <- item Hk 0 ;;
     Ok (Sk0, Hk0))
  /\ (forall ks Sk Hk,
        newaxis0 gamma_k = Ok ks ->
        HamiltonianObj.Sk_and_Hk chain ks = Ok (Sk, Hk) ->
        HamiltonianObj._r2k ks (HamiltonianObj.Rijk_list chain) (HamiltonianObj.SR chain) = Ok Sk
        /\ HamiltonianObj._r2k ks (HamiltonianObj.Rijk_list chain) (HamiltonianObj.HR chain) = Ok Hk)
  /\ (forall NR Nb,
        0 < NR -> shape gamma_k = [3] ->
        shape (HamiltonianObj.Rijk_list chain) = [NR; 3] ->
        shape (HamiltonianObj.SR chain) = [NR; Nb; Nb] ->
        shape (HamiltonianObj.HR chain) = [NR; Nb; Nb] ->
        exists Sk0 Hk0,
          HamiltonianObj.Sk_and_Hk chain gamma_k = Ok (Sk0, Hk0)
          /\ shape Sk0 = [Nb; Nb] /\ shape Hk0 = [Nb; Nb]).
Proof.
  apply (Sk_and_Hk_single_is_batch_of_one chain gamma_k). reflexivity.
Defined.

End C10.

(** ** C8: constructing a real-space operator *)

Section C8.

(** C8, amended: [AOMatrixR(Rs, MRs)] succeeds for every pair of arrays and
    keeps both as they are; it checks no shape. *)
Theorem AOMatrixR_init_total (Rs : ndarray Z) (MRs : ndarray C) :
  exists op,
    AOMatrixR.__init__ Rs MRs = Ok op
    /\ AOMatrixR.Rs op = Rs /\ AOMatrixR.MRs op = MRs.
Proof. eexists. split; [reflexivity|]. split; reflexivity. Qed.

(** C8 as stated fails: the construction succeeds although the first extent
    of the matrices (2) is not the number of displacements (3) and the
    trailing axes (1, 2) are not square. *)
Lemma AOMatrixR_init_accepts_mismatch :
  len chain_Rs = Ok 3 /\ shape misshapen_MRs = [2; 1; 2] /\ wf misshapen_MRs
  /\ (exists op, AOMatrixR.__init__ chain_Rs misshapen_MRs = Ok op)
  /\ ~ (exists e, AOMatrixR.__init__ chain_Rs misshapen_MRs = Raise e).
Proof.
  repeat split; try reflexivity.
  - eexists. reflexivity.
  - intros [e He]. discriminate He.
Qed.

End C8.

(** ** Sorting *)

Section SortFacts.

Lemma Rleb_true (x y : R) : Rleb x y = true -> (x <= y)%R.
Proof. unfold Rleb. destruct (Rle_dec x y); [trivial | discriminate]. Qed.

Lemma Rleb_false (x y : R) : Rleb x y = false -> (y <= x)%R.
Proof. unfold Rleb. destruct (Rle_dec x y); [discriminate | intros _; lra]. Qed.

Lemma insert_perm (x : R) (l : list R) : Permutation (Np.insert x l) (x :: l).
Proof.
  induction l as [|y l IH]; cbn [Np.insert]; [reflexivity|].
  destruct (Rleb x y); [reflexivity|].
  rewrite IH. apply perm_swap.
Qed.

Lemma insert_HdRel (a x : R) (l : list R) :
  (a <= x)%R -> HdRel Rle a l -> HdRel Rle a (Np.insert x l).
Proof.
  intros Hax Hl. destruct l as [|y l]; cbn [Np.insert]; [constructor; exact Hax|].
  destruct (Rleb x y); constructor; [exact Hax|].
  inversion Hl; assumption.
Qed.

Lemma insert_sorted (x : R) (l : list R) : Sorted Rle l -> Sorted Rle (Np.insert x l).
Proof.
  induction l as [|y l IH]; intros Hs; cbn [Np.insert].
  - repeat constructor.
  - destruct (Rleb x y) eqn:E.
    + constructor; [exact Hs|]. constructor. apply Rleb_true, E.
    + apply Sorted_inv in Hs. destruct Hs as [Hs Hhd]. constructor.
      * apply IH, Hs.
      * apply insert_HdRel; [apply Rleb_false, E | exact Hhd].
Qed.

Lemma sort_sorted (v : list R) : Sorted Rle (Np.sort v).
Proof.
  unfold Np.sort. induction v as [|x v IH]; cbn [fold_right]; [constructor|].
  apply insert_sorted, IH.
Qed.

Lemma sort_perm (v : list R) : Permutation (Np.sort v) v.
Proof.
  unfold Np.sort. induction v as [|x v IH]; cbn [fold_right]; [reflexivity|].
  rewrite insert_perm, IH. reflexivity.
Qed.

Lemma insert_key_perm (p : R * nat) (l : list (R * nat)) :
  Permutation (insert_key p l) (p :: l).
Proof.
  induction l as [|q l IH]; cbn [insert_key]; [reflexivity|].
  destruct (Rleb (fst p) (fst q)); [reflexivity|].
  rewrite IH. apply perm_swap.
Qed.

Lemma insert_key_HdRel (a p : R * nat) (l : list (R * nat)) :
  key_le a p -> HdRel key_le a l -> HdRel key_le a (insert_key p l).
Proof.
  intros Hap Hl. destruct l as [|q l]; cbn [insert_key]; [constructor; exact Hap|].
  destruct (Rleb (fst p) (fst q)); constructor; [exact Hap|].
  inversion Hl; assumption.
Qed.

Lemma insert_key_sorted (p : R * nat) (l : list (R * nat)) :
  Sorted key_le l -> Sorted key_le (insert_key p l).
Proof.
  induction l as [|q l IH]; intros Hs; cbn [insert_key].
  - repeat constructor.
  - destruct (Rleb (fst p) (fst q)) eqn:E.
    + constructor; [exact Hs|]. constructor. apply Rleb_true, E.
    + apply Sorted_inv in Hs. destruct Hs as [Hs Hhd]. constructor.
      * apply IH, Hs.
      * apply insert_key_HdRel; [apply Rleb_false, E | exact Hhd].
Qed.

Lemma keyed_perm (v : list R) : Permutation (keyed v) (combine v (seq 0 (length v))).
Proof.
  unfold keyed. induction (combine v (seq 0 (length v))) as [|p l IH];
    cbn [fold_right]; [reflexivity|].
  rewrite insert_key_perm, IH. reflexivity.
Qed.

Lemma keyed_sorted (v : list R) : Sorted key_le (keyed v).
Proof.
  unfold keyed. induction (combine v (seq 0 (length v))) as [|p l IH];
    cbn [fold_right]; [constructor|].
  apply insert_key_sorted, IH.
Qed.

Lemma combine_seq_key (v : list R) (s : nat) (p : R * nat) :
  In p (combine v (seq s (length v))) ->
  s <= snd p < s + length v /\ nth_error v (snd p - s) = Some (fst p).
Proof.
  revert s. induction v as [|x v IH]; intros s Hin; [contradiction|].
  cbn [length seq combine] in Hin. destruct Hin as [<-|Hin].
  - cbn [fst snd length]. rewrite Nat.sub_diag. split; [lia | reflexivity].
  - destruct (IH (S s) Hin) as [Hr He]. cbn [length]. split; [lia|].
    replace (snd p - s) with (S (snd p - S s)) by lia. exact He.
Qed.

Lemma keyed_key (v : list R) (p : R * nat) :
  In p (keyed v) -> snd p < length v /\ nth_error v (snd p) = Some (fst p).
Proof.
  intros Hin. apply (Permutation_in _ (keyed_perm v)) in Hin.
  destruct (combine_seq_key v 0 p Hin) as [Hr He].
  rewrite Nat.sub_0_r in He. split; [lia | exact He].
Qed.

Lemma argsort_perm (v : list R) : Permutation (argsort v) (seq 0 (length v)).
Proof.
  unfold argsort. fold (keyed v).
  rewrite (Permutation_map snd (keyed_perm v)).
  assert (E : forall s, map snd (combine v (seq s (length v))) = seq s (length v)).
  { induction v as [|x v IH]; intros s; [reflexivity|].
    cbn [length seq combine map snd]. rewrite IH. reflexivity. }
  rewrite E. reflexivity.
Qed.

Lemma argsort_values (v : list R) :
  map (fun i => nth i v 0%R) (argsort v) = map fst (keyed v).
Proof.
  unfold argsort. fold (keyed v). rewrite map_map.
  apply map_ext_in. intros p Hp. destruct (keyed_key v p Hp) as [_ He].
  apply nth_error_nth. exact He.
Qed.

Lemma argsort_sorted (v : list R) :
  Sorted Rle (map (fun i => nth i v 0%R) (argsort v)).
Proof.
  rewrite argsort_values. pose proof (keyed_sorted v) as Hs.
  induction Hs as [|p l Hs IH Hhd]; cbn [map]; constructor; [exact IH|].
  destruct Hhd as [|q l Hpq]; cbn [map]; constructor. exact Hpq.
Qed.

Lemma argsort_bound (v : list R) (i : nat) : In i (argsort v) -> i < length v.
Proof.
  intros Hin. apply (Permutation_in _ (argsort_perm v)) in Hin.
  apply in_seq in Hin. lia.
Qed.

Lemma take_in_range (v : list R) (idx : list nat) :
  (forall i, In i idx -> i < length v) ->
  take v idx = Ok (map (fun i => nth i v 0%R) idx).
Proof.
  unfold take. induction idx as [|i idx IH]; intros Hb; [reflexivity|].
  cbn [mapM map].
  destruct (nth_error v i) as [x|] eqn:E.
  - cbn [bind]. rewrite IH by (intros j Hj; apply Hb; right; exact Hj).
    cbn [bind]. rewrite (nth_error_nth _ _ _ E). reflexivity.
  - apply nth_error_None in E. specialize (Hb i (or_introl eq_refl)). lia.
Qed.

End SortFacts.

(** ** The per-point unit of [diag] *)

(** Case analysis on every step of a chain of [bind]s. *)
Ltac split_binds :=
  repeat match goal with
         | |- context [bind ?m _] =>
             lazymatch m with
             | bind _ _ => fail
             | _ => destruct m as [[? ?]|?] || destruct m as [?|?]
             end;
             cbn [bind]; try reflexivity
         end.

Section ProcessFacts.

Context {K : Type} (sp : scipy K).

Lemma process_k_sparse_bands (self : HamiltonianObj.t) (kwargs : K) (blas : Z) (k : ndarray R) :
  HamiltonianObj.process_k sp self true true kwargs blas k
  = ('(Sk, Hk) <- instantaneous self k ;;
     vals <- eigsh_no_vectors sp blas kwargs Hk Sk ;;
     Ok (Np.sort vals)).
Proof.
  unfold HamiltonianObj.process_k, instantaneous.
  split_binds.
Qed.

Lemma process_k_sparse_full (self : HamiltonianObj.t) (kwargs : K) (blas : Z) (k : ndarray R) :
  HamiltonianObj.process_k sp self true false kwargs blas k
  = ('(Sk, Hk) <- instantaneous self k ;;
     '(vals, vecs) <- eigsh sp blas kwargs Hk Sk ;;
     vals_idx <- take vals (argsort vals) ;;
     vecs_idx <- take_cols vecs (argsort vals) ;;
     Ok (vals_idx, vecs_idx)).
Proof.
  unfold HamiltonianObj.process_k, instantaneous.
  split_binds.
Qed.

Lemma process_k_dense_bands (self : HamiltonianObj.t) (kwargs : K) (blas : Z) (k : ndarray R) :
  HamiltonianObj.process_k sp self false true kwargs blas k
  = ('(Sk, Hk) <- instantaneous self k ;;
     eigh_eigvals_only sp blas Hk Sk).
Proof.
  unfold HamiltonianObj.process_k, instantaneous.
  split_binds.
Qed.

Lemma process_k_dense_full (self : HamiltonianObj.t) (kwargs : K) (blas : Z) (k : ndarray R) :
  HamiltonianObj.process_k sp self false false kwargs blas k
  = ('(Sk, Hk) <- instantaneous self k ;;
     eigh sp blas Hk Sk).
Proof.
  unfold HamiltonianObj.process_k, instantaneous.
  split_binds.
Qed.

End ProcessFacts.

(** ** C2: per-point eigenvalues ascend and keep their eigenvectors *)

Section C2.

Lemma take_cols_in_range (v : ndarray C) (idx : list nat) (n m : nat) :
  shape v = [n; m] -> (forall i, In i idx -> i < m) ->
  take_cols v idx
  = Ok (mk_nd [n; length idx]
          (tab2 n (length idx) (fun r j => flat v (r * m + nth j idx 0)))).
Proof.
  intros Hv Hb. unfold take_cols. rewrite Hv.
  replace (forallb (fun i => i <? m) idx) with true; [reflexivity|].
  symmetry. apply forallb_forall. intros i Hi. apply Nat.ltb_lt, Hb, Hi.
Qed.







End C2.

(** ** Comprehensions, worker pools and stacking *)

Section BatchFacts.

Context {A B : Type}.

Lemma mapM_Forall2 (f : A -> result B) (l : list A) (rs : list B) :
  mapM f l = Ok rs <-> Forall2 (fun x r => f x = Ok r) l rs.
Proof.
  revert rs. induction l as [|x l IH]; intros rs; cbn [mapM].
  - split.
    + intros E. injection E as <-. constructor.
    + intros HF. inversion HF. reflexivity.
  - split.
    + intros E. destruct (f x) as [y|e] eqn:Ef; [|discriminate E]. cbn [bind] in E.
      destruct (mapM f l) as [ys|e]; [|discriminate E]. cbn [bind] in E.
      injection E as <-. constructor; [exact Ef | apply IH; reflexivity].
    + intros HF. inversion HF as [|? y ? ys Ef HF']; subst.
      rewrite Ef. cbn [bind]. rewrite (proj2 (IH ys) HF'). reflexivity.
Qed.

Lemma mapM_raise (f : A -> result B) (l : list A) (e : exn) :
  mapM f l = Raise e -> exists x, In x l /\ f x = Raise e.
Proof.
  induction l as [|x l IH]; cbn [mapM]; intros E; [discriminate E|].
  destruct (f x) as [y|e'] eqn:Ef.
  - cbn [bind] in E. destruct (mapM f l) as [ys|e'']; [discriminate E|].
    cbn [bind] in E. injection E as ->.
    destruct (IH eq_refl) as (x' & Hin & Hx'). exists x'. split; [right|]; assumption.
  - cbn [bind] in E. injection E as ->. exists x. split; [left; reflexivity | exact Ef].
Qed.

Lemma mapM_ok (f : A -> result B) (g : A -> B) (l : list A) :
  (forall x, In x l -> f x = Ok (g x)) -> mapM f l = Ok (map g l).
Proof.
  intros Hfg. apply mapM_Forall2. induction l as [|x l IH]; cbn [map]; constructor.
  - apply Hfg. left. reflexivity.
  - apply IH. intros y Hy. apply Hfg. right. exact Hy.
Qed.

End BatchFacts.

Section PoolFacts.

Context {A B : Type}.

(** Every finished task is a task, with the outcome of [f] on it. *)
Lemma completed_spec (f : A -> result B) (tasks : list A) (sched : list nat)
  (i : nat) (r : result B) :
  In (i, r) (completed f tasks sched) ->
  exists x, nth_error tasks i = Some x /\ r = f x.
Proof.
  unfold completed. intros Hin. apply in_flat_map in Hin.
  destruct Hin as (j & _ & Hj).
  destruct (nth_error tasks j) as [x|] eqn:E; [|contradiction].
  destruct Hj as [Hj|[]]. injection Hj as <- <-. exists x. split; [exact E | reflexivity].
Qed.

(** Every task finishes. *)
Lemma completed_all (f : A -> result B) (tasks : list A) (sched : list nat)
  (i : nat) (x : A) :
  nth_error tasks i = Some x -> In (i, f x) (completed f tasks sched).
Proof.
  intros E. unfold completed. apply in_flat_map. exists i. split.
  - apply in_or_app. right. apply in_seq.
    assert (i < length tasks) by (apply nth_error_Some; rewrite E; discriminate). lia.
  - rewrite E. left. reflexivity.
Qed.

Lemma gather_completed (f : A -> result B) (tasks : list A) (sched : list nat)
  (rs : list B) :
  Forall2 (fun x r => f x = Ok r) tasks rs ->
  gather (completed f tasks sched) (length tasks) = Ok rs.
Proof.
  intros HF. unfold gather.
  assert (Hlen : length tasks = length rs) by (apply (Forall2_length HF)).
  assert (Hnth : forall i x, nth_error tasks i = Some x ->
            exists r, nth_error rs i = Some r /\ f x = Ok r).
  { clear Hlen. induction HF as [|x r l rs' Hx HF IH]; intros i y Hy.
    - destruct i; discriminate Hy.
    - destruct i as [|i]; cbn [nth_error] in *.
      + injection Hy as <-. exists r. split; [reflexivity | exact Hx].
      + exact (IH i y Hy). }
  apply mapM_Forall2.
  assert (G : forall n s, s + n = length rs ->
            Forall2 (fun i r =>
                       match find (fun p => fst p =? i) (completed f tasks sched) with
                       | Some (_, r0) => r0
                       | None => Raise Unmodelled
                       end = Ok r)
                    (seq s n) (skipn s rs)).
  { induction n as [|n IHn]; intros s Hs.
    - rewrite skipn_all2 by lia. constructor.
    - destruct (nth_error rs s) as [r|] eqn:Er;
        [|apply nth_error_None in Er; lia].
      assert (Hsk : skipn s rs = r :: skipn (S s) rs).
      { clear - Er. revert s Er. induction rs as [|y rs IHr]; intros s Er.
        - destruct s; discriminate Er.
        - destruct s as [|s]; cbn in *; [injection Er as ->; reflexivity|].
          apply IHr, Er. }
      rewrite Hsk. cbn [seq]. constructor; [|apply IHn; lia].
      destruct (nth_error tasks s) as [x|] eqn:Ex;
        [|apply nth_error_None in Ex; lia].
      destruct (find (fun p => fst p =? s) (completed f tasks sched)) as [[i r0]|] eqn:Ef.
      + apply find_some in Ef. destruct Ef as [Hin Hi]. cbn [fst] in Hi.
        apply Nat.eqb_eq in Hi. subst i.
        destruct (completed_spec _ _ _ _ _ Hin) as (x' & Ex' & ->).
        rewrite Ex in Ex'. injection Ex' as <-.
        destruct (Hnth s x Ex) as (r' & Er' & Hfx). rewrite Er in Er'.
        injection Er' as <-. exact Hfx.
      + exfalso. pose proof (find_none _ _ Ef _ (completed_all f tasks sched s x Ex)) as Hn.
        cbn [fst] in Hn. rewrite Nat.eqb_refl in Hn. discriminate Hn. }
  rewrite Hlen. exact (G (length rs) 0 eq_refl).
Qed.

(** A pool of workers returns what the comprehension returns, and fails
    when the comprehension fails. *)
Lemma Parallel_ok (n_jobs : Z) (sched : list nat) (f : A -> result B)
  (tasks : list A) (rs : list B) :
  n_jobs <> 0%Z -> mapM f tasks = Ok rs -> Parallel n_jobs sched f tasks = Ok rs.
Proof.
  intros Hn E. apply mapM_Forall2 in E. unfold Parallel.
  replace (n_jobs =? 0)%Z with false by (symmetry; apply Z.eqb_neq; exact Hn).
  assert (Hnone : first_failure (completed f tasks sched) = None).
  { unfold first_failure.
    destruct (find _ (completed f tasks sched)) as [[i r]|] eqn:Ef; [|reflexivity].
    apply find_some in Ef. destruct Ef as [Hin Hr]. cbn [snd] in Hr.
    destruct r as [y|e]; [reflexivity|].
    destruct (completed_spec _ _ _ _ _ Hin) as (x & Ex & Hfx).
    exfalso. clear - E Ex Hfx.
    revert i Ex. induction E as [|x0 r0 l rs' Hx0 E IH]; intros i Ex.
    - destruct i; discriminate Ex.
    - destruct i as [|i]; cbn [nth_error] in Ex.
      + injection Ex as ->. rewrite Hx0 in Hfx. discriminate Hfx.
      + exact (IH i Ex). }
  rewrite Hnone. apply gather_completed, E.
Qed.

Lemma Parallel_raise (n_jobs : Z) (sched : list nat) (f : A -> result B)
  (tasks : list A) (e : exn) :
  mapM f tasks = Raise e -> exists e', Parallel n_jobs sched f tasks = Raise e'.
Proof.
  intros E. unfold Parallel. destruct (n_jobs =? 0)%Z; [eexists; reflexivity|].
  destruct (mapM_raise _ _ _ E) as (x & Hin & Hx).
  destruct (In_nth_error _ _ Hin) as [i Hi].
  pose proof (completed_all f tasks sched i x Hi) as Hdone. rewrite Hx in Hdone.
  unfold first_failure.
  destruct (find _ (completed f tasks sched)) as [[j r]|] eqn:Ef.
  - apply find_some in Ef. destruct Ef as [_ Hr]. cbn [snd] in Hr.
    destruct r as [y|e']; [discriminate Hr|]. eexists. reflexivity.
  - pose proof (find_none _ _ Ef _ Hdone) as Hn. cbn [snd] in Hn. discriminate Hn.
Qed.

Lemma Parallel_inv (n_jobs : Z) (sched : list nat) (f : A -> result B)
  (tasks : list A) (rs : list B) :
  Parallel n_jobs sched f tasks = Ok rs -> mapM f tasks = Ok rs.
Proof.
  intros E. destruct (mapM f tasks) as [rs'|e] eqn:EM.
  - assert (Hn : n_jobs <> 0%Z).
    { intros ->. unfold Parallel in E. cbn in E. discriminate E. }
    rewrite (Parallel_ok n_jobs sched f tasks rs' Hn EM) in E. exact E.
  - destruct (Parallel_raise n_jobs sched f tasks e EM) as [e' E'].
    rewrite E' in E. discriminate E.
Qed.

End PoolFacts.

(** ** [diag], step by step *)

Section DiagFacts.

Context {K : Type} (sp : scipy K).

Lemma diag_steps (env : Py.environ) (blas0 : Z) (sched : list nat)
  (self : HamiltonianObj.t) (ks : ndarray R) (k_process_num : Z) (thread_num : option Z)
  (sparse_calc bands_only : bool) (kwargs : K) :
  HamiltonianObj.diag sp env blas0 sched self ks k_process_num thread_num
    sparse_calc bands_only kwargs
  = match HamiltonianObj.resolve_thread_num env thread_num with
    | Raise e => (Raise e, blas0)
    | Ok cap =>
        (rows <- iter ks ;;
         results <- (if (k_process_num =? 1)%Z
                     then mapM (HamiltonianObj.process_k sp self sparse_calc bands_only
                                  kwargs cap) rows
                     else Parallel k_process_num sched
                            (HamiltonianObj.process_k sp self sparse_calc bands_only
                               kwargs cap) rows) ;;
         assemble bands_only results,
         blas0)
    end.
Proof.
  unfold HamiltonianObj.diag, threadpool_limits, tqdm, assemble.
  destruct (HamiltonianObj.resolve_thread_num env thread_num) as [cap|e]; [|reflexivity].
  f_equal. destruct (iter ks) as [rows|e]; [|reflexivity]. cbn [bind].
  destruct bands_only; reflexivity.
Qed.

End DiagFacts.

Section StackFacts.

Context {A : Type}.

Lemma iter_rows (ks : ndarray A) (Nk : nat) (rest : list nat) :
  shape ks = Nk :: rest ->
  iter ks
  = Ok (map (fun i => mk_nd rest (firstn (prod rest) (skipn (i * prod rest) (data ks))))
            (seq 0 Nk)).
Proof.
  intros Hks. unfold iter. rewrite (len_cons _ _ _ Hks). cbn [bind].
  apply mapM_ok. intros i Hi. apply in_seq in Hi.
  unfold item. rewrite Hks.
  replace (i <? Nk) with true by (symmetry; apply Nat.ltb_lt; lia). reflexivity.
Qed.

Lemma same_shape_forallb (arrs : list (ndarray A)) (s : list nat) :
  Forall (fun a => shape a = s) arrs ->
  forallb (fun a => if list_eq_dec Nat.eq_dec (shape a) s then true else false) arrs = true.
Proof.
  intros HF. apply forallb_forall. intros a Ha.
  rewrite Forall_forall in HF. rewrite (HF a Ha).
  destruct (list_eq_dec Nat.eq_dec s s); [reflexivity | contradiction].
Qed.

(** The shape [np.stack] gives. *)
Lemma stack_shape (arrs : list (ndarray A)) (s : list nat) (axis : nat) :
  arrs <> [] -> Forall (fun a => shape a = s) arrs -> axis <= length s ->
  exists r, stack arrs axis = Ok r
            /\ shape r = firstn axis s ++ length arrs :: skipn axis s.
Proof.
  intros Hne HF Hax. destruct arrs as [|a0 rest]; [contradiction|].
  inversion HF as [|? ? Ha0 Hrest]; subst.
  unfold stack. rewrite (same_shape_forallb rest (shape a0) Hrest).
  unfold ndim. replace (axis <=? length (shape a0)) with true
    by (symmetry; apply Nat.leb_le; exact Hax).
  eexists. split; reflexivity.
Qed.

Lemma map_nth_seq {B : Type} (g : ndarray A -> B) (arrs : list (ndarray A))
  (a0 : ndarray A) :
  map g arrs = map (fun j => g (nth j arrs a0)) (seq 0 (length arrs)).
Proof.
  rewrite <- (map_map (fun j => nth j arrs a0) g). f_equal.
  symmetry. apply (nth_ext _ _ a0 a0).
  - rewrite length_map, length_seq. reflexivity.
  - intros j Hj. rewrite length_map, length_seq in Hj.
    rewrite (nth_map_in _ _ _ _ 0) by (rewrite length_seq; exact Hj).
    rewrite seq_nth by exact Hj. reflexivity.
Qed.

Lemma firstn_one_skipn (l : list A) (o : nat) (d : A) :
  o < length l -> firstn 1 (skipn o l) = [nth o l d].
Proof.
  revert o. induction l as [|x l IH]; intros o Ho; [cbn in Ho; lia|].
  destruct o as [|o]; [reflexivity|]. cbn [skipn nth]. apply IH. cbn in Ho. lia.
Qed.

(** Stacking along a new last axis: element [o] of array [j] goes to
    position [(o, j)]. *)
Lemma stack_trailing (arrs : list (ndarray A)) (s : list nat) (d : A) (a0 : ndarray A) :
  arrs <> [] -> Forall (fun a => shape a = s /\ wf a) arrs ->
  stack arrs (length s)
  = Ok (mk_nd (s ++ [length arrs])
          (tab2 (prod s) (length arrs) (fun o j => nth o (data (nth j arrs a0)) d))).
Proof.
  intros Hne HF. destruct arrs as [|a1 rest] eqn:Earrs; [contradiction|].
  rewrite <- Earrs in *.
  assert (Hs : Forall (fun a => shape a = s) arrs).
  { eapply Forall_impl; [|exact HF]. intros a [H1 _]. exact H1. }
  assert (Ha1 : shape a1 = s).
  { rewrite Forall_forall in Hs. apply Hs. rewrite Earrs. left. reflexivity. }
  unfold stack. rewrite Earrs at 1.
  assert (Hrest : Forall (fun a => shape a = shape a1) rest).
  { rewrite Earrs in Hs. apply Forall_inv_tail in Hs. rewrite Ha1. exact Hs. }
  rewrite (same_shape_forallb rest (shape a1) Hrest).
  unfold ndim. rewrite Ha1, Nat.leb_refl, firstn_all, skipn_all.
  f_equal. f_equal. unfold tab2. rewrite !flat_map_concat_map. f_equal.
  apply map_ext_in. intros o Ho. apply in_seq in Ho.
  rewrite <- (map_nth_seq (fun a => nth o (data a) d) arrs a0).
  rewrite flat_map_concat_map.
  transitivity (concat (map (fun a => [nth o (data a) d]) arrs)).
  - f_equal. apply map_ext_in. intros a Ha.
    rewrite Forall_forall in HF. destruct (HF a Ha) as [Hsa Hwa].
    cbn [prod fold_right]. rewrite Nat.mul_1_r.
    apply firstn_one_skipn. unfold wf, size in Hwa. rewrite Hwa, Hsa. lia.
  - clear. induction arrs as [|a arrs IH]; [reflexivity|].
    cbn [map concat app]. rewrite IH. reflexivity.
Qed.

End StackFacts.

Section StackPositions.

Context {A : Type}.

Lemma stack_inv (arrs : list (ndarray A)) (axis : nat) (r : ndarray A) :
  stack arrs axis = Ok r ->
  arrs <> []
  /\ exists s, Forall (fun a => shape a = s) arrs /\ axis <= length s.
Proof.
  unfold stack. destruct arrs as [|a1 rest]; [discriminate|].
  destruct (forallb _ rest) eqn:Eall; [|discriminate].
  destruct (axis <=? ndim a1) eqn:Eax; [|discriminate].
  intros _. split; [discriminate|]. exists (shape a1). split.
  - constructor; [reflexivity|]. apply Forall_forall. intros a Ha.
    rewrite forallb_forall in Eall. specialize (Eall a Ha).
    destruct (list_eq_dec Nat.eq_dec (shape a) (shape a1)); [assumption | discriminate].
  - apply Nat.leb_le. exact Eax.
Qed.

(** Where [np.stack] along a new last axis puts the elements of its [j]-th
    argument. *)
Lemma stack_position (arrs : list (ndarray A)) (r : ndarray A) (s : list nat) (d : A)
  (j : nat) (a : ndarray A) :
  stack arrs (length s) = Ok r ->
  Forall wf arrs ->
  nth_error arrs j = Some a -> shape a = s ->
  shape r = s ++ [length arrs]
  /\ forall o, o < prod s -> nth (o * length arrs + j) (data r) d = nth o (data a) d.
Proof.
  intros E Hwf Hj Hs.
  destruct (stack_inv _ _ _ E) as (Hne & s' & Hshapes & _).
  assert (s' = s).
  { rewrite Forall_forall in Hshapes. rewrite <- Hs. symmetry.
    apply Hshapes. exact (nth_error_In _ _ Hj). }
  subst s'.
  assert (HF : Forall (fun a => shape a = s /\ wf a) arrs).
  { apply Forall_forall. intros x Hx. rewrite Forall_forall in Hshapes, Hwf.
    split; [apply Hshapes | apply Hwf]; exact Hx. }
  rewrite (stack_trailing arrs s d a Hne HF) in E.
  injection E as <-. split; [reflexivity|].
  intros o Ho. cbn [data].
  assert (Hjlt : j < length arrs) by (apply nth_error_Some; rewrite Hj; discriminate).
  rewrite nth_tab2 by assumption.
  rewrite (nth_error_nth _ _ _ Hj). reflexivity.
Qed.

End StackPositions.

(** ** Where the per-point results go *)

Section PositionFacts.

Lemma wf_of_list {A : Type} (l : list A) : wf (of_list l).
Proof. unfold wf, size, of_list. cbn. lia. Qed.

Lemma stack_vals_position (ls : list (list R)) (ev : ndarray R) (j i : nat) (l : list R) :
  stack (map of_list ls) 1 = Ok ev ->
  nth_error ls j = Some l -> i < length l ->
  at2 ev i j = nth i l 0%R.
Proof.
  intros E Hj Hi.
  destruct (stack_position (map of_list ls) ev [length l] 0%R j (of_list l) E)
    as [Hsh Hpos].
  - apply Forall_forall. intros a Ha. apply in_map_iff in Ha.
    destruct Ha as (x & <- & _). apply wf_of_list.
  - apply map_nth_error. exact Hj.
  - reflexivity.
  - unfold at2, flat. rewrite Hsh. cbn [app nth].
    apply Hpos. cbn. lia.
Qed.

Lemma assemble_vals_position (bands_only : bool)
  (results : list (HamiltonianObj.point_result bands_only))
  (r : HamiltonianObj.batch_result bands_only) (j i : nat)
  (res : HamiltonianObj.point_result bands_only) :
  assemble bands_only results = Ok r ->
  nth_error results j = Some res -> i < length (point_vals bands_only res) ->
  at2 (batch_vals bands_only r) i j = nth i (point_vals bands_only res) 0%R.
Proof.
  destruct bands_only; cbn [assemble point_vals batch_vals]; intros E Hj Hi.
  - exact (stack_vals_position results r j i res E Hj Hi).
  - rewrite <- (map_map fst of_list) in E.
    destruct (stack (map of_list (map fst results)) 1) as [ev|e] eqn:Ev; [|discriminate E].
    cbn [bind] in E.
    destruct (stack (map (fun res => snd res) results) 2) as [evec|e]; [|discriminate E].
    cbn [bind] in E. injection E as <-. cbn [fst].
    apply (stack_vals_position (map fst results) ev j i (fst res) Ev);
      [apply map_nth_error; exact Hj | exact Hi].
Qed.

Lemma assemble_vecs_position (bands_only : bool)
  (results : list (HamiltonianObj.point_result bands_only))
  (r : HamiltonianObj.batch_result bands_only) (j : nat)
  (res : HamiltonianObj.point_result bands_only) (V evec : ndarray C) (n m a i : nat) :
  assemble bands_only results = Ok r ->
  (forall res' V', In res' results -> point_vecs bands_only res' = Some V' -> wf V') ->
  nth_error results j = Some res ->
  point_vecs bands_only res = Some V -> batch_vecs bands_only r = Some evec ->
  shape V = [n; m] -> a < n -> i < m ->
  at3 evec a i j = at2 V a i.
Proof.
  destruct bands_only; cbn [assemble point_vecs batch_vecs];
    intros E Hwf Hj HV Hevec Hsh Ha Hi; [discriminate HV|].
  injection HV as <-.
  destruct (stack (map (fun res => of_list (fst res)) results) 1) as [ev|e];
    [|discriminate E].
  cbn [bind] in E.
  destruct (stack (map (fun res => snd res) results) 2) as [evec'|e] eqn:Ev;
    [|discriminate E].
  cbn [bind] in E. injection E as <-. cbn [snd] in Hevec. injection Hevec as <-.
  destruct (stack_position (map (fun res => snd res) results) evec' [n; m] C0 j (snd res) Ev)
    as [Hshape Hpos].
  - apply Forall_forall. intros x Hx. apply in_map_iff in Hx.
    destruct Hx as (res' & <- & Hin). exact (Hwf res' (snd res') Hin eq_refl).
  - apply (map_nth_error (fun res => snd res)). exact Hj.
  - exact Hsh.
  - unfold at3, at2, flat. rewrite Hshape, Hsh. cbn [app nth].
    rewrite length_map in Hpos. rewrite length_map.
    apply Hpos. cbn. nia.
Qed.

(** What a returning [diag] has done: it resolved one thread limit, ran
    [process_k] under it on every row of [ks], and stacked the results, the
    result of the [j]-th row at position [j] of the last axis. *)
Lemma diag_positions {K : Type} (sp : scipy K) (env : Py.environ) (blas0 : Z)
  (sched : list nat) (self : HamiltonianObj.t) (ks : ndarray R) (k_process_num : Z)
  (thread_num : option Z) (sparse_calc bands_only : bool) (kwargs : K)
  (r : HamiltonianObj.batch_result bands_only) :
  fst (HamiltonianObj.diag sp env blas0 sched self ks k_process_num thread_num
         sparse_calc bands_only kwargs) = Ok r ->
  exists cap rows results,
    HamiltonianObj.resolve_thread_num env thread_num = Ok cap
    /\ iter ks = Ok rows
    /\ Forall2 (fun k res =>
                  HamiltonianObj.process_k sp self sparse_calc bands_only kwargs cap k
                  = Ok res) rows results
    /\ assemble bands_only results = Ok r
    /\ (forall j res i,
          nth_error results j = Some res ->
          i < length (point_vals bands_only res) ->
          at2 (batch_vals bands_only r) i j = nth i (point_vals bands_only res) 0%R)
    /\ (forall j res V evec n m a i,
          (forall res' V', In res' results ->
                           point_vecs bands_only res' = Some V' -> wf V') ->
          nth_error results j = Some res ->
          point_vecs bands_only res = Some V ->
          batch_vecs bands_only r = Some evec ->
          shape V = [n; m] -> a < n -> i < m ->
          at3 evec a i j = at2 V a i).
Proof.
  rewrite diag_steps.
  destruct (HamiltonianObj.resolve_thread_num env thread_num) as [cap|e];
    cbn [fst]; [|discriminate].
  destruct (iter ks) as [rows|e]; cbn [bind]; [|discriminate].
  set (f := HamiltonianObj.process_k sp self sparse_calc bands_only kwargs cap).
  intros E.
  destruct (if (k_process_num =? 1)%Z then mapM f rows
            else Parallel k_process_num sched f rows) as [results|e] eqn:Erun;
    [|discriminate E].
  cbn [bind] in E. exists cap, rows, results.
  split; [reflexivity|]. split; [reflexivity|]. split.
  { apply mapM_Forall2. destruct (k_process_num =? 1)%Z; [exact Erun|].
    exact (Parallel_inv k_process_num sched f rows results Erun). }
  split; [exact E|]. split.
  - intros j res i Hj Hi. exact (assemble_vals_position _ results r j i res E Hj Hi).
  - intros j res V evec n m a i Hwf Hj HV Hevec Hsh Ha Hi.
    exact (assemble_vecs_position _ results r j res V evec n m a i
             E Hwf Hj HV Hevec Hsh Ha Hi).
Qed.

End PositionFacts.

(** ** C7: the worker count does not change the result *)

Section C7.


End C7.

(** ** The instantaneous pair, and the chain of the specification *)

Section InstantaneousFacts.

Lemma instantaneous_data (self : HamiltonianObj.t) (k : ndarray R) (NR : nat)
  (rest : list nat) :
  0 < NR -> shape k = [3] ->
  shape (HamiltonianObj.Rijk_list self) = [NR; 3] ->
  shape (HamiltonianObj.SR self) = NR :: rest ->
  shape (HamiltonianObj.HR self) = NR :: rest ->
  let k1 := mk_nd [1; 3] (data k) in
  instantaneous self k
  = Ok (mk_nd rest
          (firstn (prod rest)
             (tab2 1 (prod rest)
                (fun i j => bloch_sum k1 (HamiltonianObj.Rijk_list self)
                              (HamiltonianObj.SR self) NR (prod rest) i j))),
        mk_nd rest
          (firstn (prod rest)
             (tab2 1 (prod rest)
                (fun i j => bloch_sum k1 (HamiltonianObj.Rijk_list self)
                              (HamiltonianObj.HR self) NR (prod rest) i j)))).
Proof.
  intros HNR Hk HR HS HH k1. unfold instantaneous.
  rewrite (newaxis0_1d k 3 Hk). cbn [bind]. fold k1.
  rewrite (_r2k_ok k1 _ _ 1 NR rest HNR eq_refl HR HS). cbn [bind].
  rewrite (item_first _ 0 rest) by reflexivity. cbn [bind data].
  rewrite (_r2k_ok k1 _ _ 1 NR rest HNR eq_refl HR HH). cbn [bind].
  rewrite (item_first _ 0 rest) by reflexivity. cbn [bind data].
  reflexivity.
Qed.

Lemma instantaneous_ok (self : HamiltonianObj.t) (k : ndarray R) (NR Nb : nat) :
  0 < NR -> shape k = [3] ->
  shape (HamiltonianObj.Rijk_list self) = [NR; 3] ->
  shape (HamiltonianObj.SR self) = [NR; Nb; Nb] ->
  shape (HamiltonianObj.HR self) = [NR; Nb; Nb] ->
  exists Sk Hk,
    instantaneous self k = Ok (Sk, Hk) /\ shape Sk = [Nb; Nb] /\ shape Hk = [Nb; Nb].
Proof.
  intros HNR Hk HR HS HH.
  rewrite (instantaneous_data self k NR [Nb; Nb] HNR Hk HR HS HH).
  eexists. eexists. split; [reflexivity|]. split; reflexivity.
Qed.

(** At the point 0 every phase is 1. *)
Lemma Phi_at_origin (Rs : ndarray Z) (r : nat) :
  Phi (mk_nd [1; 3] [0; 0; 0]%R) Rs 0 r = C1.
Proof.
  unfold Phi. rewrite <- cis2pi_0. apply cis2pi_eq.
  unfold dot3, at2, flat. cbn. ring.
Qed.

Lemma Phi_chain_half (r : nat) :
  r < 3 ->
  Phi (mk_nd [1; 3] [(1 / 2); 0; 0]%R) chain_Rs 0 r
  = if r =? 1 then C1 else RtoC (-1).
Proof.
  intros Hr. unfold Phi.
  destruct r as [|[|[|r]]]; try lia; cbn [Nat.eqb];
    [rewrite <- cis2pi_neg_half | rewrite <- cis2pi_0 | rewrite <- cis2pi_half];
    apply cis2pi_eq; unfold dot3, at2, flat; cbn; lra.
Qed.

(** The scenario of the specification: at [k = 0] the chain has [S_k = 1] and
    [H_k = -2]; at [k = 1/2] it has [H_k = 2]. *)
Example chain_at_gamma :
  instantaneous chain gamma_k = Ok (mk_nd [1; 1] [RtoC 1], mk_nd [1; 1] [RtoC (-2)]).
Proof.
  rewrite (instantaneous_data chain gamma_k 3 [1; 1]) by (lia || reflexivity).
  change (prod [1; 1]) with 1.
  cbn [tab2 seq flat_map map app firstn Nat.mul Nat.add].
  unfold bloch_sum. cbn [seq map]. rewrite !Phi_at_origin.
  f_equal.
  apply f_equal2; apply f_equal; apply (f_equal (fun x => [x]));
    unfold flat; apply C_eq; cbn; lra.
Qed.

Example chain_at_half :
  instantaneous chain half_k = Ok (mk_nd [1; 1] [RtoC 1], mk_nd [1; 1] [RtoC 2]).
Proof.
  rewrite (instantaneous_data chain half_k 3 [1; 1]) by (lia || reflexivity).
  change (prod [1; 1]) with 1.
  cbn [tab2 seq flat_map map app firstn Nat.mul Nat.add].
  unfold bloch_sum. cbn [seq map].
  change (data half_k) with [(1 / 2); 0; 0]%R.
  rewrite !Phi_chain_half by lia. cbn [Nat.eqb].
  f_equal.
  apply f_equal2; apply f_equal; apply (f_equal (fun x => [x]));
    unfold flat; apply C_eq; cbn; lra.
Qed.

Lemma unit_eig_real (h : R) :
  unit_eig (mk_nd [1; 1] [RtoC h]) (mk_nd [1; 1] [RtoC 1])
  = Ok ([h], mk_nd [1; 1] [C1]).
Proof.
  unfold unit_eig. cbn [shape data RtoC fst snd].
  destruct (Req_dec_T 0 0) as [_|N]; [|contradiction].
  destruct (Req_dec_T 1 1) as [_|N]; [|contradiction].
  reflexivity.
Qed.

(** Its band energy is -2 at [k = 0] and 2 at [k = 1/2], with the dense and
    with the sparse solver. *)
Example chain_bands (sparse_calc : bool) :
  HamiltonianObj.process_k unit_solver chain sparse_calc true tt 1%Z gamma_k = Ok [(-2)%R]
  /\ HamiltonianObj.process_k unit_solver chain sparse_calc true tt 1%Z half_k = Ok [2%R].
Proof.
  destruct sparse_calc;
    rewrite ?process_k_sparse_bands, ?process_k_dense_bands, chain_at_gamma, chain_at_half;
    cbn [bind eigh_eigvals_only eigsh_no_vectors unit_solver];
    rewrite !unit_eig_real; split; reflexivity.
Qed.

(** The two bands through [diag], with one worker and with four, dense and
    sparse: one row for the one orbital, one column per point, in the order of
    the points. *)
Example chain_diag (sparse_calc : bool) (sched : list nat) :
  fst (HamiltonianObj.diag unit_solver no_env 8%Z sched chain two_ks 1 None
         sparse_calc true tt) = Ok (mk_nd [1; 2] [(-2)%R; 2%R])
  /\ fst (HamiltonianObj.diag unit_solver no_env 8%Z sched chain two_ks 4 None
            sparse_calc true tt) = Ok (mk_nd [1; 2] [(-2)%R; 2%R]).
Proof.
  assert (E : mapM (HamiltonianObj.process_k unit_solver chain sparse_calc true tt 1%Z)
                [gamma_k; half_k] = Ok [[(-2)%R]; [2%R]]).
  { destruct (chain_bands sparse_calc) as [E0 E1].
    cbn [mapM]. rewrite E0, E1. reflexivity. }
  rewrite !diag_steps.
  change (HamiltonianObj.resolve_thread_num no_env None) with (@Ok Z 1%Z).
  change (iter two_ks) with (Ok [gamma_k; half_k]).
  cbn [fst bind]. change (1 =? 1)%Z with true. change (4 =? 1)%Z with false. cbv iota.
  rewrite (Parallel_ok 4 sched _ _ _ ltac:(discriminate) E), E.
  split; reflexivity.
Qed.

End InstantaneousFacts.

(** ** C3: the shapes [diag] returns in dense mode *)

Section C3.

Lemma mapM_ext {A B : Type} (f g : A -> result B) (l : list A) :
  (forall x, f x = g x) -> mapM f l = mapM g l.
Proof.
  intros E. induction l as [|x l IH]; [reflexivity|].
  cbn [mapM]. rewrite E, IH. reflexivity.
Qed.

Lemma Parallel_ext {A B : Type} (n_jobs : Z) (sched : list nat) (f g : A -> result B)
  (l : list A) :
  (forall x, f x = g x) -> Parallel n_jobs sched f l = Parallel n_jobs sched g l.
Proof.
  intros E. unfold Parallel, completed.
  rewrite (flat_map_ext _ (fun i => match nth_error l i with
                                    | Some x => [(i, g x)]
                                    | None => []
                                    end)); [reflexivity|].
  intros i. destruct (nth_error l i); [rewrite E|]; reflexivity.
Qed.

Lemma mapM_all {A B : Type} (f : A -> result B) (P : B -> Prop) (l : list A) :
  (forall x, In x l -> exists y, f x = Ok y /\ P y) ->
  exists ys, mapM f l = Ok ys /\ Forall P ys /\ length ys = length l.
Proof.
  induction l as [|x l IH]; intros Hall.
  - exists []. repeat split. constructor.
  - destruct (Hall x (or_introl eq_refl)) as (y & Hy & Py).
    destruct IH as (ys & Hys & Pys & Hlen); [intros z Hz; apply Hall; right; exact Hz|].
    exists (y :: ys). cbn [mapM]. rewrite Hy. cbn [bind]. rewrite Hys. cbn [bind].
    split; [reflexivity|]. split; [constructor; assumption|]. cbn. lia.
Qed.

(** C3, amended: in dense mode, for [Nk >= 1] points of shape [(Nk, 3)], an
    operator of [NR >= 1] displacements and [Nb] orbitals, a worker count other
    than 0, a thread limit that resolves, and a dense solver that returns [Nb]
    eigenvalues and an [(Nb, Nb)] eigenvector matrix at every point of the
    batch: without [bands_only], [diag] returns eigenvalues of shape
    [(Nb, Nk)] and eigenvectors of shape [(Nb, Nb, Nk)]; with [bands_only] it
    returns the [(Nb, Nk)] eigenvalues alone, and that result does not depend
    on the solver calls that compute eigenvectors.  The last axis is the
    axis of the points: position [j] of it holds the result of the [j]-th
    point. *)
Theorem diag_dense_shapes {K : Type} (sp : scipy K) (env : Py.environ) (blas0 : Z)
  (sched : list nat) (self : HamiltonianObj.t) (ks : ndarray R) (k_process_num : Z)
  (thread_num : option Z) (kwargs : K) (Nk NR Nb : nat) (cap : Z) :
  0 < Nk -> 0 < NR ->
  shape ks = [Nk; 3] ->
  shape (HamiltonianObj.Rijk_list self) = [NR; 3] ->
  shape (HamiltonianObj.SR self) = [NR; Nb; Nb] ->
  shape (HamiltonianObj.HR self) = [NR; Nb; Nb] ->
  k_process_num <> 0%Z ->
  HamiltonianObj.resolve_thread_num env thread_num = Ok cap ->
  (forall rows k Sk Hk,
     iter ks = Ok rows -> In k rows -> instantaneous self k = Ok (Sk, Hk) ->
     (exists w v, eigh sp cap Hk Sk = Ok (w, v) /\ length w = Nb /\ shape v = [Nb; Nb])
     /\ (exists w, eigh_eigvals_only sp cap Hk Sk = Ok w /\ length w = Nb)) ->
  (exists eigvals eigvecs,
     fst (HamiltonianObj.diag sp env blas0 sched self ks k_process_num thread_num
            false false kwargs) = Ok (eigvals, eigvecs)
     /\ shape eigvals = [Nb; Nk] /\ shape eigvecs = [Nb; Nb; Nk])
  /\ (exists eigvals,
        fst (HamiltonianObj.diag sp env blas0 sched self ks k_process_num thread_num
               false true kwargs) = Ok eigvals
        /\ shape eigvals = [Nb; Nk])
  /\ (forall sp' : scipy K,
        eigh_eigvals_only sp' = eigh_eigvals_only sp ->
        HamiltonianObj.diag sp' env blas0 sched self ks k_process_num thread_num
          false true kwargs
        = HamiltonianObj.diag sp env blas0 sched self ks k_process_num thread_num
            false true kwargs)
  /\ (forall bands_only r,
        fst (HamiltonianObj.diag sp env blas0 sched self ks k_process_num thread_num
               false bands_only kwargs) = Ok r ->
        exists rows results,
          iter ks = Ok rows
          /\ Forall2 (fun k res =>
                        HamiltonianObj.process_k sp self false bands_only kwargs cap k
                        = Ok res) rows results
          /\ (forall j res i,
                nth_error results j = Some res ->
                i < length (point_vals bands_only res) ->
                at2 (batch_vals bands_only r) i j = nth i (point_vals bands_only res) 0%R)
          /\ (forall j res V evec n m a i,
                (forall res' V', In res' results ->
                                 point_vecs bands_only res' = Some V' -> wf V') ->
                nth_error results j = Some res ->
                point_vecs bands_only res = Some V ->
                batch_vecs bands_only r = Some evec ->
                shape V = [n; m] -> a < n -> i < m ->
                at3 evec a i j = at2 V a i)).
Proof.
  intros HNk HNR Hks HR HS HH Hp Hcap Hsolver.
  pose proof (iter_rows ks Nk [3] Hks) as Hrows.
  set (rows := map (fun i => mk_nd [3] (firstn (prod [3]) (skipn (i * prod [3]) (data ks))))
                   (seq 0 Nk)) in *.
  assert (Hlen : length rows = Nk) by (unfold rows; rewrite length_map, length_seq; reflexivity).
  assert (Hrow : forall k, In k rows ->
            exists Sk Hk, instantaneous self k = Ok (Sk, Hk)).
  { intros k Hk. apply in_map_iff in Hk. destruct Hk as (i & <- & _).
    destruct (instantaneous_ok self
                (mk_nd [3] (firstn (prod [3]) (skipn (i * prod [3]) (data ks))))
                NR Nb HNR eq_refl HR HS HH) as (Sk & Hk & E & _).
    exists Sk, Hk. exact E. }
  assert (Run : forall (b : bool) (f : ndarray R -> result (HamiltonianObj.point_result b))
                       (results : list (HamiltonianObj.point_result b)),
            mapM f rows = Ok results ->
            (if (k_process_num =? 1)%Z then mapM f rows
             else Parallel k_process_num sched f rows) = Ok results).
  { intros b f results E. destruct (k_process_num =? 1)%Z; [exact E|].
    apply Parallel_ok; assumption. }
  split; [|split; [|split]].
  - rewrite diag_steps, Hcap, Hrows. cbn [fst bind].
    destruct (mapM_all (HamiltonianObj.process_k sp self false false kwargs cap)
                (fun res => length (fst res) = Nb /\ shape (snd res) = [Nb; Nb]) rows)
      as (results & Eres & Hres & Hrl).
    { intros k Hk. destruct (Hrow k Hk) as (Sk & Hk' & Einst).
      destruct (proj1 (Hsolver rows k Sk Hk' Hrows Hk Einst)) as (w & v & Ew & Hw & Hv).
      exists (w, v). rewrite process_k_dense_full, Einst. cbn [bind].
      split; [exact Ew | split; assumption]. }
    rewrite (Run false _ results Eres). cbn [bind assemble].
    assert (Hne : results <> []) by (intros ->; cbn in Hrl; lia).
    destruct (stack_shape (map (fun res => of_list (fst res)) results) [Nb] 1)
      as (ev & Eev & Hev).
    { destruct results; [contradiction | discriminate]. }
    { apply Forall_forall. intros a Ha. apply in_map_iff in Ha.
      destruct Ha as (res & <- & Hin). rewrite Forall_forall in Hres.
      cbn [of_list shape]. rewrite (proj1 (Hres res Hin)). reflexivity. }
    { cbn. lia. }
    destruct (stack_shape (map (fun res => snd res) results) [Nb; Nb] 2)
      as (evec & Eevec & Hevec).
    { destruct results; [contradiction | discriminate]. }
    { apply Forall_forall. intros a Ha. apply in_map_iff in Ha.
      destruct Ha as (res & <- & Hin). rewrite Forall_forall in Hres.
      exact (proj2 (Hres res Hin)). }
    { cbn. lia. }
    rewrite Eev. cbn [bind]. rewrite Eevec. cbn [bind].
    exists ev, evec. split; [reflexivity|].
    unfold HamiltonianObj.point_result in Hrl.
    rewrite Hev, Hevec, !length_map, Hrl, Hlen. split; reflexivity.
  - rewrite diag_steps, Hcap, Hrows. cbn [fst bind].
    destruct (mapM_all (HamiltonianObj.process_k sp self false true kwargs cap)
                (fun res => length res = Nb) rows)
      as (results & Eres & Hres & Hrl).
    { intros k Hk. destruct (Hrow k Hk) as (Sk & Hk' & Einst).
      destruct (proj2 (Hsolver rows k Sk Hk' Hrows Hk Einst)) as (w & Ew & Hw).
      exists w. rewrite process_k_dense_bands, Einst. cbn [bind].
      split; [exact Ew | exact Hw]. }
    rewrite (Run true _ results Eres). cbn [bind assemble].
    assert (Hne : results <> []) by (intros ->; cbn in Hrl; lia).
    destruct (stack_shape (map of_list results) [Nb] 1) as (ev & Eev & Hev).
    { destruct results; [contradiction | discriminate]. }
    { apply Forall_forall. intros a Ha. apply in_map_iff in Ha.
      destruct Ha as (res & <- & Hin). rewrite Forall_forall in Hres.
      cbn [of_list shape]. rewrite (Hres res Hin). reflexivity. }
    { cbn. lia. }
    rewrite Eev. exists ev. split; [reflexivity|].
    unfold HamiltonianObj.point_result in Hrl.
    rewrite Hev, !length_map, Hrl, Hlen. reflexivity.
  - intros sp' Hsame. rewrite !diag_steps, Hcap.
    assert (Ef : forall k,
              HamiltonianObj.process_k sp' self false true kwargs cap k
              = HamiltonianObj.process_k sp self false true kwargs cap k).
    { intros k. rewrite !process_k_dense_bands, Hsame. reflexivity. }
    rewrite Hrows. cbn [bind].
    rewrite (mapM_ext _ _ rows Ef), (Parallel_ext k_process_num sched _ _ rows Ef).
    reflexivity.
  - intros bands_only r E.
    destruct (diag_positions sp env blas0 sched self ks k_process_num thread_num
                false bands_only kwargs r E)
      as (cap' & rows' & results & Hc & Hi & HF & _ & Hvals & Hvecs).
    rewrite Hcap in Hc. injection Hc as <-.
    exists rows', results. repeat split; assumption.
Qed.

Lemma iter_two_ks : iter two_ks = Ok [gamma_k; half_k].
Proof. reflexivity. Qed.

Lemma unit_solver_on_chain (rows : list (ndarray R)) (k : ndarray R) (Sk Hk : ndarray C) :
  iter two_ks = Ok rows -> In k rows -> instantaneous chain k = Ok (Sk, Hk) ->
  (exists w v, eigh unit_solver 1%Z Hk Sk = Ok (w, v) /\ length w = 1 /\ shape v = [1; 1])
  /\ (exists w, eigh_eigvals_only unit_solver 1%Z Hk Sk = Ok w /\ length w = 1).
Proof.
  intros Hrows Hin Hinst. rewrite iter_two_ks in Hrows. injection Hrows as <-.
  destruct Hin as [<-|[<-|[]]].
  - rewrite chain_at_gamma in Hinst. injection Hinst as <- <-.
    cbn [eigh eigh_eigvals_only unit_solver]. rewrite unit_eig_real. split.
    + eexists. eexists. split; [reflexivity|]. split; reflexivity.
    + eexists. split; reflexivity.
  - rewrite chain_at_half in Hinst. injection Hinst as <- <-.
    cbn [eigh eigh_eigvals_only unit_solver]. rewrite unit_eig_real. split.
    + eexists. eexists. split; [reflexivity|]. split; reflexivity.
    + eexists. split; reflexivity.
Qed.

Lemma diag_dense_shapes_witness :
  (exists eigvals eigvecs,
     fst (HamiltonianObj.diag unit_solver no_env 8%Z [1; 0] chain two_ks 4 None
            false false tt) = Ok (eigvals, eigvecs)
     /\ shape eigvals = [1; 2] /\ shape eigvecs = [1; 1; 2])
  /\ (exists eigvals,
        fst (HamiltonianObj.diag unit_solver no_env 8%Z [1; 0] chain two_ks 4 None
               false true tt) = Ok eigvals
        /\ shape eigvals = [1; 2])
  /\ (forall sp' : scipy unit,
        eigh_eigvals_only sp' = eigh_eigvals_only unit_solver ->
        HamiltonianObj.diag sp' no_env 8%Z [1; 0] chain two_ks 4 None false true tt
        = HamiltonianObj.diag unit_solver no_env 8%Z [1; 0] chain two_ks 4 None
            false true tt)
  /\ (forall bands_only r,
        fst (HamiltonianObj.diag unit_solver no_env 8%Z [1; 0] chain two_ks 4 None
               false bands_only tt) = Ok r ->
        exists rows results,
          iter two_ks = Ok rows
          /\ Forall2 (fun k res =>
                        HamiltonianObj.process_k unit_solver chain false bands_only tt 1%Z k
                        = Ok res) rows results
          /\ (forall j res i,
                nth_error results j = Some res ->
                i < length (point_vals bands_only res) ->
                at2 (batch_vals bands_only r) i j = nth i (point_vals bands_only res) 0%R)
          /\ (forall j res V evec n m a i,
                (forall res' V', In res' results ->
                                 point_vecs bands_only res' = Some V' -> wf V') ->
                nth_error results j = Some res ->
                point_vecs bands_only res = Some V ->
                batch_vecs bands_only r = Some evec ->
                shape V = [n; m] -> a < n -> i < m ->
                at3 evec a i j = at2 V a i)).
Proof.
  apply (diag_dense_shapes unit_solver no_env 8%Z [1; 0] chain two_ks 4 None tt 2 3 1 1%Z);
    [lia | lia | reflexivity | reflexivity | reflexivity | reflexivity
     | discriminate | reflexivity | exact unit_solver_on_chain].
Defined.

(** C3 as stated fails for an empty batch: with [Nk = 0] points there is no
    array to stack and [np.stack] raises, with [bands_only] and without, where
    the claim has [diag] return arrays of shape [(Nb, 0)] and [(Nb, Nb, 0)]. *)
Lemma diag_empty_batch_raises :
  shape empty_ks = [0; 3] /\ wf empty_ks
  /\ fst (HamiltonianObj.diag unit_solver no_env 8%Z [] chain empty_ks 1 None
            false false tt) = Raise ValueError
  /\ fst (HamiltonianObj.diag unit_solver no_env 8%Z [] chain empty_ks 1 None
            false true tt) = Raise ValueError
  /\ ~ (exists eigvals eigvecs,
          fst (HamiltonianObj.diag unit_solver no_env 8%Z [] chain empty_ks 1 None
                 false false tt) = Ok (eigvals, eigvecs)).
Proof.
  assert (E : forall b, fst (HamiltonianObj.diag unit_solver no_env 8%Z [] chain empty_ks 1
                               None false b tt) = Raise ValueError).
  { intros b. rewrite diag_steps. destruct b; reflexivity. }
  repeat split; try reflexivity; try apply E.
  intros (ev & evec & H). rewrite E in H. discriminate H.
Qed.

End C3.

(** ** C9: the BLAS thread limit of a batch *)

Section C9.



End C9.

(* ================================================================== *)
(** * Further properties of the two files *)

(** ** When the forward transform returns *)

Section ForwardDomain.

Lemma _r2k_cases (ks : ndarray R) (Rs : ndarray Z) (MRs : ndarray C)
  (Nk NR n' : nat) (rest : list nat) :
  shape ks = [Nk; 3] -> shape Rs = [NR; 3] -> shape MRs = n' :: rest ->
  HamiltonianObj._r2k ks Rs MRs
  = if (NR =? 0) || negb ((n' * prod rest) mod NR =? 0)
    then Raise ValueError
    else if Nk * prod rest =? Nk * ((n' * prod rest) / NR)
         then Ok (mk_nd (Nk :: rest)
                    (tab2 Nk ((n' * prod rest) / NR)
                       (fun k j => bloch_sum ks Rs MRs NR ((n' * prod rest) / NR) k j)))
         else Raise ValueError.
Proof.
  intros Hks HRs HM. unfold HamiltonianObj._r2k.
  rewrite (T_2d _ _ _ HRs). cbn [bind].
  rewrite (matmul_2d ks (map_nd IZR _) Nk 3 NR) by (assumption || reflexivity).
  cbn [bind]. rewrite (len_cons _ _ _ HRs). cbn [bind].
  unfold reshape_m1, size. rewrite HM, prod_cons.
  destruct ((NR =? 0) || negb ((n' * prod rest) mod NR =? 0)); [reflexivity|].
  cbn [bind].
  rewrite (matmul_2d (map_nd Cexp _) _ Nk NR ((n' * prod rest) / NR)) by reflexivity.
  cbn [bind]. rewrite (len_cons _ _ _ Hks). cbn [bind].
  unfold reshape, size. cbn [shape tl data]. rewrite !prod_cons.
  cbn [prod fold_right]. rewrite Nat.mul_1_r.
  destruct (Nk * prod rest =? Nk * ((n' * prod rest) / NR)) eqn:E; [|reflexivity].
  f_equal. f_equal. apply tab2_ext. intros k j Hk Hj. unfold bloch_sum.
  apply f_equal, map_ext_in. intros r Hr. apply in_seq in Hr.
  rewrite phase_fwd_entry by (assumption || lia). reflexivity.
Qed.

(** X1.  For points of shape [(Nk, 3)], displacements of shape [(NR, 3)] and
    matrices of shape [(n', ...rest)], [r2k] returns exactly when [NR] is not
    0, [NR] divides the number of matrix elements, and the flattened row
    length agrees with the trailing shape; in every other case it raises
    [ValueError].  In particular a number of matrices other than the number of
    displacements, which the constructor accepts, is refused here as soon as
    there is a point and the matrices are not empty. *)
Theorem r2k_returns_iff (Nk NR n' : nat) (rest : list nat)
  (ks : ndarray R) (Rs : ndarray Z) (MRs : ndarray C) :
  shape ks = [Nk; 3] -> shape Rs = [NR; 3] -> shape MRs = n' :: rest ->
  let op := {| AOMatrixR.Rs := Rs; AOMatrixR.MRs := MRs |} in
  ((exists Mk, AOMatrixR.r2k op ks = Ok Mk)
   <-> (0 < NR /\ (n' * prod rest) mod NR = 0
        /\ Nk * prod rest = Nk * ((n' * prod rest) / NR)))
  /\ (~ (exists Mk, AOMatrixR.r2k op ks = Ok Mk) ->
      AOMatrixR.r2k op ks = Raise ValueError)
  /\ (0 < Nk -> 0 < prod rest -> n' <> NR ->
      AOMatrixR.r2k op ks = Raise ValueError).
Proof.
  intros Hks HRs HM op. unfold op. rewrite r2k_same. cbn [AOMatrixR.Rs AOMatrixR.MRs].
  rewrite (_r2k_cases ks Rs MRs Nk NR n' rest Hks HRs HM).
  assert (Iff : (exists Mk : ndarray C,
                   (if (NR =? 0) || negb ((n' * prod rest) mod NR =? 0)
                    then Raise ValueError
                    else if Nk * prod rest =? Nk * ((n' * prod rest) / NR)
                         then Ok (mk_nd (Nk :: rest)
                                    (tab2 Nk ((n' * prod rest) / NR)
                                       (fun k j => bloch_sum ks Rs MRs NR
                                                     ((n' * prod rest) / NR) k j)))
                         else Raise ValueError) = Ok Mk)
                <-> (0 < NR /\ (n' * prod rest) mod NR = 0
                     /\ Nk * prod rest = Nk * ((n' * prod rest) / NR))).
  { destruct (NR =? 0) eqn:E0; cbn [orb].
    - apply Nat.eqb_eq in E0. split; [intros [Mk H]; discriminate H | intros [H _]; lia].
    - apply Nat.eqb_neq in E0.
      destruct ((n' * prod rest) mod NR =? 0) eqn:E1; cbn [negb].
      + apply Nat.eqb_eq in E1.
        destruct (Nk * prod rest =? Nk * ((n' * prod rest) / NR)) eqn:E2.
        * apply Nat.eqb_eq in E2. split; [intros _; repeat split; (lia || assumption)|].
          intros _. eexists. reflexivity.
        * apply Nat.eqb_neq in E2.
          split; [intros [Mk H]; discriminate H | intros (_ & _ & H); contradiction].
      + apply Nat.eqb_neq in E1.
        split; [intros [Mk H]; discriminate H | intros (_ & H & _); contradiction]. }
  split; [exact Iff|]. split.
  - intros Hno.
    destruct ((NR =? 0) || negb ((n' * prod rest) mod NR =? 0)); [reflexivity|].
    destruct (Nk * prod rest =? Nk * ((n' * prod rest) / NR)); [|reflexivity].
    exfalso. apply Hno. eexists. reflexivity.
  - intros HNk HP Hne.
    destruct ((NR =? 0) || negb ((n' * prod rest) mod NR =? 0)) eqn:E; [reflexivity|].
    destruct (Nk * prod rest =? Nk * ((n' * prod rest) / NR)) eqn:E2; [|reflexivity].
    exfalso. apply Nat.eqb_eq in E2. apply orb_false_iff in E. destruct E as [E0 E1].
    apply Nat.eqb_neq in E0. apply negb_false_iff, Nat.eqb_eq in E1.
    apply Nat.mul_cancel_l in E2; [|lia].
    pose proof (Nat.div_mod_eq (n' * prod rest) NR) as Hdm.
    rewrite E1, Nat.add_0_r, <- E2 in Hdm.
    apply Hne. nia.
Qed.

Lemma r2k_returns_iff_witness :
  let op := {| AOMatrixR.Rs := chain_Rs; AOMatrixR.MRs := misshapen_MRs |} in
  ((exists Mk, AOMatrixR.r2k op gamma_point = Ok Mk)
   <-> (0 < 3 /\ (2 * prod [1; 2]) mod 3 = 0
        /\ 1 * prod [1; 2] = 1 * ((2 * prod [1; 2]) / 3)))
  /\ (~ (exists Mk, AOMatrixR.r2k op gamma_point = Ok Mk) ->
      AOMatrixR.r2k op gamma_point = Raise ValueError)
  /\ (0 < 1 -> 0 < prod [1; 2] -> 2 <> 3 ->
      AOMatrixR.r2k op gamma_point = Raise ValueError).
Proof.
  apply (r2k_returns_iff 1 3 2 [1; 2] gamma_point chain_Rs misshapen_MRs); reflexivity.
Defined.

End ForwardDomain.

(** ** Points that are not rows of three coordinates *)

Section PointShape.

Lemma _r2k_columns (ks : ndarray R) (Rs : ndarray Z) (MRs : ndarray C) (Nk c NR : nat) :
  shape ks = [Nk; c] -> c <> 3 -> shape Rs = [NR; 3] ->
  HamiltonianObj._r2k ks Rs MRs = Raise ValueError.
Proof.
  intros Hks Hc HRs. unfold HamiltonianObj._r2k.
  rewrite (T_2d _ _ _ HRs). cbn [bind].
  unfold matmul. rewrite Hks. cbn [map_nd shape].
  replace (c =? 3) with false by (symmetry; apply Nat.eqb_neq; exact Hc).
  reflexivity.
Qed.

(** X2.  The points must be rows of three coordinates: for displacements of
    shape [(NR, 3)], [r2k] and [_r2k] raise [ValueError] on points of shape
    [(Nk, c)] with [c] other than 3, and [Sk_and_Hk] raises [ValueError] on a
    1-d point of a length other than 3 and on a 0-d point. *)
Theorem points_need_three_coordinates (self : HamiltonianObj.t) (NR : nat) :
  shape (HamiltonianObj.Rijk_list self) = [NR; 3] ->
  (forall ks Nk c,
     shape ks = [Nk; c] -> c <> 3 ->
     HamiltonianObj._r2k ks (HamiltonianObj.Rijk_list self) (HamiltonianObj.HR self)
     = Raise ValueError
     /\ AOMatrixR.r2k {| AOMatrixR.Rs := HamiltonianObj.Rijk_list self;
                         AOMatrixR.MRs := HamiltonianObj.HR self |} ks
        = Raise ValueError
     /\ HamiltonianObj.Sk_and_Hk self ks = Raise ValueError)
  /\ (forall k c,
        shape k = [c] -> c <> 3 -> HamiltonianObj.Sk_and_Hk self k = Raise ValueError)
  /\ (forall k, shape k = [] -> HamiltonianObj.Sk_and_Hk self k = Raise ValueError).
Proof.
  intros HRs. split; [|split].
  - intros ks Nk c Hks Hc.
    pose proof (fun M => _r2k_columns ks _ M Nk c NR Hks Hc HRs) as E.
    split; [apply E|]. split; [rewrite r2k_same; apply E|].
    unfold HamiltonianObj.Sk_and_Hk, ndim. rewrite Hks. cbn [length Nat.eqb bind].
    rewrite E. reflexivity.
  - intros k c Hk Hc.
    unfold HamiltonianObj.Sk_and_Hk, ndim. rewrite Hk. cbn [length Nat.eqb].
    rewrite (newaxis0_1d k c Hk). cbn [bind].
    rewrite (_r2k_columns (mk_nd [1; c] (data k)) _ _ 1 c NR eq_refl Hc HRs).
    reflexivity.
  - intros k Hk.
    unfold HamiltonianObj.Sk_and_Hk, ndim. rewrite Hk. cbn [length Nat.eqb bind].
    unfold HamiltonianObj._r2k. rewrite (T_2d _ _ _ HRs). cbn [bind].
    unfold matmul. rewrite Hk. reflexivity.
Qed.

Lemma points_need_three_coordinates_witness :
  (forall ks Nk c,
     shape ks = [Nk; c] -> c <> 3 ->
     HamiltonianObj._r2k ks (HamiltonianObj.Rijk_list chain) (HamiltonianObj.HR chain)
     = Raise ValueError
     /\ AOMatrixR.r2k {| AOMatrixR.Rs := HamiltonianObj.Rijk_list chain;
                         AOMatrixR.MRs := HamiltonianObj.HR chain |} ks
        = Raise ValueError
     /\ HamiltonianObj.Sk_and_Hk chain ks = Raise ValueError)
  /\ (forall k c,
        shape k = [c] -> c <> 3 -> HamiltonianObj.Sk_and_Hk chain k = Raise ValueError)
  /\ (forall k, shape k = [] -> HamiltonianObj.Sk_and_Hk chain k = Raise ValueError).
Proof. apply (points_need_three_coordinates chain 3). reflexivity. Defined.

End PointShape.

(** ** Symmetries of the forward transform *)

Section ForwardSymmetries.

Local Open Scope R_scope.

Lemma cis2pi_plus (x y : R) : cis2pi (x + y) = Cmult (cis2pi x) (cis2pi y).
Proof.
  unfold cis2pi, Cmult. cbn [fst snd].
  replace (2 * PI * (x + y)) with (2 * PI * x + 2 * PI * y) by ring.
  rewrite cos_plus, sin_plus. apply C_eq; cbn [fst snd]; ring.
Qed.

Lemma cis2pi_nat (n : nat) : cis2pi (INR n) = C1.
Proof.
  unfold cis2pi, C1, RtoC.
  replace (2 * PI * INR n) with (0 + 2 * INR n * PI) by ring.
  rewrite cos_period, sin_period, cos_0, sin_0. reflexivity.
Qed.

Lemma cis2pi_IZR (m : Z) : cis2pi (IZR m) = C1.
Proof.
  destruct (Z_le_gt_dec 0 m) as [Hm|Hm].
  - rewrite <- (Z2Nat.id m Hm), <- INR_IZR_INZ. apply cis2pi_nat.
  - assert (E : cis2pi (IZR m) = Cconj (cis2pi (IZR (- m)))).
    { rewrite cis2pi_conj, opp_IZR, Ropp_involutive. reflexivity. }
    rewrite E, <- (Z2Nat.id (- m)) by lia. rewrite <- INR_IZR_INZ, cis2pi_nat.
    apply C_eq; cbn; ring.
Qed.

Lemma cis2pi_shift (x : R) (m : Z) : cis2pi (x + IZR m) = cis2pi x.
Proof.
  rewrite cis2pi_plus, cis2pi_IZR. apply C_eq; cbn [Cmult C1 RtoC fst snd]; ring.
Qed.

Lemma dot3_terms (ks : ndarray R) (Rs : ndarray Z) (k r : nat) :
  dot3 ks Rs k r
  = at2 ks k 0 * IZR (at2 Rs r 0) + at2 ks k 1 * IZR (at2 Rs r 1)
    + at2 ks k 2 * IZR (at2 Rs r 2).
Proof. unfold dot3. cbn [seq map]. unfold ssum. cbn [fold_right sadd s0 Scalar_R]. ring. Qed.

End ForwardSymmetries.

Section ForwardSymmetryTheorems.

Lemma map_tab2 {A B : Type} (g : A -> B) (n p : nat) (f : nat -> nat -> A) :
  map g (tab2 n p f) = tab2 n p (fun i j => g (f i j)).
Proof.
  unfold tab2. rewrite !flat_map_concat_map, concat_map, !map_map. f_equal.
  apply map_ext. intros i. apply map_map.
Qed.

(** Two transforms that differ only in their phases. *)
Lemma _r2k_same_phases (ks ks' : ndarray R) (Rs Rs' : ndarray Z) (MRs : ndarray C)
  (Nk NR n' : nat) (rest : list nat) :
  shape ks = [Nk; 3] -> shape ks' = [Nk; 3] ->
  shape Rs = [NR; 3] -> shape Rs' = [NR; 3] -> shape MRs = n' :: rest ->
  (forall k r, k < Nk -> r < NR -> Phi ks' Rs' k r = Phi ks Rs k r) ->
  HamiltonianObj._r2k ks' Rs' MRs = HamiltonianObj._r2k ks Rs MRs.
Proof.
  intros Hks Hks' HRs HRs' HM HPhi.
  rewrite (_r2k_cases ks Rs MRs Nk NR n' rest Hks HRs HM).
  rewrite (_r2k_cases ks' Rs' MRs Nk NR n' rest Hks' HRs' HM).
  destruct ((NR =? 0) || negb ((n' * prod rest) mod NR =? 0)); [reflexivity|].
  destruct (Nk * prod rest =? Nk * ((n' * prod rest) / NR)); [|reflexivity].
  f_equal. f_equal. apply tab2_ext. intros k j Hk Hj. unfold bloch_sum.
  apply f_equal, map_ext_in. intros r Hr. apply in_seq in Hr.
  rewrite HPhi by lia. reflexivity.
Qed.

(** X3.  The reciprocal matrices are periodic in the point: moving any
    coordinate of any point by an integer does not change what [r2k]
    returns, because the displacements are integers. *)
Theorem r2k_periodic (Nk NR n' : nat) (rest : list nat)
  (ks ks' : ndarray R) (Rs : ndarray Z) (MRs : ndarray C) :
  shape ks = [Nk; 3] -> shape ks' = [Nk; 3] ->
  shape Rs = [NR; 3] -> shape MRs = n' :: rest ->
  (forall k c, k < Nk -> c < 3 -> exists g : Z, at2 ks' k c = (at2 ks k c + IZR g)%R) ->
  AOMatrixR.r2k {| AOMatrixR.Rs := Rs; AOMatrixR.MRs := MRs |} ks'
  = AOMatrixR.r2k {| AOMatrixR.Rs := Rs; AOMatrixR.MRs := MRs |} ks.
Proof.
  intros Hks Hks' HRs HM Hshift. rewrite !r2k_same. cbn [AOMatrixR.Rs AOMatrixR.MRs].
  apply (_r2k_same_phases ks ks' Rs Rs MRs Nk NR n' rest); try assumption.
  intros k r Hk Hr. unfold Phi. rewrite !dot3_terms.
  destruct (Hshift k 0 Hk ltac:(lia)) as [g0 E0].
  destruct (Hshift k 1 Hk ltac:(lia)) as [g1 E1].
  destruct (Hshift k 2 Hk ltac:(lia)) as [g2 E2].
  rewrite E0, E1, E2.
  match goal with
  | |- cis2pi _ = cis2pi ?b =>
      transitivity
        (cis2pi (b + IZR (g0 * at2 Rs r 0 + g1 * at2 Rs r 1 + g2 * at2 Rs r 2)));
        [|apply cis2pi_shift]
  end.
  apply cis2pi_eq. rewrite !plus_IZR, !mult_IZR. ring.
Qed.

Lemma r2k_periodic_witness :
  AOMatrixR.r2k {| AOMatrixR.Rs := chain_Rs; AOMatrixR.MRs := chain_HR |} shifted_point
  = AOMatrixR.r2k {| AOMatrixR.Rs := chain_Rs; AOMatrixR.MRs := chain_HR |} gamma_point.
Proof.
  apply (r2k_periodic 1 3 3 [1; 1] gamma_point shifted_point chain_Rs chain_HR);
    try reflexivity.
  intros k c Hk Hc. assert (k = 0) by lia. subst k.
  destruct c as [|[|[|c]]]; try lia; unfold at2, flat; cbn;
    [exists 1%Z | exists (-2)%Z | exists 0%Z]; lra.
Defined.

(** X4.  For a real operator the transform at the opposite points is the
    complex conjugate of the transform at the points: [M(-k) = conj(M(k))]. *)
Theorem r2k_opposite_points (Nk NR n' : nat) (rest : list nat)
  (ks ks' : ndarray R) (Rs : ndarray Z) (MRs : ndarray C) :
  shape ks = [Nk; 3] -> shape ks' = [Nk; 3] ->
  shape Rs = [NR; 3] -> shape MRs = n' :: rest ->
  (forall k c, k < Nk -> c < 3 -> at2 ks' k c = (- at2 ks k c)%R) ->
  (forall i, snd (flat MRs i) = 0%R) ->
  AOMatrixR.r2k {| AOMatrixR.Rs := Rs; AOMatrixR.MRs := MRs |} ks'
  = (Mk <- AOMatrixR.r2k {| AOMatrixR.Rs := Rs; AOMatrixR.MRs := MRs |} ks ;;
     Ok (map_nd Cconj Mk)).
Proof.
  intros Hks Hks' HRs HM Hopp Hreal. rewrite !r2k_same. cbn [AOMatrixR.Rs AOMatrixR.MRs].
  rewrite (_r2k_cases ks Rs MRs Nk NR n' rest Hks HRs HM).
  rewrite (_r2k_cases ks' Rs MRs Nk NR n' rest Hks' HRs HM).
  destruct ((NR =? 0) || negb ((n' * prod rest) mod NR =? 0)); [reflexivity|].
  destruct (Nk * prod rest =? Nk * ((n' * prod rest) / NR)); [|reflexivity].
  cbn [bind]. unfold map_nd. cbn [shape data]. f_equal. f_equal.
  rewrite map_tab2. apply tab2_ext. intros k j Hk Hj. unfold bloch_sum.
  rewrite ssum_conj, map_map. apply f_equal, map_ext_in.
  intros r Hr. apply in_seq in Hr. rewrite Cconj_mult. f_equal.
  - unfold Phi. rewrite cis2pi_conj. apply cis2pi_eq. rewrite !dot3_terms.
    rewrite !Hopp by lia. ring.
  - apply C_eq; cbn [Cconj fst snd]; [reflexivity|]. rewrite Hreal. ring.
Qed.

Lemma r2k_opposite_points_witness :
  AOMatrixR.r2k {| AOMatrixR.Rs := two_Rs; AOMatrixR.MRs := two_MRs |}
    (mk_nd [1; 3] [(- (1 / 2)); -0; -0]%R)
  = (Mk <- AOMatrixR.r2k {| AOMatrixR.Rs := two_Rs; AOMatrixR.MRs := two_MRs |}
             (mk_nd [1; 3] [(1 / 2); 0; 0]%R) ;;
     Ok (map_nd Cconj Mk)).
Proof.
  apply (r2k_opposite_points 1 2 2 [1; 1]); try reflexivity.
  - intros k c Hk Hc. assert (k = 0) by lia. subst k.
    destruct c as [|[|[|c]]]; try lia; reflexivity.
  - intros i. unfold flat. destruct i as [|[|i]]; cbn; try reflexivity.
    destruct i; reflexivity.
Defined.

End ForwardSymmetryTheorems.

Section DisplacementSymmetries.

Lemma map_nth_positions {A : Type} (l : list A) (d : A) :
  map (fun i => nth i l d) (seq 0 (length l)) = l.
Proof.
  apply (nth_ext _ _ d d).
  - rewrite length_map, length_seq. reflexivity.
  - intros i Hi. rewrite length_map, length_seq in Hi.
    rewrite (nth_map_in _ _ _ _ 0) by (rewrite length_seq; exact Hi).
    rewrite seq_nth by exact Hi. reflexivity.
Qed.

(** X5.  The order of the displacements does not matter: listing the
    displacements and their matrices in another order gives the same
    transform. *)
Theorem r2k_displacement_order (Nk NR : nat) (rest : list nat) (sigma : list nat)
  (ks : ndarray R) (Rs Rs' : ndarray Z) (MRs MRs' : ndarray C) :
  shape ks = [Nk; 3] ->
  shape Rs = [NR; 3] -> shape Rs' = [NR; 3] ->
  shape MRs = NR :: rest -> shape MRs' = NR :: rest ->
  Permutation sigma (seq 0 NR) ->
  (forall r c, r < NR -> c < 3 -> at2 Rs' r c = at2 Rs (nth r sigma 0) c) ->
  (forall r j, r < NR -> j < prod rest ->
     flat MRs' (r * prod rest + j) = flat MRs (nth r sigma 0 * prod rest + j)) ->
  AOMatrixR.r2k {| AOMatrixR.Rs := Rs'; AOMatrixR.MRs := MRs' |} ks
  = AOMatrixR.r2k {| AOMatrixR.Rs := Rs; AOMatrixR.MRs := MRs |} ks.
Proof.
  intros Hks HRs HRs' HM HM' Hperm HR HMat.
  rewrite !r2k_same. cbn [AOMatrixR.Rs AOMatrixR.MRs].
  destruct NR as [|NR'].
  { rewrite (_r2k_no_displacements Nk ks Rs MRs Hks HRs).
    apply (_r2k_no_displacements Nk ks Rs' MRs' Hks HRs'). }
  set (NR := S NR') in *.
  rewrite (_r2k_ok ks Rs MRs Nk NR rest (Nat.lt_0_succ _) Hks HRs HM).
  rewrite (_r2k_ok ks Rs' MRs' Nk NR rest (Nat.lt_0_succ _) Hks HRs' HM').
  f_equal. f_equal. apply tab2_ext. intros k j Hk Hj. unfold bloch_sum.
  assert (Hlen : length sigma = NR).
  { rewrite (Permutation_length Hperm). apply length_seq. }
  set (g := fun s => Cmult (Phi ks Rs k s) (flat MRs (s * prod rest + j))).
  transitivity (ssum (map g (map (fun r => nth r sigma 0) (seq 0 NR)))).
  - rewrite map_map. apply f_equal, map_ext_in. intros r Hr. apply in_seq in Hr.
    unfold g. rewrite HMat by lia. f_equal.
    unfold Phi. apply cis2pi_eq. rewrite !dot3_terms, !HR by lia. reflexivity.
  - rewrite <- Hlen, map_nth_positions.
    apply ssum_perm, Permutation_map. rewrite Hlen. exact Hperm.
Qed.

Lemma r2k_displacement_order_witness :
  AOMatrixR.r2k {| AOMatrixR.Rs := mk_nd [2; 3] [1; 0; 0;  0; 0; 0]%Z;
                   AOMatrixR.MRs := mk_nd [2; 1; 1] [RtoC (-1); RtoC 3] |} two_ks
  = AOMatrixR.r2k {| AOMatrixR.Rs := two_Rs; AOMatrixR.MRs := two_MRs |} two_ks.
Proof.
  apply (r2k_displacement_order 2 2 [1; 1] [1; 0]); try reflexivity.
  - apply perm_swap.
  - intros r c Hr Hc.
    destruct r as [|[|r]]; try lia;
      destruct c as [|[|[|c]]]; try lia; reflexivity.
  - intros r j Hr Hj. cbn in Hj. assert (j = 0) by lia. subst j.
    destruct r as [|[|r]]; try lia; reflexivity.
Defined.

(** X6.  Moving every displacement by one integer vector [t] multiplies the
    matrix at each point [k] by the phase [exp(i 2 pi k . t)]. *)
Theorem r2k_shifted_displacements (Nk NR : nat) (rest : list nat) (t0 t1 t2 : Z)
  (ks : ndarray R) (Rs Rs' : ndarray Z) (MRs : ndarray C) :
  0 < NR ->
  shape ks = [Nk; 3] -> shape Rs = [NR; 3] -> shape Rs' = [NR; 3] ->
  shape MRs = NR :: rest ->
  (forall r, r < NR ->
     at2 Rs' r 0 = (at2 Rs r 0 + t0)%Z /\ at2 Rs' r 1 = (at2 Rs r 1 + t1)%Z
     /\ at2 Rs' r 2 = (at2 Rs r 2 + t2)%Z) ->
  exists Mk Mk',
    AOMatrixR.r2k {| AOMatrixR.Rs := Rs; AOMatrixR.MRs := MRs |} ks = Ok Mk
    /\ AOMatrixR.r2k {| AOMatrixR.Rs := Rs'; AOMatrixR.MRs := MRs |} ks = Ok Mk'
    /\ shape Mk' = shape Mk
    /\ forall k j, k < Nk -> j < prod rest ->
         flat Mk' (k * prod rest + j)
         = Cmult (cis2pi (at2 ks k 0 * IZR t0 + at2 ks k 1 * IZR t1 + at2 ks k 2 * IZR t2))
             (flat Mk (k * prod rest + j)).
Proof.
  intros HNR Hks HRs HRs' HM Hshift.
  rewrite !r2k_same. cbn [AOMatrixR.Rs AOMatrixR.MRs].
  rewrite (_r2k_ok ks Rs MRs Nk NR rest HNR Hks HRs HM).
  rewrite (_r2k_ok ks Rs' MRs Nk NR rest HNR Hks HRs' HM).
  eexists. eexists. split; [reflexivity|]. split; [reflexivity|]. split; [reflexivity|].
  intros k j Hk Hj. unfold flat at 1 2. cbn [data].
  rewrite !nth_tab2 by assumption. unfold bloch_sum.
  rewrite ssum_mult_l, map_map. apply f_equal, map_ext_in.
  intros r Hr. apply in_seq in Hr. rewrite Cmult_assoc. f_equal.
  unfold Phi. rewrite <- cis2pi_plus. apply cis2pi_eq. rewrite !dot3_terms.
  destruct (Hshift r ltac:(lia)) as (E0 & E1 & E2).
  rewrite E0, E1, E2, !plus_IZR. ring.
Qed.

Lemma r2k_shifted_displacements_witness :
  exists Mk Mk',
    AOMatrixR.r2k {| AOMatrixR.Rs := two_Rs; AOMatrixR.MRs := two_MRs |} two_ks = Ok Mk
    /\ AOMatrixR.r2k {| AOMatrixR.Rs := mk_nd [2; 3] [1; 0; 0;  2; 0; 0]%Z;
                        AOMatrixR.MRs := two_MRs |} two_ks = Ok Mk'
    /\ shape Mk' = shape Mk
    /\ forall k j, k < 2 -> j < prod [1; 1] ->
         flat Mk' (k * prod [1; 1] + j)
         = Cmult (cis2pi (at2 two_ks k 0 * IZR 1 + at2 two_ks k 1 * IZR 0
                          + at2 two_ks k 2 * IZR 0))
             (flat Mk (k * prod [1; 1] + j)).
Proof.
  apply (r2k_shifted_displacements 2 2 [1; 1] 1 0 0); try reflexivity; [lia|].
  intros r Hr. destruct r as [|[|r]]; try lia; repeat split; reflexivity.
Defined.

End DisplacementSymmetries.

(** ** The inverse transform: weights and symmetry *)

Section InverseProperties.

Lemma multiply_scalar_col {A : Type} `{Scalar A} (a b : ndarray A) (n m : nat) :
  shape a = [n; m] -> shape b = [1; 1] ->
  multiply a b
  = Ok (mk_nd [n; m] (tab2 n m (fun i j => smul (flat a (i * m + j)) (flat b 0)))).
Proof.
  intros Ha Hb. unfold multiply, bdim. rewrite Ha, Hb. cbn [Nat.eqb].
  assert (E1 : (if n =? 1 then Ok n else if n =? 1 then Ok 1 else Ok n) = Ok n :> result nat)
    by (destruct (n =? 1); reflexivity).
  assert (E2 : (if m =? 1 then Ok m else if m =? 1 then Ok 1 else Ok m) = Ok m :> result nat)
    by (destruct (m =? 1); reflexivity).
  rewrite E1. cbn [bind]. rewrite E2. cbn [bind]. f_equal. f_equal.
  apply tab2_ext. intros i j Hi Hj.
  destruct (n =? 1) eqn:En; destruct (m =? 1) eqn:Em;
    try apply Nat.eqb_eq in En; try apply Nat.eqb_eq in Em;
    f_equal; f_equal; lia.
Qed.

(** The first steps of [k2r], up to the product with the weights. *)
Lemma k2r_steps (ks : ndarray R) (MKs : ndarray C) (Rs : ndarray Z) (w : list R)
  (Nk NR : nat) (rest : list nat) :
  0 < Nk -> shape ks = [Nk; 3] -> shape Rs = [NR; 3] -> shape MKs = Nk :: rest ->
  AOMatrixK.k2r {| AOMatrixK.ks := ks; AOMatrixK.MKs := MKs |} Rs (Some w)
  = (scaled <- multiply (mk_nd [Nk; prod rest] (data MKs))
                 (map_nd RtoC (mk_nd [length w; 1] w)) ;;
     MRs_flat <- matmul
                   (map_nd Cexp
                      (map_nd (fun x => Cmult (Cmult neg_two_j (RtoC PI)) (RtoC x))
                         (mk_nd [NR; Nk]
                            (tab2 NR Nk (fun i j =>
                               ssum (map (fun l =>
                                            smul (flat (map_nd IZR Rs) (i * 3 + l))
                                              (flat (mk_nd [3; Nk]
                                                       (tab2 3 Nk
                                                          (fun j i => flat ks (i * 3 + j))))
                                                    (l * Nk + j)))
                                         (seq 0 3)))))))
                   scaled ;;
     reshape MRs_flat (NR :: rest)).
Proof.
  intros HNk Hks HRs HM.
  unfold AOMatrixK.k2r. cbn [bind AOMatrixK.ks AOMatrixK.MKs].
  rewrite (T_2d _ _ _ Hks). cbn [bind].
  rewrite (matmul_2d (map_nd IZR Rs) _ NR 3 Nk) by (assumption || reflexivity).
  cbn [bind]. rewrite (len_cons _ _ _ Hks). cbn [bind].
  rewrite (reshape_m1_ok MKs Nk (prod rest))
    by (assumption || (unfold size; rewrite HM; reflexivity)).
  cbn [bind]. unfold column, of_list. cbn [shape data bind].
  rewrite (len_cons _ _ _ HRs), HM. reflexivity.
Qed.

(** X7.  The weights of [k2r] follow numpy's broadcasting: on [Nk >= 1]
    points a single weight is used for every point, and a number of weights
    that is neither [Nk] nor 1 raises [ValueError]. *)
Theorem k2r_weights_length (Nk NR : nat) (rest : list nat)
  (ks : ndarray R) (Rs : ndarray Z) (MKs : ndarray C) :
  0 < Nk ->
  shape ks = [Nk; 3] -> shape Rs = [NR; 3] -> shape MKs = Nk :: rest ->
  let self := {| AOMatrixK.ks := ks; AOMatrixK.MKs := MKs |} in
  (forall x, AOMatrixK.k2r self Rs (Some [x]) = AOMatrixK.k2r self Rs (Some (repeat x Nk)))
  /\ (forall w, length w <> Nk -> length w <> 1 ->
                AOMatrixK.k2r self Rs (Some w) = Raise ValueError).
Proof.
  intros HNk Hks HRs HM self. unfold self. split.
  - intros x.
    rewrite (k2r_ok ks MKs Rs (repeat x Nk) Nk NR rest HNk Hks HRs HM (repeat_length x Nk)).
    rewrite (k2r_steps ks MKs Rs [x] Nk NR rest HNk Hks HRs HM).
    rewrite (multiply_scalar_col _ (map_nd RtoC _) Nk (prod rest)) by reflexivity.
    cbn [bind].
    rewrite (matmul_2d (map_nd Cexp _) _ NR Nk (prod rest)) by reflexivity.
    cbn [bind].
    rewrite reshape_ok
      by (unfold size; cbn [shape]; rewrite !prod_cons; cbn [prod fold_right]; lia).
    cbn [data]. f_equal. f_equal.
    apply tab2_ext. intros r j Hr Hj. unfold inverse_sum.
    apply f_equal, map_ext_in. intros k Hk. apply in_seq in Hk.
    rewrite phase_inv_entry by (assumption || lia).
    cbn [smul Scalar_C]. f_equal.
    unfold flat at 1. cbn [data]. rewrite nth_tab2 by lia.
    cbn [smul Scalar_C]. f_equal.
    rewrite nth_repeat_lt by lia. reflexivity.
  - intros w Hw1 Hw2.
    rewrite (k2r_steps ks MKs Rs w Nk NR rest HNk Hks HRs HM).
    unfold multiply, bdim. cbn [shape map_nd].
    replace (Nk =? length w) with false by (symmetry; apply Nat.eqb_neq; lia).
    replace (length w =? 1) with false by (symmetry; apply Nat.eqb_neq; lia).
    destruct (Nk =? 1) eqn:E1; [|reflexivity].
    apply Nat.eqb_eq in E1. cbn [bind].
    assert (E2 : (if prod rest =? 1 then Ok (prod rest)
                  else if prod rest =? 1 then Ok 1
                       else if 1 =? 1 then Ok (prod rest) else Raise ValueError)
                 = Ok (prod rest) :> result nat)
      by (destruct (prod rest =? 1); reflexivity).
    rewrite E2. cbn [bind]. unfold matmul. cbn [shape map_nd].
    replace (Nk =? length w) with false by (symmetry; apply Nat.eqb_neq; lia).
    reflexivity.
Qed.

Lemma k2r_weights_length_witness :
  let self := {| AOMatrixK.ks := two_ks;
                 AOMatrixK.MKs := mk_nd [2; 1; 1] [RtoC 3; RtoC (-1)] |} in
  (forall x, AOMatrixK.k2r self two_Rs (Some [x])
             = AOMatrixK.k2r self two_Rs (Some (repeat x 2)))
  /\ (forall w, length w <> 2 -> length w <> 1 ->
                AOMatrixK.k2r self two_Rs (Some w) = Raise ValueError).
Proof.
  apply (k2r_weights_length 2 2 [1; 1] two_ks two_Rs); (lia || reflexivity).
Defined.

End InverseProperties.

Section InverseSymmetry.

Lemma k2r_entries (Nk NR Nb : nat) (ks : ndarray R) (Rs : ndarray Z) (MKs : ndarray C)
  (w : list R) :
  0 < Nk ->
  shape ks = [Nk; 3] -> shape Rs = [NR; 3] -> shape MKs = [Nk; Nb; Nb] ->
  length w = Nk ->
  exists MR,
    AOMatrixK.k2r {| AOMatrixK.ks := ks; AOMatrixK.MKs := MKs |} Rs (Some w) = Ok MR
    /\ shape MR = [NR; Nb; Nb]
    /\ forall r a b, r < NR -> a < Nb -> b < Nb ->
         at3 MR r a b
         = ssum (map (fun k => Cmult (PhiInv Rs ks r k)
                                 (Cmult (at3 MKs k a b) (RtoC (nth k w 0%R))))
                     (seq 0 Nk)).
Proof.
  intros HNk Hks HRs HM Hw.
  rewrite (k2r_ok ks MKs Rs w Nk NR [Nb; Nb] HNk Hks HRs HM Hw).
  assert (HP : prod [Nb; Nb] = Nb * Nb) by (cbn; lia).
  rewrite HP. eexists. split; [reflexivity|]. split; [reflexivity|].
  intros r a b Hr Ha Hb. unfold at3 at 1. cbn [shape nth].
  replace ((r * Nb + a) * Nb + b) with (r * (Nb * Nb) + (a * Nb + b)) by lia.
  unfold flat. cbn [data]. rewrite nth_tab2 by (assumption || nia).
  unfold inverse_sum. apply f_equal, map_ext. intros k. f_equal. f_equal.
  unfold at3. rewrite HM. cbn [nth]. unfold flat. f_equal. lia.
Qed.

Lemma PhiInv_opposite (Rs : ndarray Z) (ks : ndarray R) (r r' k : nat) :
  (forall c, c < 3 -> at2 Rs r' c = (- at2 Rs r c)%Z) ->
  PhiInv Rs ks r' k = Cconj (PhiInv Rs ks r k).
Proof.
  intros Hopp. unfold PhiInv. rewrite cis2pi_conj. apply cis2pi_eq.
  unfold dot3_inv. cbn [seq map]. unfold ssum. cbn [fold_right sadd s0 Scalar_R].
  rewrite !Hopp by lia. rewrite !opp_IZR. ring.
Qed.

(** With the weights given or omitted, the inverse transform of Hermitian
    matrices carries the conjugate transpose at the opposite displacement. *)
Lemma k2r_of_hermitian_cases (Nk NR Nb : nat) (ks : ndarray R) (Rs : ndarray Z)
  (MKs : ndarray C) (w : list R) :
  0 < Nk ->
  shape ks = [Nk; 3] -> shape Rs = [NR; 3] -> shape MKs = [Nk; Nb; Nb] ->
  length w = Nk ->
  (forall k a b, k < Nk -> a < Nb -> b < Nb -> at3 MKs k a b = Cconj (at3 MKs k b a)) ->
  let self := {| AOMatrixK.ks := ks; AOMatrixK.MKs := MKs |} in
  forall weights, weights = Some w \/ weights = None ->
    exists MR,
      AOMatrixK.k2r self Rs weights = Ok MR
      /\ forall r r' a b, r < NR -> r' < NR -> a < Nb -> b < Nb ->
           (forall c, c < 3 -> at2 Rs r' c = (- at2 Rs r c)%Z) ->
           at3 MR r' a b = Cconj (at3 MR r b a).
Proof.
  intros HNk Hks HRs HM Hw Hherm self weights Hweights.
  assert (Main : forall w0, length w0 = Nk ->
            exists MR,
              AOMatrixK.k2r self Rs (Some w0) = Ok MR
              /\ forall r r' a b, r < NR -> r' < NR -> a < Nb -> b < Nb ->
                   (forall c, c < 3 -> at2 Rs r' c = (- at2 Rs r c)%Z) ->
                   at3 MR r' a b = Cconj (at3 MR r b a)).
  { intros w0 Hw0.
    destruct (k2r_entries Nk NR Nb ks Rs MKs w0 HNk Hks HRs HM Hw0) as (MR & E & _ & Hat).
    exists MR. split; [exact E|].
    intros r r' a b Hr Hr' Ha Hb Hopp.
    rewrite !Hat by assumption. rewrite ssum_conj, map_map.
    apply f_equal, map_ext_in. intros k Hk. apply in_seq in Hk.
    rewrite !Cconj_mult, <- (PhiInv_opposite Rs ks r r' k Hopp).
    rewrite <- (Hherm k a b) by (lia || assumption).
    f_equal. f_equal. apply C_eq; cbn; ring. }
  destruct Hweights as [-> | ->].
  - exact (Main w Hw).
  - rewrite (k2r_default self Rs Nk [3] Hks).
    exact (Main (uniform_weights Nk) (length_uniform_weights Nk)).
Qed.

(** X8.  The inverse transform of Hermitian matrices is symmetric on the
    lattice: for [Nk >= 1] points, Hermitian reciprocal matrices and one real
    weight per point, [k2r] returns, and the matrix it returns at a
    displacement [-R] is the conjugate transpose of the matrix it returns at
    [R]; the same holds with the weights omitted. *)
Theorem k2r_of_hermitian (Nk NR Nb : nat) (ks : ndarray R) (Rs : ndarray Z)
  (MKs : ndarray C) (w : list R) :
  0 < Nk ->
  shape ks = [Nk; 3] -> shape Rs = [NR; 3] -> shape MKs = [Nk; Nb; Nb] ->
  length w = Nk ->
  (forall k a b, k < Nk -> a < Nb -> b < Nb -> at3 MKs k a b = Cconj (at3 MKs k b a)) ->
  let self := {| AOMatrixK.ks := ks; AOMatrixK.MKs := MKs |} in
  (exists MR,
     AOMatrixK.k2r self Rs (Some w) = Ok MR
     /\ forall r r' a b, r < NR -> r' < NR -> a < Nb -> b < Nb ->
          (forall c, c < 3 -> at2 Rs r' c = (- at2 Rs r c)%Z) ->
          at3 MR r' a b = Cconj (at3 MR r b a))
  /\ (exists MR,
        AOMatrixK.k2r self Rs None = Ok MR
        /\ forall r r' a b, r < NR -> r' < NR -> a < Nb -> b < Nb ->
             (forall c, c < 3 -> at2 Rs r' c = (- at2 Rs r c)%Z) ->
             at3 MR r' a b = Cconj (at3 MR r b a)).
Proof.
  intros HNk Hks HRs HM Hw Hherm self.
  split.
  - exact (k2r_of_hermitian_cases Nk NR Nb ks Rs MKs w HNk Hks HRs HM Hw Hherm
             (Some w) (or_introl eq_refl)).
  - exact (k2r_of_hermitian_cases Nk NR Nb ks Rs MKs w HNk Hks HRs HM Hw Hherm
             None (or_intror eq_refl)).
Qed.

Lemma k2r_of_hermitian_witness :
  let self := {| AOMatrixK.ks := gamma_point; AOMatrixK.MKs := gamma_MKs |} in
  (exists MR,
     AOMatrixK.k2r self chain_Rs (Some [1%R]) = Ok MR
     /\ forall r r' a b, r < 3 -> r' < 3 -> a < 1 -> b < 1 ->
          (forall c, c < 3 -> at2 chain_Rs r' c = (- at2 chain_Rs r c)%Z) ->
          at3 MR r' a b = Cconj (at3 MR r b a))
  /\ (exists MR,
        AOMatrixK.k2r self chain_Rs None = Ok MR
        /\ forall r r' a b, r < 3 -> r' < 3 -> a < 1 -> b < 1 ->
             (forall c, c < 3 -> at2 chain_Rs r' c = (- at2 chain_Rs r c)%Z) ->
             at3 MR r' a b = Cconj (at3 MR r b a)).
Proof.
  apply (k2r_of_hermitian 1 3 1 gamma_point chain_Rs gamma_MKs [1%R]);
    try (lia || reflexivity).
  intros k a b Hk Ha Hb.
  assert (k = 0) by lia. assert (a = 0) by lia. assert (b = 0) by lia. subst.
  apply C_eq; cbn; lra.
Defined.

End InverseSymmetry.

(** ** The forward transform undoes the inverse transform *)

Section ReverseRoundTrip.

Lemma reverse_round_trip_entry (ks : ndarray R) (Rs : ndarray Z) (MKs : ndarray C)
  (w : list R) (sh : list nat) (Nk NR M k j : nat) :
  right_inverse ks Rs w Nk NR -> k < Nk -> j < M ->
  bloch_sum ks Rs
    (mk_nd sh (tab2 NR M (fun r j => inverse_sum Rs ks MKs w Nk M r j)))
    NR M k j
  = flat MKs (k * M + j).
Proof.
  intros HR Hk Hj. unfold bloch_sum.
  transitivity
    (ssum (map (fun r =>
             ssum (map (fun k' =>
                     Cmult (Cmult (Phi ks Rs k r)
                              (Cmult (PhiInv Rs ks r k') (RtoC (nth k' w 0%R))))
                           (flat MKs (k' * M + j)))
                   (seq 0 Nk)))
          (seq 0 NR))).
  { apply f_equal, map_ext_in. intros r Hr. apply in_seq in Hr.
    unfold flat at 1. cbn [data]. rewrite nth_tab2 by lia.
    unfold inverse_sum. rewrite ssum_mult_l, !map_map.
    apply f_equal, map_ext. intros k'.
    apply C_eq; cbn [Cmult fst snd RtoC]; ring. }
  rewrite ssum_swap.
  transitivity
    (ssum (map (fun k' => Cmult (if k =? k' then C1 else C0) (flat MKs (k' * M + j)))
               (seq 0 Nk))).
  { apply f_equal, map_ext_in. intros k' Hk'. apply in_seq in Hk'.
    rewrite <- (HR k k') by lia.
    rewrite ssum_mult_r, map_map. reflexivity. }
  apply (ssum_delta (fun k' => flat MKs (k' * M + j))). exact Hk.
Qed.

(** X9.  For [Nk >= 1] points with one weight each, whose weighted inverse
    phases are a right inverse of the forward phases (a full grid of points
    for the displacement set), [AOMatrixR(Rs, opk.k2r(Rs, w)).r2k(ks)] returns
    the reciprocal matrices [opk.MKs] it started from. *)
Theorem r2k_k2r_round_trip (Nk NR Nb : nat) (ks : ndarray R) (Rs : ndarray Z)
  (MKs : ndarray C) (w : list R) :
  0 < Nk ->
  shape ks = [Nk; 3] -> shape Rs = [NR; 3] -> shape MKs = [Nk; Nb; Nb] -> wf MKs ->
  length w = Nk ->
  right_inverse ks Rs w Nk NR ->
  (opk <- AOMatrixK.__init__ ks MKs ;;
   MRs <- AOMatrixK.k2r opk Rs (Some w) ;;
   op <- AOMatrixR.__init__ Rs MRs ;;
   AOMatrixR.r2k op (AOMatrixK.ks opk))
  = Ok MKs.
Proof.
  intros HNk Hks HRs HM Hwf Hw HR.
  assert (HNR : 0 < NR).
  { destruct NR as [|NR']; [|lia]. specialize (HR 0 0 HNk HNk). cbn in HR.
    apply (f_equal fst) in HR. cbn in HR. lra. }
  unfold AOMatrixR.__init__, AOMatrixK.__init__. cbn [bind AOMatrixK.ks].
  rewrite (k2r_ok ks MKs Rs w Nk NR [Nb; Nb] HNk Hks HRs HM Hw). cbn [bind].
  rewrite r2k_same. cbn [AOMatrixR.Rs AOMatrixR.MRs].
  match goal with
  | |- HamiltonianObj._r2k _ _ ?m = _ =>
      rewrite (_r2k_ok ks Rs m Nk NR [Nb; Nb] HNR Hks HRs eq_refl)
  end.
  destruct MKs as [sh d]. cbn [shape] in HM. subst sh.
  unfold wf, size in Hwf. cbn [shape data] in Hwf.
  f_equal. f_equal.
  set (M := prod [Nb; Nb]) in *.
  transitivity (tab2 Nk M (fun i j => nth (i * M + j) d C0));
    [|apply tab2_nth; rewrite Hwf; reflexivity].
  apply tab2_ext. intros k j Hk Hj.
  exact (reverse_round_trip_entry ks Rs (mk_nd [Nk; Nb; Nb] d) w _ Nk NR M k j HR Hk Hj).
Qed.

Lemma Phi_two_points (k q : nat) :
  k < 2 -> q < 2 ->
  Phi two_ks two_Rs k q = if (k =? 1) && (q =? 1) then RtoC (-1) else C1.
Proof.
  intros Hk Hq. unfold Phi.
  destruct k as [|[|k]]; destruct q as [|[|q]]; try lia; cbn [Nat.eqb andb];
    [rewrite <- cis2pi_0 | rewrite <- cis2pi_0 | rewrite <- cis2pi_0
     | rewrite <- cis2pi_half];
    apply cis2pi_eq; unfold dot3, at2, flat; cbn; lra.
Qed.

Lemma PhiInv_two_points (q k : nat) :
  k < 2 -> q < 2 ->
  PhiInv two_Rs two_ks q k = if (k =? 1) && (q =? 1) then RtoC (-1) else C1.
Proof.
  intros Hk Hq. unfold PhiInv.
  destruct k as [|[|k]]; destruct q as [|[|q]]; try lia; cbn [Nat.eqb andb];
    [rewrite <- cis2pi_0 | rewrite <- cis2pi_0 | rewrite <- cis2pi_0
     | rewrite <- cis2pi_neg_half];
    apply cis2pi_eq; unfold dot3_inv, at2, flat; cbn; lra.
Qed.

Lemma two_points_right_inverse : right_inverse two_ks two_Rs [(1 / 2)%R; (1 / 2)%R] 2 2.
Proof.
  intros k k' Hk Hk'. cbn [seq map]. rewrite !ssum_cons, ssum_nil.
  rewrite !Phi_two_points, !PhiInv_two_points by lia.
  destruct k as [|[|k]]; destruct k' as [|[|k']]; try lia;
    cbn [Nat.eqb andb nth]; apply C_eq; cbn; lra.
Qed.

Lemma r2k_k2r_round_trip_witness :
  (opk <- AOMatrixK.__init__ two_ks two_MRs ;;
   MRs <- AOMatrixK.k2r opk two_Rs (Some [(1 / 2)%R; (1 / 2)%R]) ;;
   op <- AOMatrixR.__init__ two_Rs MRs ;;
   AOMatrixR.r2k op (AOMatrixK.ks opk))
  = Ok two_MRs.
Proof.
  apply (r2k_k2r_round_trip 2 2 1 two_ks two_Rs two_MRs [(1 / 2)%R; (1 / 2)%R]);
    [lia | reflexivity | reflexivity | reflexivity | reflexivity | reflexivity
     | exact two_points_right_inverse].
Defined.

End ReverseRoundTrip.

(** ** A batch of points is evaluated point by point *)

Section BatchRows.

Lemma tab2_row {A : Type} (N M j : nat) (f : nat -> nat -> A) :
  j < N -> firstn M (skipn (j * M) (tab2 N M f)) = map (f j) (seq 0 M).
Proof.
  intros Hj.
  destruct (map (f j) (seq 0 M)) as [|d0 l0] eqn:El.
  { destruct M; [|discriminate El]. reflexivity. }
  rewrite <- El. clear El l0.
  apply (nth_ext _ _ d0 d0).
  - rewrite length_firstn, length_skipn, length_tab2, length_map, length_seq. nia.
  - intros x Hx. rewrite length_firstn, length_skipn, length_tab2 in Hx.
    assert (HxM : x < M) by lia.
    rewrite nth_firstn. replace (x <? M) with true by (symmetry; apply Nat.ltb_lt; exact HxM).
    rewrite nth_skipn, nth_tab2 by assumption.
    rewrite (nth_map_in (f j) (seq 0 M) x d0 0) by (rewrite length_seq; exact HxM).
    rewrite seq_nth by exact HxM. reflexivity.
Qed.

Lemma row_phase (ks : ndarray R) (Rs : ndarray Z) (Nk j r : nat) :
  shape ks = [Nk; 3] ->
  Phi (mk_nd [1; 3] (firstn 3 (skipn (j * 3) (data ks)))) Rs 0 r = Phi ks Rs j r.
Proof.
  intros Hks. unfold Phi, dot3. do 2 f_equal.
  apply map_ext_in. intros c Hc. apply in_seq in Hc. f_equal.
  unfold at2, flat. rewrite Hks. cbn [shape data nth].
  rewrite nth_firstn. replace (0 * 3 + c <? 3) with true by (symmetry; apply Nat.ltb_lt; lia).
  rewrite nth_skipn. reflexivity.
Qed.

Lemma _r2k_leading (ks : ndarray R) (Rs : ndarray Z) (M Mk : ndarray C) (n : nat)
  (rest : list nat) :
  shape ks = n :: rest -> HamiltonianObj._r2k ks Rs M = Ok Mk ->
  shape Mk = n :: tl (shape M).
Proof.
  intros Hks E. unfold HamiltonianObj._r2k in E.
  destruct (T Rs) as [RsT|e]; cbn [bind] in E; [|discriminate E].
  destruct (matmul ks _) as [kR|e]; cbn [bind] in E; [|discriminate E].
  destruct (len Rs) as [nR|e]; cbn [bind] in E; [|discriminate E].
  destruct (reshape_m1 M nR) as [Mf|e]; cbn [bind] in E; [|discriminate E].
  destruct (matmul _ Mf) as [Mkf|e]; cbn [bind] in E; [|discriminate E].
  rewrite (len_cons ks n rest Hks) in E. cbn [bind] in E.
  unfold reshape in E. destruct (_ =? _); [|discriminate E].
  injection E as <-. reflexivity.
Qed.

(** For a 1-d point, [Sk_and_Hk] returns the pair [process_k] builds. *)
Lemma Sk_and_Hk_point (self : HamiltonianObj.t) (k : ndarray R) :
  ndim k = 1 -> HamiltonianObj.Sk_and_Hk self k = instantaneous self k.
Proof.
  intros Hnd. unfold ndim in Hnd.
  destruct (shape k) as [|n [|m sh]] eqn:Hsh; try discriminate Hnd. clear Hnd.
  unfold HamiltonianObj.Sk_and_Hk, instantaneous, ndim. rewrite Hsh. cbn [length Nat.eqb].
  rewrite (newaxis0_1d k n Hsh). cbn [bind].
  destruct (HamiltonianObj._r2k _ _ (HamiltonianObj.SR self)) as [SkB|e] eqn:ES;
    cbn [bind]; [|reflexivity].
  pose proof (_r2k_leading (mk_nd [1; n] (data k)) _ _ _ 1 [n] eq_refl ES) as HSkB.
  rewrite (item_first SkB 0 _ HSkB). cbn [bind].
  destruct (HamiltonianObj._r2k _ _ (HamiltonianObj.HR self)) as [HkB|e] eqn:EH;
    cbn [bind]; [|reflexivity].
  pose proof (_r2k_leading (mk_nd [1; n] (data k)) _ _ _ 1 [n] eq_refl EH) as HHkB.
  rewrite (item_first HkB 0 _ HHkB). reflexivity.
Qed.

Lemma item_at {A : Type} (a : ndarray A) (n j : nat) (rest : list nat) :
  shape a = n :: rest -> j < n ->
  item a j = Ok (mk_nd rest (firstn (prod rest) (skipn (j * prod rest) (data a)))).
Proof.
  intros Ha Hj. unfold item. rewrite Ha.
  replace (j <? n) with true by (symmetry; apply Nat.ltb_lt; exact Hj). reflexivity.
Qed.

Lemma batch_row_entries (ks : ndarray R) (Rs : ndarray Z) (MRs : ndarray C)
  (Nk NR M j : nat) :
  shape ks = [Nk; 3] -> j < Nk ->
  firstn M (skipn (j * M) (tab2 Nk M (fun k c => bloch_sum ks Rs MRs NR M k c)))
  = firstn M
      (tab2 1 M (fun i c =>
         bloch_sum (mk_nd [1; 3] (firstn 3 (skipn (j * 3) (data ks)))) Rs MRs NR M i c)).
Proof.
  intros Hks Hj.
  rewrite (tab2_row Nk M j _ Hj).
  pose proof (tab2_row 1 M 0
    (fun i c => bloch_sum (mk_nd [1; 3] (firstn 3 (skipn (j * 3) (data ks)))) Rs MRs NR M i c)
    Nat.lt_0_1) as E.
  cbn [Nat.mul skipn] in E. rewrite E.
  apply map_ext. intros c. unfold bloch_sum.
  apply f_equal, map_ext. intros r. rewrite (row_phase ks Rs Nk j r Hks). reflexivity.
Qed.

(** X10.  For points of shape [(Nk, 3)] and an operator of [NR >= 1]
    displacements and [Nb] orbitals, [Sk_and_Hk] returns two arrays of shape
    [(Nk, Nb, Nb)], also for the empty batch; and entry [j] of the two arrays
    is the pair [Sk_and_Hk] returns for the single point [ks[j]]: a batch is
    evaluated point by point, no point influences another. *)
Theorem Sk_and_Hk_batch_rows (self : HamiltonianObj.t) (ks : ndarray R) (Nk NR Nb : nat) :
  0 < NR ->
  shape ks = [Nk; 3] ->
  shape (HamiltonianObj.Rijk_list self) = [NR; 3] ->
  shape (HamiltonianObj.SR self) = [NR; Nb; Nb] ->
  shape (HamiltonianObj.HR self) = [NR; Nb; Nb] ->
  exists Sk Hk,
    HamiltonianObj.Sk_and_Hk self ks = Ok (Sk, Hk)
    /\ shape Sk = [Nk; Nb; Nb] /\ shape Hk = [Nk; Nb; Nb]
    /\ forall j, j < Nk ->
         exists kj Sj Hj,
           item ks j = Ok kj /\ shape kj = [3]
           /\ HamiltonianObj.Sk_and_Hk self kj = Ok (Sj, Hj)
           /\ item Sk j = Ok Sj /\ item Hk j = Ok Hj.
Proof.
  intros HNR Hks HR HS HH.
  unfold HamiltonianObj.Sk_and_Hk at 1. unfold ndim. rewrite Hks. cbn [length Nat.eqb bind].
  rewrite (_r2k_ok ks _ _ Nk NR [Nb; Nb] HNR Hks HR HS). cbn [bind].
  rewrite (_r2k_ok ks _ _ Nk NR [Nb; Nb] HNR Hks HR HH). cbn [bind].
  eexists. eexists. split; [reflexivity|]. split; [reflexivity|]. split; [reflexivity|].
  intros j Hj.
  set (kj := mk_nd [3] (firstn 3 (skipn (j * 3) (data ks)))).
  exists kj.
  rewrite (item_at ks Nk j [3] Hks Hj).
  change (prod [3]) with 3. fold kj.
  rewrite (Sk_and_Hk_point self kj eq_refl).
  rewrite (instantaneous_data self kj NR [Nb; Nb] HNR eq_refl HR HS HH).
  eexists. eexists. split; [reflexivity|]. split; [reflexivity|].
  split; [reflexivity|].
  unfold item. cbn [shape data].
  replace (j <? Nk) with true by (symmetry; apply Nat.ltb_lt; exact Hj).
  unfold kj. cbn [data].
  rewrite <- (batch_row_entries ks _ (HamiltonianObj.SR self) Nk NR (prod [Nb; Nb]) j Hks Hj).
  rewrite <- (batch_row_entries ks _ (HamiltonianObj.HR self) Nk NR (prod [Nb; Nb]) j Hks Hj).
  split; reflexivity.
Qed.

Lemma Sk_and_Hk_batch_rows_witness :
  exists Sk Hk,
    HamiltonianObj.Sk_and_Hk chain two_ks = Ok (Sk, Hk)
    /\ shape Sk = [2; 1; 1] /\ shape Hk = [2; 1; 1]
    /\ forall j, j < 2 ->
         exists kj Sj Hj,
           item two_ks j = Ok kj /\ shape kj = [3]
           /\ HamiltonianObj.Sk_and_Hk chain kj = Ok (Sj, Hj)
           /\ item Sk j = Ok Sj /\ item Hk j = Ok Hj.
Proof.
  apply (Sk_and_Hk_batch_rows chain two_ks 2 3 1);
    [lia | reflexivity | reflexivity | reflexivity | reflexivity].
Defined.

End BatchRows.

(** ** The per-point unit, through [Sk_and_Hk] *)

Section PointUnit.

Context {K : Type} (sp : scipy K).

(** X11.  For a 1-d point [k], as the rows of a batch are, [process_k(k)] is
    the solver applied to the pair [Sk_and_Hk(k)] returns, Hamiltonian first
    and overlap second, in each of its four modes; a failure of either
    transform is the failure of [process_k], and the solver is not called. *)
Theorem process_k_solves_Sk_and_Hk (self : HamiltonianObj.t) (kwargs : K) (blas : Z)
  (k : ndarray R) :
  ndim k = 1 ->
  HamiltonianObj.process_k sp self false false kwargs blas k
  = ('(Sk, Hk) <- HamiltonianObj.Sk_and_Hk self k ;; eigh sp blas Hk Sk)
  /\ HamiltonianObj.process_k sp self false true kwargs blas k
     = ('(Sk, Hk) <- HamiltonianObj.Sk_and_Hk self k ;; eigh_eigvals_only sp blas Hk Sk)
  /\ HamiltonianObj.process_k sp self true true kwargs blas k
     = ('(Sk, Hk) <- HamiltonianObj.Sk_and_Hk self k ;;
        vals <- eigsh_no_vectors sp blas kwargs Hk Sk ;;
        Ok (Np.sort vals))
  /\ HamiltonianObj.process_k sp self true false kwargs blas k
     = ('(Sk, Hk) <- HamiltonianObj.Sk_and_Hk self k ;;
        '(vals, vecs) <- eigsh sp blas kwargs Hk Sk ;;
        vals_idx <- take vals (argsort vals) ;;
        vecs_idx <- take_cols vecs (argsort vals) ;;
        Ok (vals_idx, vecs_idx))
  /\ (forall sparse_calc bands_only e,
        HamiltonianObj.Sk_and_Hk self k = Raise e ->
        HamiltonianObj.process_k sp self sparse_calc bands_only kwargs blas k = Raise e).
Proof.
  intros Hnd. rewrite (Sk_and_Hk_point self k Hnd).
  split; [apply process_k_dense_full|].
  split; [apply process_k_dense_bands|].
  split; [apply process_k_sparse_bands|].
  split; [apply process_k_sparse_full|].
  intros sparse_calc bands_only e E.
  destruct sparse_calc, bands_only;
    [rewrite process_k_sparse_bands | rewrite process_k_sparse_full
     | rewrite process_k_dense_bands | rewrite process_k_dense_full];
    rewrite E; reflexivity.
Qed.

End PointUnit.

Lemma process_k_solves_Sk_and_Hk_witness :
  HamiltonianObj.process_k unit_solver chain false true tt 1%Z gamma_k
  = ('(Sk, Hk) <- HamiltonianObj.Sk_and_Hk chain gamma_k ;;
     eigh_eigvals_only unit_solver 1%Z Hk Sk).
Proof.
  exact (proj1 (proj2 (process_k_solves_Sk_and_Hk unit_solver chain tt 1%Z gamma_k eq_refl))).
Defined.

(** ** The solver is handed Hermitian matrices *)

Section PointHermitian.

Context {K : Type} (sp : scipy K).

Lemma bloch_hermitian (ks : ndarray R) (Rs : ndarray Z) (MRs : ndarray C)
  (NR Nb k a b : nat) :
  distinct_displacements Rs NR -> lattice_hermitian Rs MRs NR Nb ->
  a < Nb -> b < Nb ->
  ssum (map (fun r => Cmult (Phi ks Rs k r) (at3 MRs r a b)) (seq 0 NR))
  = Cconj (ssum (map (fun r => Cmult (Phi ks Rs k r) (at3 MRs r b a)) (seq 0 NR))).
Proof.
  intros Hdist Hherm Ha Hb.
  rewrite ssum_conj, map_map.
  apply (ssum_reindex
           (fun r r' =>
              (forall c, c < 3 -> at2 Rs r' c = (- at2 Rs r c)%Z)
              /\ (forall a b, a < Nb -> b < Nb ->
                    at3 MRs r' a b = Cconj (at3 MRs r b a)))).
  - exact Hherm.
  - intros r1 r2 r' H1 H2 (O1 & _) (O2 & _). apply Hdist; try assumption.
    intros c Hc. specialize (O1 c Hc). specialize (O2 c Hc). lia.
  - intros r r' _ _ (O & HMr).
    rewrite Cconj_mult, <- (Phi_opposite ks Rs k r r' O), <- HMr by assumption.
    reflexivity.
Qed.

Lemma point_matrix_hermitian (k1 : ndarray R) (Rs : ndarray Z) (MRs : ndarray C)
  (NR Nb : nat) :
  0 < NR -> shape k1 = [1; 3] -> shape Rs = [NR; 3] -> shape MRs = [NR; Nb; Nb] ->
  distinct_displacements Rs NR -> lattice_hermitian Rs MRs NR Nb ->
  exists MkB Mk,
    HamiltonianObj._r2k k1 Rs MRs = Ok MkB /\ item MkB 0 = Ok Mk
    /\ shape Mk = [Nb; Nb]
    /\ forall a b, a < Nb -> b < Nb -> at2 Mk a b = Cconj (at2 Mk b a).
Proof.
  intros HNR Hk HRs HM Hdist Hherm.
  destruct (_r2k_entries 1 NR Nb k1 Rs MRs HNR Hk HRs HM) as (MkB & E & Hsh & _ & _ & Hat).
  exists MkB. rewrite (item_first MkB 0 [Nb; Nb] Hsh).
  eexists. split; [exact E|]. split; [reflexivity|]. split; [reflexivity|].
  assert (F : forall a b, a < Nb -> b < Nb ->
            at2 (mk_nd [Nb; Nb] (firstn (prod [Nb; Nb]) (data MkB))) a b = at3 MkB 0 a b).
  { intros a b Ha Hb. unfold at2, at3, flat. rewrite Hsh. cbn [shape data nth].
    rewrite nth_firstn.
    replace (a * Nb + b <? prod [Nb; Nb]) with true
      by (symmetry; apply Nat.ltb_lt; cbn; nia).
    reflexivity. }
  intros a b Ha Hb. rewrite !F by assumption.
  rewrite !Hat by (assumption || lia).
  apply (bloch_hermitian k1 Rs MRs NR Nb 0 a b); assumption.
Qed.

(** X12.  For an operator of [NR >= 1] pairwise distinct displacements whose
    overlap and Hamiltonian matrices both satisfy [M(R) = M(-R)^H], the two
    [(Nb, Nb)] matrices [Sk_and_Hk] returns at a point [k] of shape [(3,)]
    equal their own conjugate transposes, and they are the matrices
    [process_k] hands to the solver: dense and sparse solver are only ever
    called on Hermitian pairs. *)
Theorem Sk_and_Hk_hermitian (self : HamiltonianObj.t) (k : ndarray R) (NR Nb : nat)
  (kwargs : K) (blas : Z) :
  0 < NR -> shape k = [3] ->
  shape (HamiltonianObj.Rijk_list self) = [NR; 3] ->
  shape (HamiltonianObj.SR self) = [NR; Nb; Nb] ->
  shape (HamiltonianObj.HR self) = [NR; Nb; Nb] ->
  distinct_displacements (HamiltonianObj.Rijk_list self) NR ->
  lattice_hermitian (HamiltonianObj.Rijk_list self) (HamiltonianObj.SR self) NR Nb ->
  lattice_hermitian (HamiltonianObj.Rijk_list self) (HamiltonianObj.HR self) NR Nb ->
  exists Sk Hk,
    HamiltonianObj.Sk_and_Hk self k = Ok (Sk, Hk)
    /\ shape Sk = [Nb; Nb] /\ shape Hk = [Nb; Nb]
    /\ (forall a b, a < Nb -> b < Nb ->
          at2 Sk a b = Cconj (at2 Sk b a) /\ at2 Hk a b = Cconj (at2 Hk b a))
    /\ HamiltonianObj.process_k sp self false false kwargs blas k = eigh sp blas Hk Sk
    /\ HamiltonianObj.process_k sp self true false kwargs blas k
       = ('(vals, vecs) <- eigsh sp blas kwargs Hk Sk ;;
          vals_idx <- take vals (argsort vals) ;;
          vecs_idx <- take_cols vecs (argsort vals) ;;
          Ok (vals_idx, vecs_idx)).
Proof.
  intros HNR Hk HR HS HH Hdist HhS HhH.
  pose proof (newaxis0_1d k 3 Hk) as Hna.
  destruct (point_matrix_hermitian (mk_nd [1; 3] (data k)) _ _ NR Nb HNR eq_refl HR HS
              Hdist HhS) as (SkB & Sk & ES & EiS & HshS & HSk).
  destruct (point_matrix_hermitian (mk_nd [1; 3] (data k)) _ _ NR Nb HNR eq_refl HR HH
              Hdist HhH) as (HkB & Hk' & EH & EiH & HshH & HHk).
  assert (Einst : instantaneous self k = Ok (Sk, Hk')).
  { unfold instantaneous. rewrite Hna. cbn [bind].
    rewrite ES. cbn [bind]. rewrite EiS. cbn [bind].
    rewrite EH. cbn [bind]. rewrite EiH. reflexivity. }
  exists Sk, Hk'.
  rewrite (Sk_and_Hk_point self k) by (unfold ndim; rewrite Hk; reflexivity).
  split; [exact Einst|]. split; [exact HshS|]. split; [exact HshH|].
  split; [intros a b Ha Hb; split; [apply HSk | apply HHk]; assumption|].
  rewrite process_k_dense_full, process_k_sparse_full, Einst. split; reflexivity.
Qed.

End PointHermitian.

Lemma chain_overlap_lattice_hermitian : lattice_hermitian chain_Rs chain_SR 3 1.
Proof.
  intros r Hr.
  assert (Hone : forall a b, a < 1 -> b < 1 -> a = 0 /\ b = 0) by (intros; lia).
  destruct r as [|[|[|r]]]; try lia;
    [exists 2 | exists 1 | exists 0];
    (split; [lia|]; split;
     [ intros c Hc; destruct c as [|[|[|c]]]; try lia; reflexivity
     | intros a b Ha Hb; destruct (Hone a b Ha Hb) as [-> ->];
       apply C_eq; cbn; lra ]).
Qed.

Lemma Sk_and_Hk_hermitian_witness :
  exists Sk Hk,
    HamiltonianObj.Sk_and_Hk chain half_k = Ok (Sk, Hk)
    /\ shape Sk = [1; 1] /\ shape Hk = [1; 1]
    /\ (forall a b, a < 1 -> b < 1 ->
          at2 Sk a b = Cconj (at2 Sk b a) /\ at2 Hk a b = Cconj (at2 Hk b a))
    /\ HamiltonianObj.process_k unit_solver chain false false tt 1%Z half_k
       = eigh unit_solver 1%Z Hk Sk
    /\ HamiltonianObj.process_k unit_solver chain true false tt 1%Z half_k
       = ('(vals, vecs) <- eigsh unit_solver 1%Z tt Hk Sk ;;
          vals_idx <- take vals (argsort vals) ;;
          vecs_idx <- take_cols vecs (argsort vals) ;;
          Ok (vals_idx, vecs_idx)).
Proof.
  apply (Sk_and_Hk_hermitian unit_solver chain half_k 3 1 tt 1%Z);
    [lia | reflexivity | reflexivity | reflexivity | reflexivity
     | exact chain_distinct | exact chain_overlap_lattice_hermitian
     | exact chain_lattice_hermitian].
Defined.

(** ** A point that fails, fails the batch *)

Section FailureFacts.

Context {A B : Type}.

Lemma mapM_first_raise (f : A -> result B) (l : list A) (e : exn) :
  mapM f l = Raise e <->
  exists pre x post,
    l = pre ++ x :: post /\ Forall (fun y => exists r, f y = Ok r) pre /\ f x = Raise e.
Proof.
  split.
  - revert e. induction l as [|x l IH]; intros e E; [discriminate E|].
    cbn [mapM] in E. destruct (f x) as [y|e0] eqn:Ex; cbn [bind] in E.
    + destruct (mapM f l) as [ys|e1]; cbn [bind] in E; [discriminate E|].
      injection E as ->.
      destruct (IH e eq_refl) as (pre & x' & post & -> & Hpre & Hx').
      exists (x :: pre), x', post. split; [reflexivity|]. split; [|exact Hx'].
      constructor; [exists y; exact Ex | exact Hpre].
    + injection E as ->. exists [], x, l. split; [reflexivity|]. split; [constructor | exact Ex].
  - intros (pre & x & post & -> & Hpre & Hx).
    induction Hpre as [|y pre [r Hy] _ IH]; cbn [app mapM].
    + rewrite Hx. reflexivity.
    + rewrite Hy. cbn [bind]. rewrite IH. reflexivity.
Qed.

Lemma Parallel_raise_source (n_jobs : Z) (sched : list nat) (f : A -> result B)
  (tasks : list A) (e : exn) :
  n_jobs <> 0%Z -> Parallel n_jobs sched f tasks = Raise e ->
  exists x, In x tasks /\ f x = Raise e.
Proof.
  intros Hn E. destruct (mapM f tasks) as [rs|e0] eqn:EM.
  { rewrite (Parallel_ok n_jobs sched f tasks rs Hn EM) in E. discriminate E. }
  unfold Parallel in E.
  replace (n_jobs =? 0)%Z with false in E by (symmetry; apply Z.eqb_neq; exact Hn).
  destruct (mapM_raise _ _ _ EM) as (x & Hin & Hx).
  destruct (In_nth_error _ _ Hin) as [i Hi].
  pose proof (completed_all f tasks sched i x Hi) as Hdone. rewrite Hx in Hdone.
  unfold first_failure in E.
  destruct (find _ (completed f tasks sched)) as [[j r]|] eqn:Ef.
  - apply find_some in Ef. destruct Ef as [Hj Hr]. cbn [snd] in Hr.
    destruct r as [y|e']; [discriminate Hr|]. injection E as ->.
    destruct (completed_spec _ _ _ _ _ Hj) as (x' & Hx' & Hfx').
    exists x'. split; [exact (nth_error_In _ _ Hx') | symmetry; exact Hfx'].
  - pose proof (find_none _ _ Ef _ Hdone) as Hnone. cbn [snd] in Hnone. discriminate Hnone.
Qed.

End FailureFacts.

Section PointFailure.

Context {K : Type} (sp : scipy K).

(** X13.  If [process_k] raises at some point of the batch, [diag] raises and
    returns no partial result, sequentially and with any number of workers in
    any order of completion.  For a worker count other than 0 the exception is
    one that [process_k] raised at a point of the batch; for the sequential
    loop it is the exception of the first point, in input order, at which
    [process_k] raises. *)
Theorem diag_point_failure (env : Py.environ) (blas0 : Z) (sched : list nat)
  (self : HamiltonianObj.t) (ks : ndarray R) (k_process_num : Z) (thread_num : option Z)
  (sparse_calc bands_only : bool) (kwargs : K) (cap : Z) (rows : list (ndarray R)) :
  HamiltonianObj.resolve_thread_num env thread_num = Ok cap ->
  iter ks = Ok rows ->
  (exists k e, In k rows
               /\ HamiltonianObj.process_k sp self sparse_calc bands_only kwargs cap k
                  = Raise e) ->
  let run := HamiltonianObj.diag sp env blas0 sched self ks k_process_num thread_num
               sparse_calc bands_only kwargs in
  (exists e, fst run = Raise e)
  /\ (k_process_num <> 0%Z ->
      forall e, fst run = Raise e ->
        exists k, In k rows
                  /\ HamiltonianObj.process_k sp self sparse_calc bands_only kwargs cap k
                     = Raise e)
  /\ (k_process_num = 1%Z ->
      exists pre k post e,
        rows = pre ++ k :: post
        /\ Forall (fun k' => exists res,
                     HamiltonianObj.process_k sp self sparse_calc bands_only kwargs cap k'
                     = Ok res) pre
        /\ HamiltonianObj.process_k sp self sparse_calc bands_only kwargs cap k = Raise e
        /\ fst run = Raise e).
Proof.
  intros Hcap Hrows (k & e & Hin & Hk) run. unfold run. rewrite diag_steps, Hcap, Hrows.
  cbn [fst bind].
  set (f := HamiltonianObj.process_k sp self sparse_calc bands_only kwargs cap) in *.
  assert (EM : exists e0, mapM f rows = Raise e0).
  { destruct (mapM f rows) as [rs|e0] eqn:EM; [|exists e0; reflexivity].
    apply mapM_Forall2 in EM. exfalso. clear - EM Hin Hk.
    induction EM as [|x r l rs Hx EM IH]; [contradiction|].
    destruct Hin as [->|Hin]; [rewrite Hk in Hx; discriminate Hx | exact (IH Hin)]. }
  destruct EM as [e0 EM].
  split; [|split].
  - destruct (k_process_num =? 1)%Z.
    + rewrite EM. exists e0. reflexivity.
    + destruct (Parallel_raise k_process_num sched f rows e0 EM) as [e' E'].
      rewrite E'. exists e'. reflexivity.
  - intros Hn e1 E1. destruct (k_process_num =? 1)%Z.
    + rewrite EM in E1. cbn [bind] in E1. injection E1 as <-.
      destruct (mapM_raise _ _ _ EM) as (x & Hx & Hfx). exists x. split; assumption.
    + destruct (Parallel k_process_num sched f rows) as [rs|e2] eqn:EP.
      * apply Parallel_inv in EP. rewrite EP in EM. discriminate EM.
      * cbn [bind] in E1. injection E1 as <-.
        exact (Parallel_raise_source k_process_num sched f rows e2 Hn EP).
  - intros ->. cbn [Z.eqb Pos.eqb]. rewrite EM. cbn [bind].
    destruct (proj1 (mapM_first_raise f rows e0) EM) as (pre & x & post & E & Hpre & Hx).
    exists pre, x, post, e0. repeat split; assumption.
Qed.

End PointFailure.

Lemma diag_point_failure_witness :
  let run := HamiltonianObj.diag no_convergence no_env 8%Z [1; 0] chain two_ks 4 None
               true true tt in
  (exists e, fst run = Raise e)
  /\ (4%Z <> 0%Z ->
      forall e, fst run = Raise e ->
        exists k, In k [gamma_k; half_k]
                  /\ HamiltonianObj.process_k no_convergence chain true true tt 1%Z k
                     = Raise e)
  /\ (4%Z = 1%Z ->
      exists pre k post e,
        [gamma_k; half_k] = pre ++ k :: post
        /\ Forall (fun k' => exists res,
                     HamiltonianObj.process_k no_convergence chain true true tt 1%Z k'
                     = Ok res) pre
        /\ HamiltonianObj.process_k no_convergence chain true true tt 1%Z k = Raise e
        /\ fst run = Raise e).
Proof.
  apply (diag_point_failure no_convergence no_env 8%Z [1; 0] chain two_ks 4 None
           true true tt 1%Z [gamma_k; half_k]);
    [reflexivity | exact iter_two_ks|].
  exists half_k, ArpackError. split; [right; left; reflexivity|].
  rewrite process_k_sparse_bands, chain_at_half. reflexivity.
Defined.

(** ** The sparse batch *)

Section SparseBatch.

Context {K : Type} (sp : scipy K).

Lemma sorted_nth (l : list R) (i i' : nat) :
  Sorted Rle l -> i <= i' -> i' < length l -> (nth i l 0 <= nth i' l 0)%R.
Proof.
  intros Hs. apply Sorted_StronglySorted in Hs; [|intros x y z; apply Rle_trans].
  revert i i'. induction Hs as [|x l Hs IH Hx]; intros i i' Hii Hi'; [cbn in Hi'; lia|].
  destruct i' as [|i']; [replace i with 0 by lia; apply Rle_refl|].
  cbn [length] in Hi'. destruct i as [|i]; cbn [nth].
  - rewrite Forall_forall in Hx. apply Hx, nth_In. lia.
  - apply IH; lia.
Qed.

Lemma length_argsort (w : list R) : length (argsort w) = length w.
Proof. rewrite (Permutation_length (argsort_perm w)). apply length_seq. Qed.

Lemma length_sort (w : list R) : length (Np.sort w) = length w.
Proof. exact (Permutation_length (sort_perm w)). Qed.

(** X14.  In sparse mode, for [Nk >= 1] points of shape [(Nk, 3)], an operator
    of [NR >= 1] displacements and [Nb] orbitals, a worker count other than 0,
    a thread limit that resolves, and a solver [eigsh] that returns [m]
    eigenvalues, in whatever order, and an [(Nb, m)] eigenvector matrix at
    every point of the batch: [diag] returns eigenvalues of shape [(m, Nk)]
    and, without [bands_only], eigenvectors of shape [(Nb, m, Nk)]; and at
    every point the returned eigenvalues ascend along the band axis. *)
Theorem diag_sparse_sorted_bands (env : Py.environ) (blas0 : Z)
  (sched : list nat) (self : HamiltonianObj.t) (ks : ndarray R) (k_process_num : Z)
  (thread_num : option Z) (kwargs : K) (Nk NR Nb m : nat) (cap : Z) :
  0 < Nk -> 0 < NR ->
  shape ks = [Nk; 3] ->
  shape (HamiltonianObj.Rijk_list self) = [NR; 3] ->
  shape (HamiltonianObj.SR self) = [NR; Nb; Nb] ->
  shape (HamiltonianObj.HR self) = [NR; Nb; Nb] ->
  k_process_num <> 0%Z ->
  HamiltonianObj.resolve_thread_num env thread_num = Ok cap ->
  (forall rows k Sk Hk,
     iter ks = Ok rows -> In k rows -> HamiltonianObj.Sk_and_Hk self k = Ok (Sk, Hk) ->
     (exists w v, eigsh sp cap kwargs Hk Sk = Ok (w, v) /\ length w = m /\ shape v = [Nb; m])
     /\ (exists w, eigsh_no_vectors sp cap kwargs Hk Sk = Ok w /\ length w = m)) ->
  (exists eigvals eigvecs,
     fst (HamiltonianObj.diag sp env blas0 sched self ks k_process_num thread_num
            true false kwargs) = Ok (eigvals, eigvecs)
     /\ shape eigvals = [m; Nk] /\ shape eigvecs = [Nb; m; Nk]
     /\ forall i i' j, i <= i' -> i' < m -> j < Nk ->
          (at2 eigvals i j <= at2 eigvals i' j)%R)
  /\ (exists eigvals,
        fst (HamiltonianObj.diag sp env blas0 sched self ks k_process_num thread_num
               true true kwargs) = Ok eigvals
        /\ shape eigvals = [m; Nk]
        /\ forall i i' j, i <= i' -> i' < m -> j < Nk ->
             (at2 eigvals i j <= at2 eigvals i' j)%R).
Proof.
  intros HNk HNR Hks HR HS HH Hp Hcap Hsolver.
  pose proof (iter_rows ks Nk [3] Hks) as Hrows.
  set (rows := map (fun i => mk_nd [3] (firstn (prod [3]) (skipn (i * prod [3]) (data ks))))
                   (seq 0 Nk)) in *.
  assert (Hlen : length rows = Nk) by (unfold rows; rewrite length_map, length_seq; reflexivity).
  assert (Hrow : forall k, In k rows ->
            exists Sk Hk, instantaneous self k = Ok (Sk, Hk)
                          /\ HamiltonianObj.Sk_and_Hk self k = Ok (Sk, Hk)).
  { intros k Hk. apply in_map_iff in Hk. destruct Hk as (i & <- & _).
    destruct (instantaneous_ok self
                (mk_nd [3] (firstn (prod [3]) (skipn (i * prod [3]) (data ks))))
                NR Nb HNR eq_refl HR HS HH) as (Sk & Hk & E & _).
    exists Sk, Hk. split; [exact E|]. rewrite Sk_and_Hk_point by reflexivity. exact E. }
  assert (Run : forall (b : bool) (f : ndarray R -> result (HamiltonianObj.point_result b))
                       (results : list (HamiltonianObj.point_result b)),
            mapM f rows = Ok results ->
            (if (k_process_num =? 1)%Z then mapM f rows
             else Parallel k_process_num sched f rows) = Ok results).
  { intros b f results E. destruct (k_process_num =? 1)%Z; [exact E|].
    apply Parallel_ok; assumption. }
  split.
  - rewrite diag_steps, Hcap, Hrows. cbn [fst bind].
    destruct (mapM_all (HamiltonianObj.process_k sp self true false kwargs cap)
                (fun res => length (fst res) = m /\ shape (snd res) = [Nb; m]
                            /\ Sorted Rle (fst res)) rows)
      as (results & Eres & Hres & Hrl).
    { intros k Hk. destruct (Hrow k Hk) as (Sk & Hk' & Einst & ESH).
      destruct (proj1 (Hsolver rows k Sk Hk' Hrows Hk ESH)) as (w & v & Ew & Hw & Hv).
      rewrite process_k_sparse_full, Einst. cbn [bind]. rewrite Ew. cbn [bind].
      rewrite (take_in_range w (argsort w) (argsort_bound w)). cbn [bind].
      rewrite (take_cols_in_range v (argsort w) Nb m Hv)
        by (intros i Hi; rewrite <- Hw; exact (argsort_bound w i Hi)).
      cbn [bind]. eexists. split; [reflexivity|]. cbn [fst snd shape].
      rewrite length_map, length_argsort, Hw.
      split; [reflexivity|]. split; [reflexivity|]. apply argsort_sorted. }
    rewrite (Run false _ results Eres). cbn [bind].
    assert (Hne : results <> []) by (intros ->; cbn in Hrl; lia).
    destruct (stack_shape (map (fun res => of_list (fst res)) results) [m] 1)
      as (ev & Eev & Hev).
    { destruct results; [contradiction | discriminate]. }
    { apply Forall_forall. intros a Ha. apply in_map_iff in Ha.
      destruct Ha as (res & <- & Hin). rewrite Forall_forall in Hres.
      cbn [of_list shape]. rewrite (proj1 (Hres res Hin)). reflexivity. }
    { cbn. lia. }
    destruct (stack_shape (map (fun res => snd res) results) [Nb; m] 2)
      as (evec & Eevec & Hevec).
    { destruct results; [contradiction | discriminate]. }
    { apply Forall_forall. intros a Ha. apply in_map_iff in Ha.
      destruct Ha as (res & <- & Hin). rewrite Forall_forall in Hres.
      exact (proj1 (proj2 (Hres res Hin))). }
    { cbn. lia. }
    assert (Easm : assemble false results = Ok (ev, evec)).
    { cbn [assemble]. rewrite Eev. cbn [bind]. rewrite Eevec. reflexivity. }
    rewrite Easm.
    exists ev, evec. split; [reflexivity|].
    unfold HamiltonianObj.point_result in Hrl.
    rewrite Hev, Hevec, !length_map, Hrl, Hlen.
    split; [reflexivity|]. split; [reflexivity|].
    intros i i' j Hii Hi' Hj.
    destruct (nth_error results j) as [res|] eqn:Ej;
      [|apply nth_error_None in Ej; unfold HamiltonianObj.point_result in Ej;
        rewrite Hrl, Hlen in Ej; lia].
    pose proof (proj1 (Forall_forall _ _) Hres res (nth_error_In _ _ Ej)) as (Hl & _ & Hsorted).
    pose proof (assemble_vals_position false results (ev, evec) j) as Hpos.
    cbn [batch_vals point_vals fst] in Hpos.
    rewrite (Hpos i res Easm Ej), (Hpos i' res Easm Ej) by lia.
    apply sorted_nth; [exact Hsorted | exact Hii | lia].
  - rewrite diag_steps, Hcap, Hrows. cbn [fst bind].
    destruct (mapM_all (HamiltonianObj.process_k sp self true true kwargs cap)
                (fun res => length res = m /\ Sorted Rle res) rows)
      as (results & Eres & Hres & Hrl).
    { intros k Hk. destruct (Hrow k Hk) as (Sk & Hk' & Einst & ESH).
      destruct (proj2 (Hsolver rows k Sk Hk' Hrows Hk ESH)) as (w & Ew & Hw).
      rewrite process_k_sparse_bands, Einst. cbn [bind]. rewrite Ew. cbn [bind].
      eexists. split; [reflexivity|].
      split; [rewrite length_sort; exact Hw | apply sort_sorted]. }
    rewrite (Run true _ results Eres). cbn [bind].
    assert (Hne : results <> []) by (intros ->; cbn in Hrl; lia).
    destruct (stack_shape (map of_list results) [m] 1) as (ev & Eev & Hev).
    { destruct results; [contradiction | discriminate]. }
    { apply Forall_forall. intros a Ha. apply in_map_iff in Ha.
      destruct Ha as (res & <- & Hin). rewrite Forall_forall in Hres.
      cbn [of_list shape]. rewrite (proj1 (Hres res Hin)). reflexivity. }
    { cbn. lia. }
    assert (Easm : assemble true results = Ok ev) by exact Eev.
    rewrite Easm. exists ev. split; [reflexivity|].
    unfold HamiltonianObj.point_result in Hrl.
    rewrite Hev, !length_map, Hrl, Hlen. split; [reflexivity|].
    intros i i' j Hii Hi' Hj.
    destruct (nth_error results j) as [res|] eqn:Ej;
      [|apply nth_error_None in Ej; unfold HamiltonianObj.point_result in Ej;
        rewrite Hrl, Hlen in Ej; lia].
    pose proof (proj1 (Forall_forall _ _) Hres res (nth_error_In _ _ Ej)) as (Hl & Hsorted).
    pose proof (assemble_vals_position true results ev j) as Hpos.
    cbn [batch_vals point_vals] in Hpos.
    rewrite (Hpos i res Easm Ej), (Hpos i' res Easm Ej) by lia.
    apply sorted_nth; [exact Hsorted | exact Hii | lia].
Qed.

End SparseBatch.

Lemma unit_solver_sparse_on_chain (rows : list (ndarray R)) (k : ndarray R)
  (Sk Hk : ndarray C) :
  iter two_ks = Ok rows -> In k rows -> HamiltonianObj.Sk_and_Hk chain k = Ok (Sk, Hk) ->
  (exists w v, eigsh unit_solver 1%Z tt Hk Sk = Ok (w, v) /\ length w = 1 /\ shape v = [1; 1])
  /\ (exists w, eigsh_no_vectors unit_solver 1%Z tt Hk Sk = Ok w /\ length w = 1).
Proof.
  intros Hrows Hin Hinst. rewrite iter_two_ks in Hrows. injection Hrows as <-.
  destruct Hin as [<-|[<-|[]]]; rewrite Sk_and_Hk_point in Hinst by reflexivity.
  - rewrite chain_at_gamma in Hinst. injection Hinst as <- <-.
    cbn [eigsh eigsh_no_vectors unit_solver]. rewrite unit_eig_real. split.
    + eexists. eexists. split; [reflexivity|]. split; reflexivity.
    + eexists. split; reflexivity.
  - rewrite chain_at_half in Hinst. injection Hinst as <- <-.
    cbn [eigsh eigsh_no_vectors unit_solver]. rewrite unit_eig_real. split.
    + eexists. eexists. split; [reflexivity|]. split; reflexivity.
    + eexists. split; reflexivity.
Qed.

Lemma diag_sparse_sorted_bands_witness :
  (exists eigvals eigvecs,
     fst (HamiltonianObj.diag unit_solver no_env 8%Z [1; 0] chain two_ks 4 None
            true false tt) = Ok (eigvals, eigvecs)
     /\ shape eigvals = [1; 2] /\ shape eigvecs = [1; 1; 2]
     /\ forall i i' j, i <= i' -> i' < 1 -> j < 2 ->
          (at2 eigvals i j <= at2 eigvals i' j)%R)
  /\ (exists eigvals,
        fst (HamiltonianObj.diag unit_solver no_env 8%Z [1; 0] chain two_ks 4 None
               true true tt) = Ok eigvals
        /\ shape eigvals = [1; 2]
        /\ forall i i' j, i <= i' -> i' < 1 -> j < 2 ->
             (at2 eigvals i j <= at2 eigvals i' j)%R).
Proof.
  apply (diag_sparse_sorted_bands unit_solver no_env 8%Z [1; 0] chain two_ks 4 None tt
           2 3 1 1 1%Z);
    [lia | lia | reflexivity | reflexivity | reflexivity | reflexivity
     | discriminate | reflexivity | exact unit_solver_sparse_on_chain].
Defined.

(** ** The batch must be rows of three coordinates *)

Section BatchShape.

Context {K : Type} (sp : scipy K).



End BatchShape.


(** ** [bands_only] and the keyword arguments *)

Section ModeFacts.

Context {K : Type} (sp : scipy K).

Lemma sorted_perm_eq (l1 l2 : list R) :
  Sorted Rle l1 -> Sorted Rle l2 -> Permutation l1 l2 -> l1 = l2.
Proof.
  intros H1 H2.
  apply Sorted_StronglySorted in H1; [|intros x y z; apply Rle_trans].
  apply Sorted_StronglySorted in H2; [|intros x y z; apply Rle_trans].
  revert l2 H2. induction H1 as [|x l1 H1 IH Hx]; intros l2 H2 HP.
  - apply Permutation_nil in HP. symmetry. exact HP.
  - destruct H2 as [|y l2 H2 Hy].
    { apply Permutation_sym, Permutation_nil in HP. discriminate HP. }
    assert (Exy : x = y).
    { rewrite Forall_forall in Hx, Hy. apply Rle_antisym.
      - destruct (Permutation_in y (Permutation_sym HP) (or_introl eq_refl)) as [E|Hin];
          [rewrite E; apply Rle_refl | apply Hx, Hin].
      - destruct (Permutation_in x HP (or_introl eq_refl)) as [E|Hin];
          [rewrite E; apply Rle_refl | apply Hy, Hin]. }
    subst y. f_equal. apply IH; [exact H2|]. exact (Permutation_cons_inv HP).
Qed.

Lemma map_nth_positions_id (w : list R) :
  map (fun i => nth i w 0%R) (seq 0 (length w)) = w.
Proof.
  apply (nth_ext _ _ 0%R 0%R).
  - rewrite length_map, length_seq. reflexivity.
  - intros i Hi. rewrite length_map, length_seq in Hi.
    rewrite (nth_map_in (fun i => nth i w 0%R) (seq 0 (length w)) i 0%R 0)
      by (rewrite length_seq; exact Hi).
    rewrite seq_nth by exact Hi. reflexivity.
Qed.

Lemma argsort_values_perm (w : list R) :
  Permutation (map (fun i => nth i w 0%R) (argsort w)) w.
Proof.
  rewrite <- (map_nth_positions_id w) at 2.
  apply Permutation_map, argsort_perm.
Qed.

(** X16.  In sparse mode [bands_only] does not change the eigenvalues of a
    point: if [eigsh] without eigenvectors finds the eigenvalues that [eigsh]
    with eigenvectors finds, in whatever order each call returns them, then
    [process_k] returns with [bands_only] exactly the eigenvalue array it
    returns without. *)
Theorem sparse_bands_only_same_eigenvalues (self : HamiltonianObj.t) (kwargs : K)
  (blas : Z) (k : ndarray R) (Sk Hk : ndarray C) (w w' : list R) (v : ndarray C)
  (n : nat) :
  ndim k = 1 ->
  HamiltonianObj.Sk_and_Hk self k = Ok (Sk, Hk) ->
  eigsh sp blas kwargs Hk Sk = Ok (w, v) -> shape v = [n; length w] ->
  eigsh_no_vectors sp blas kwargs Hk Sk = Ok w' ->
  Permutation w w' ->
  exists vals vecs,
    HamiltonianObj.process_k sp self true false kwargs blas k = Ok (vals, vecs)
    /\ HamiltonianObj.process_k sp self true true kwargs blas k = Ok vals
    /\ Permutation vals w /\ Sorted Rle vals.
Proof.
  intros Hnd ESH Ew Hv Ew' HP.
  rewrite (Sk_and_Hk_point self k Hnd) in ESH.
  rewrite process_k_sparse_full, process_k_sparse_bands, ESH. cbn [bind].
  rewrite Ew, Ew'. cbn [bind].
  rewrite (take_in_range w (argsort w) (argsort_bound w)). cbn [bind].
  rewrite (take_cols_in_range v (argsort w) n (length w) Hv (argsort_bound w)). cbn [bind].
  eexists. eexists. split; [reflexivity|]. split.
  - f_equal. apply sorted_perm_eq; [apply sort_sorted | apply argsort_sorted|].
    apply (Permutation_trans (sort_perm w')).
    apply (Permutation_trans (Permutation_sym HP)).
    apply Permutation_sym, argsort_values_perm.
  - split; [apply argsort_values_perm | apply argsort_sorted].
Qed.

(** X17.  In dense mode the keyword arguments of [diag] never reach the
    solver: [eigh] is called on the two matrices alone, so two calls of [diag]
    that differ only in their keyword arguments return the same result, and
    so do the per-point units. *)
Theorem dense_ignores_kwargs (env : Py.environ) (blas0 : Z) (sched : list nat)
  (self : HamiltonianObj.t) (ks : ndarray R) (k_process_num : Z) (thread_num : option Z)
  (bands_only : bool) (kwargs kwargs' : K) :
  (forall blas k,
     HamiltonianObj.process_k sp self false bands_only kwargs blas k
     = HamiltonianObj.process_k sp self false bands_only kwargs' blas k)
  /\ HamiltonianObj.diag sp env blas0 sched self ks k_process_num thread_num
       false bands_only kwargs
     = HamiltonianObj.diag sp env blas0 sched self ks k_process_num thread_num
         false bands_only kwargs'.
Proof.
  assert (Ef : forall blas k,
            HamiltonianObj.process_k sp self false bands_only kwargs blas k
            = HamiltonianObj.process_k sp self false bands_only kwargs' blas k).
  { intros blas k. destruct bands_only;
      rewrite ?process_k_dense_bands, ?process_k_dense_full; reflexivity. }
  split; [exact Ef|].
  rewrite !diag_steps.
  destruct (HamiltonianObj.resolve_thread_num env thread_num) as [cap|e]; [|reflexivity].
  destruct (iter ks) as [rows|e]; [|reflexivity]. cbn [bind].
  rewrite (mapM_ext _ _ rows (Ef cap)), (Parallel_ext k_process_num sched _ _ rows (Ef cap)).
  reflexivity.
Qed.

End ModeFacts.

Lemma sparse_bands_only_same_eigenvalues_witness :
  exists vals vecs,
    HamiltonianObj.process_k unit_solver chain true false tt 1%Z half_k = Ok (vals, vecs)
    /\ HamiltonianObj.process_k unit_solver chain true true tt 1%Z half_k = Ok vals
    /\ Permutation vals [2%R] /\ Sorted Rle vals.
Proof.
  apply (sparse_bands_only_same_eigenvalues unit_solver chain tt 1%Z half_k
           (mk_nd [1; 1] [RtoC 1]) (mk_nd [1; 1] [RtoC 2]) [2%R] [2%R]
           (mk_nd [1; 1] [C1]) 1);
    [ reflexivity
    | rewrite Sk_and_Hk_point by reflexivity; exact chain_at_half
    | cbn [eigsh unit_solver]; apply unit_eig_real
    | reflexivity
    | cbn [eigsh_no_vectors unit_solver]; rewrite unit_eig_real; reflexivity
    | apply Permutation_refl ].
Defined.
